(** * promql-engine: the number-literal selector and the binary vector operator

    A shallow embedding of [physicalplan/scan] (number-literal selector) and
    [physicalplan/binary/vector.go] (vector-to-vector binary operator), with
    the properties the engine's specification states about them.

    Conventions.
    - [uint64] values (hashes, series ids) are [N]; [int64] and [int] values
      are [Z] with the two's-complement wrap-around written out; lengths of
      slices and positions in them are [nat].
    - Go maps are [gmap]s. The order in which [range] visits a map is not
      specified by Go: it is a parameter ([rangeKeys]) of which we only know
      that it enumerates the keys once each.
    - A Go call returns a value, returns an [error], or panics: [outcome]. *)

From Stdlib Require Import ZArith Lia.
From stdpp Require Import base numbers option list strings gmap sorting.

Local Open Scope Z_scope.

(** ** Outcomes of Go calls *)

Inductive outcome (A : Type) : Type :=
  | Ok (a : A)
  | Err (e : string)
  | Panic (msg : string).
Arguments Ok {A} a.
Arguments Err {A} e.
Arguments Panic {A} msg.

#[global] Instance outcome_ret : MRet outcome := λ A a, Ok a.
#[global] Instance outcome_bind : MBind outcome := λ A B f m,
  match m with
  | Ok a => f a
  | Err e => Err e
  | Panic msg => Panic msg
  end.

(** A method that updates its receiver: the receiver after the call is
    returned next to the outcome; an error or a panic ends the method. *)
Definition action (St A : Type) : Type := St → outcome A * St.

#[global] Instance action_ret {St} : MRet (action St) := λ A a s, (Ok a, s).
#[global] Instance action_bind {St} : MBind (action St) := λ A B k m s,
  match m s with
  | (Ok a, s') => k a s'
  | (Err e, s') => (Err e, s')
  | (Panic msg, s') => (Panic msg, s')
  end.

Definition lift {St A} (r : outcome A) : action St A := λ s, (r, s).

Definition is_Ok {A} (r : outcome A) : Prop :=
  match r with Ok _ => True | _ => False end.
Definition is_Err {A} (r : outcome A) : Prop :=
  match r with Err _ => True | _ => False end.
Definition is_Panic {A} (r : outcome A) : Prop :=
  match r with Panic _ => True | _ => False end.

(** [s[i]] on a Go slice: a run-time panic when [i] is out of range. *)
Definition index {A} (s : list A) (i : nat) : outcome A :=
  match s !! i with
  | Some a => Ok a
  | None => Panic "index out of range"
  end.

(** [s[i] = a] on a Go slice. *)
Definition assign {A} (s : list A) (i : nat) (a : A) : outcome (list A) :=
  if decide (i < length s)%nat then Ok (<[i := a]> s)
  else Panic "index out of range".

(** ** Label sets (package [labels] of Prometheus, used through its API) *)

Module labels.

Record Label := { Name : string; Value : string }.

#[global] Instance Label_eq_dec : EqDecision Label.
Proof. solve_decision. Defined.

Abbreviation Labels := (list Label).

Definition MetricName : string := "__name__".

(** [labels.Builder]. The engine never calls [Set], so the builder's list of
    added labels stays empty and is left out: a builder is its base label set
    and the names to delete. *)
Record Builder := { base : Labels; del : list string }.

(** [NewBuilder] marks the labels of the base that have an empty value for
    deletion. *)
Definition NewBuilder (b : Labels) : Builder :=
  {| base := b; del := Name <$> filter (λ l, Value l = ""%string) b |}.

Definition Del (ns : list string) (b : Builder) : Builder :=
  {| base := base b; del := del b ++ ns |}.

(** [Keep] deletes every label of the base whose name is not listed. *)
Definition Keep (ns : list string) (b : Builder) : Builder :=
  {| base := base b;
     del := del b ++ (Name <$> filter (λ l, Name l ∉ ns) (base b)) |}.

Definition byName (a b : Label) : Prop := String.le (Name a) (Name b).

#[global] Instance byName_dec : RelDecision byName.
Proof. intros a b. unfold byName, String.le. apply _. Defined.

(** [Builder.Labels]: the labels of the base that are not deleted, in the
    order of the base. Only added labels are sorted in, and the engine adds
    none. *)
Definition BuilderLabels (b : Builder) : Labels :=
  match del b with
  | [] => base b
  | _ => filter (λ l, Name l ∉ del b) (base b)
  end.

(** [a < b] on Go strings compares their bytes. *)
Definition less (a b : string) : Prop := strict String.le a b.

#[global] Instance less_dec : RelDecision less.
Proof. intros a b. unfold less, strict, String.le. apply _. Defined.

(** The bytes [HashForLabels] and [HashWithoutLabels] digest: name,
    separator, value and separator of one label after the other. The
    separator is the byte [0xff]. *)
Definition sep : string :=
  String (Ascii.Ascii true true true true true true true true) EmptyString.

Definition bytesOf (ls : Labels) : string :=
  foldr (λ l b, Name l +:+ sep +:+ Value l +:+ sep +:+ b) ""%string ls.

(** The loop of [HashForLabels], whose names "have to be sorted in ascending
    order": the label set and the names are gone through together; the
    smaller of the label's name and the name at hand is passed over, and a
    label whose name is the name at hand is digested. *)
Fixpoint forLabels (ls : Labels) (names : list string) {struct ls} : Labels :=
  let fix walk (names : list string) {struct names} : Labels :=
    match ls, names with
    | l :: ls', n :: names' =>
      if decide (less n (Name l)) then walk names'
      else if decide (less (Name l) n) then forLabels ls' names
      else l :: forLabels ls' names'
    | _, _ => []
    end in
  walk names.

(** The inner loop of [HashWithoutLabels]: the names below the name of the
    label are passed over. *)
Fixpoint skipBelow (n : string) (names : list string) : list string :=
  match names with
  | m :: names' =>
    if decide (less m n) then skipBelow n names' else names
  | [] => []
  end.

(** The loop of [HashWithoutLabels], whose names "have to be sorted in
    ascending order" too: a label is digested unless it is the metric name
    or its name is the name at hand. *)
Fixpoint withoutLabels (ls : Labels) (names : list string) : Labels :=
  match ls with
  | [] => []
  | l :: ls' =>
    let names := skipBelow (Name l) names in
    if decide (Name l = MetricName ∨ head names = Some (Name l))
    then withoutLabels ls' names
    else l :: withoutLabels ls' names
  end.

Section hash.
(** [xxhash.Sum64], the digest of a sequence of bytes. *)
Context (Sum64 : string → N).

Definition HashForLabels (ls : Labels) (names : list string) : N :=
  Sum64 (bytesOf (forLabels ls names)).

Definition HashWithoutLabels (ls : Labels) (names : list string) : N :=
  Sum64 (bytesOf (withoutLabels ls names)).

End hash.

End labels.
Import labels.

(** ** Series and step vectors (package [model]) *)

Module model.

Record Series := { ID : N; Metric : Labels }.

#[global] Instance Series_eq_dec : EqDecision Series.
Proof. solve_decision. Defined.

Section StepVector.
(** Sample values are [float64]s; the operators below only move them around,
    so their type is left open. *)
Context {float64 : Type}.

Record StepVector := { T : Z; SampleIDs : list N; Samples : list float64 }.

(** Modelled from the spec: the vector pool ([model.VectorPool]) is not among
    the sources. [GetVectorBatch] gives an empty batch. *)
Definition GetVectorBatch : list StepVector := [].

(** Modelled from the spec: [GetStepVector t] gives a step vector with [t] set
    and both sample sequences cleared. Returning vectors and batches to a pool
    ([PutStepVector], [PutVectors]) and [SetStepSize] only recycle buffers and
    are not represented. *)
Definition GetStepVector (t : Z) : StepVector :=
  {| T := t; SampleIDs := []; Samples := [] |}.

End StepVector.
Arguments StepVector : clear implicits.

(** [model.VectorOperator]: what every operator of a plan offers. A call
    changes the operator, so each method returns the operator after the call
    next to its outcome. *)
Class VectorOperator (float64 : Type) (O : Type) := {
  opSeries : O → outcome (list Labels) * O;
  opNext : O → outcome (list (StepVector float64)) * O
}.

End model.
Import model.

(** ** Vector matching (package [parser] of Prometheus) *)

Module parser.

Inductive VectorMatchCardinality :=
  | CardOneToOne | CardManyToOne | CardOneToMany | CardManyToMany.

#[global] Instance VectorMatchCardinality_eq_dec :
  EqDecision VectorMatchCardinality.
Proof. solve_decision. Defined.

Record VectorMatching := {
  Card : VectorMatchCardinality;
  MatchingLabels : list string;
  On : bool;
  Include : list string
}.

End parser.
Import parser.

(** ** The binary vector operator ([physicalplan/binary/vector.go]) *)

Module binary.

(** Loops over a slice with its index ([for i, x := range s]). *)
Fixpoint foldIndexed {A St} (body : St → nat → A → St)
    (i : nat) (l : list A) (s : St) : St :=
  match l with
  | [] => s
  | a :: l => foldIndexed body (S i) l (body s i a)
  end.

Fixpoint forRange {A St} (body : St → nat → A → outcome St)
    (i : nat) (l : list A) (s : St) : outcome St :=
  match l with
  | [] => Ok s
  | a :: l => s' ← body s i a; forRange body (S i) l s'
  end.

Fixpoint forEach {A St} (body : St → A → outcome St)
    (l : list A) (s : St) : outcome St :=
  match l with
  | [] => Ok s
  | a :: l => s' ← body s a; forEach body l s'
  end.

Section join.

(** [Labels.HashWithoutLabels] and [Labels.HashForLabels] of Prometheus.
    [labels.HashWithoutLabels] and [labels.HashForLabels] are the two as the
    library computes them; what does not hang on the labels they select is
    stated of any two functions. *)
Context (HashWithoutLabels HashForLabels : Labels → list string → N).

(** The order in which [range] visits the keys of a map. Go draws it anew
    for every [range]. [join] has two of them, over the same map; the first
    one counts and deletes, which comes to the same in every order, so one
    order stands for both. Two operators have an order each. *)
Context (rangeKeys : gset N → list N).

Definition rangeMap {V} (m : gmap N V) : list (N * V) :=
  omap (λ k, (k,.) <$> m !! k) (rangeKeys (dom m)).

Definition signature (metric : Labels) (without : bool)
    (grouping : list string) (keepLabels : bool) : N * Labels :=
  let lb := Del [MetricName] (NewBuilder metric) in
  if without then
    let dropLabels := grouping ++ [MetricName] in
    let key := HashWithoutLabels metric dropLabels in
    let lb := if negb keepLabels then Del dropLabels lb else lb in
    (key, BuilderLabels lb)
  else
    let lb := if keepLabels then Keep grouping lb else lb in
    if decide (length grouping = 0%nat) then (0%N, BuilderLabels lb)
    else
      let key := HashForLabels metric grouping in
      (key, BuilderLabels lb).

Abbreviation buckets := (gmap N (list model.Series) * gmap N (list N))%type.

(** The body of the loop of [hashSeries]. Reading a missing key of a Go map
    gives the zero value, here the nil slice. *)
Definition hashSeriesStep (matching : VectorMatching) (keepLabels : bool)
    (acc : buckets) (i : nat) (s : Labels) : buckets :=
  let '(hashes, inputIndex) := acc in
  let '(sig, lbls) :=
    signature s (negb (On matching)) (MatchingLabels matching) keepLabels in
  let '(hashes, inputIndex) :=
    match hashes !! sig with
    | Some _ => (hashes, inputIndex)
    | None => (<[sig := []]> hashes, <[sig := []]> inputIndex)
    end in
  (<[sig := default [] (hashes !! sig)
            ++ [{| ID := N.of_nat i; Metric := lbls |}]]> hashes,
   <[sig := default [] (inputIndex !! sig) ++ [N.of_nat i]]> inputIndex).

Definition hashSeries (matching : VectorMatching) (series : list Labels)
    (keepLabels : bool) : buckets :=
  foldIndexed (hashSeriesStep matching keepLabels) 0 series (∅, ∅).

(** First loop of [join]: count the high cardinality series and drop the
    buckets without a low cardinality partner. *)
Definition pruneStep (lowCardHashes : gmap N (list model.Series))
    (acc : nat * gmap N (list model.Series))
    (e : N * list model.Series) : nat * gmap N (list model.Series) :=
  let '(outputSize, highCardHashes) := acc in
  let '(hash, series) := e in
  let outputSize := (outputSize + length series)%nat in
  match lowCardHashes !! hash with
  | None => (outputSize, delete hash highCardHashes)
  | Some _ => (outputSize, highCardHashes)
  end.

Abbreviation joined :=
  (list model.Series * list (option N) * list (list N))%type.

(** Body of the inner loop of [join]: one output series per series of the
    bucket. Each iteration has an [outputSeries] variable of its own, so the
    pointer stored in [highCardOutputIndex] is the id assigned here. *)
Definition joinSeries (highCardInputIndex : gmap N (list N)) (hash : N)
    (lowCardSeriesID : N) (st : joined) (i : nat) (output : model.Series)
    : outcome joined :=
  let '(outputIndex, highCardOutputIndex, lowCardOutputIndex) := st in
  let outputSeries :=
    {| ID := N.of_nat (length outputIndex); Metric := Metric output |} in
  let outputIndex := outputIndex ++ [outputSeries] in
  highCardSeriesID ← index (default [] (highCardInputIndex !! hash)) i;
  highCardOutputIndex ←
    assign highCardOutputIndex (N.to_nat highCardSeriesID)
      (Some (ID outputSeries));
  current ← index lowCardOutputIndex (N.to_nat lowCardSeriesID);
  lowCardOutputIndex ←
    assign lowCardOutputIndex (N.to_nat lowCardSeriesID)
      (current ++ [ID outputSeries]);
  mret (outputIndex, highCardOutputIndex, lowCardOutputIndex).

(** Body of the second loop of [join]. *)
Definition joinBucket (highCardInputIndex lowCardInputIndex : gmap N (list N))
    (st : joined) (e : N * list model.Series) : outcome joined :=
  let '(outputIndex, highCardOutputIndex, lowCardOutputIndex) := st in
  let '(hash, outputSeries) := e in
  lowCardSeriesID ← index (default [] (lowCardInputIndex !! hash)) 0;
  lowCardOutputIndex ←
    assign lowCardOutputIndex (N.to_nat lowCardSeriesID) [];
  forRange (joinSeries highCardInputIndex hash lowCardSeriesID) 0 outputSeries
    (outputIndex, highCardOutputIndex, lowCardOutputIndex).

Definition join (highCardHashes : gmap N (list model.Series))
    (highCardInputIndex : gmap N (list N))
    (lowCardHashes : gmap N (list model.Series))
    (lowCardInputIndex : gmap N (list N)) : outcome joined :=
  let outputIndex : list model.Series := [] in
  let '(outputSize, highCardHashes) :=
    foldl (pruneStep lowCardHashes) (0%nat, highCardHashes)
      (rangeMap highCardHashes) in
  let highCardOutputIndex : list (option N) := replicate outputSize None in
  let lowCardOutputIndex : list (list N) := replicate outputSize [] in
  forEach (joinBucket highCardInputIndex lowCardInputIndex)
    (rangeMap highCardHashes)
    (outputIndex, highCardOutputIndex, lowCardOutputIndex).

End join.

Section vectorOperator.

Context {float64 : Type}.
Context (HashWithoutLabels HashForLabels : Labels → list string → N).
Context (rangeKeys : gset N → list N).

(** The table of the operator ([table.go]) is not among the sources. Its
    entry points are taken as they are called in [vector.go]: [newTable]
    returns a table or an error, and [execBinaryOperation] returns a step
    vector and no error; it may update the table it is called on, and like any
    Go call it may panic ([None]). The vector pool argument of [newTable] is
    left out. *)
Context {sample tableT ItemType : Type} (zeroSample : sample).
Context (newTable : VectorMatchCardinality → ItemType → list sample →
                    list (option N) → list (list N) → outcome tableT).
Context (execBinaryOperation :
  tableT → StepVector float64 → StepVector float64 →
  option (StepVector float64 * tableT)).

(** The two children. *)
Context {L R : Type}.
Context `{!VectorOperator float64 L, !VectorOperator float64 R}.

Record vectorOperator := {
  once : bool;
  lhs : L;
  rhs : R;
  matching : VectorMatching;
  operation : ItemType;
  series : list Labels;
  outputCache : list sample;
  highCardOutputIndex : list (option N);
  lowCardOutputIndex : list (list N);
  table : option tableT
}.

Definition NewVectorOperator (lhs : L) (rhs : R) (matching : VectorMatching)
    (operation : ItemType) : vectorOperator :=
  {| once := false; lhs := lhs; rhs := rhs; matching := matching;
     operation := operation; series := []; outputCache := [];
     highCardOutputIndex := []; lowCardOutputIndex := []; table := None |}.

Definition withChildren (l : L) (r : R) (o : vectorOperator) :=
  {| once := once o; lhs := l; rhs := r; matching := matching o;
     operation := operation o; series := series o;
     outputCache := outputCache o;
     highCardOutputIndex := highCardOutputIndex o;
     lowCardOutputIndex := lowCardOutputIndex o; table := table o |}.

Definition withOnce (o : vectorOperator) :=
  {| once := true; lhs := lhs o; rhs := rhs o; matching := matching o;
     operation := operation o; series := series o;
     outputCache := outputCache o;
     highCardOutputIndex := highCardOutputIndex o;
     lowCardOutputIndex := lowCardOutputIndex o; table := table o |}.

Definition withOutputs (s : list Labels) (hi : list (option N))
    (lo : list (list N)) (o : vectorOperator) :=
  {| once := once o; lhs := lhs o; rhs := rhs o; matching := matching o;
     operation := operation o; series := s;
     outputCache := replicate (length s) zeroSample;
     highCardOutputIndex := hi; lowCardOutputIndex := lo; table := table o |}.

Definition withTable (t : option tableT) (o : vectorOperator) :=
  {| once := once o; lhs := lhs o; rhs := rhs o; matching := matching o;
     operation := operation o; series := series o;
     outputCache := outputCache o;
     highCardOutputIndex := highCardOutputIndex o;
     lowCardOutputIndex := lowCardOutputIndex o; table := t |}.

(** Calls on the children; the child after the call replaces the child. *)
Definition lhsSeries : action vectorOperator (list Labels) := λ o,
  let '(r, l) := opSeries (lhs o) in (r, withChildren l (rhs o) o).
Definition rhsSeries : action vectorOperator (list Labels) := λ o,
  let '(r, c) := opSeries (rhs o) in (r, withChildren (lhs o) c o).
Definition lhsNext : action vectorOperator (list (StepVector float64)) := λ o,
  let '(r, l) := opNext (lhs o) in (r, withChildren l (rhs o) o).
Definition rhsNext : action vectorOperator (list (StepVector float64)) := λ o,
  let '(r, c) := opNext (rhs o) in (r, withChildren (lhs o) c o).

Definition get : action vectorOperator vectorOperator := λ o, (Ok o, o).
Definition modify (f : vectorOperator → vectorOperator)
    : action vectorOperator unit := λ o, (Ok (), f o).

(** [series[s.ID] = s.Metric] for every output of [join]. *)
Definition fillSeries (output : list model.Series) : outcome (list Labels) :=
  forEach (λ series s, assign series (N.to_nat (ID s)) (Metric s))
    output (replicate (length output) []).

Definition initOutputs : action vectorOperator unit :=
  highCardSide ← lhsSeries;
  lowCardSide ← rhsSeries;
  o ← get;
  let '(highCardSide, lowCardSide) :=
    if decide (Card (matching o) = CardOneToMany)
    then (lowCardSide, highCardSide) else (highCardSide, lowCardSide) in
  let '(highCardHashes, highCardInputMap) :=
    hashSeries HashWithoutLabels HashForLabels
      (matching o) highCardSide true in
  let '(lowCardHashes, lowCardInputMap) :=
    hashSeries HashWithoutLabels HashForLabels
      (matching o) lowCardSide false in
  '(output, highCardOutputIndex, lowCardOutputIndex) ←
    lift (join rangeKeys highCardHashes highCardInputMap
            lowCardHashes lowCardInputMap);
  series ← lift (fillSeries output);
  _ ← modify (withOutputs series highCardOutputIndex lowCardOutputIndex);
  t ← lift (newTable (Card (matching o)) (operation o)
              (replicate (length series) zeroSample)
              highCardOutputIndex lowCardOutputIndex);
  modify (withTable (Some t)).

(** [o.once.Do(func() { err = o.initOutputs(ctx) })] followed by the test of
    [err]: the function runs on the first call only, and later calls see no
    error. *)
Definition onceInitOutputs : action vectorOperator unit := λ o,
  if once o then (Ok (), o) else initOutputs (withOnce o).

Definition Series : action vectorOperator (list Labels) :=
  _ ← onceInitOutputs;
  o ← get;
  mret (series o).

(** Body of the step loop of [Next]. [lhs[i]] is the element the loop is at;
    [rhs[i]] is read without a test of [i]. The calls that return the vectors
    to the pools of the children follow it in the source (for [rhs[i]] under
    the test [i < len(rhs)]) and are not represented. *)
Definition nextStep (lhs rhs : list (StepVector float64))
    (st : list (StepVector float64) * option tableT)
    (i : nat) (vector : StepVector float64)
    : outcome (list (StepVector float64) * option tableT) :=
  let '(batch, t) := st in
  l ← index lhs i;
  r ← index rhs i;
  match t with
  | None => Panic "nil pointer dereference"
  | Some t =>
    match execBinaryOperation t l r with
    | None => Panic "execBinaryOperation"
    | Some (step, t) => Ok (batch ++ [step], Some t)
    end
  end.

Definition Next : action vectorOperator (list (StepVector float64)) :=
  lhs ← lhsNext;
  rhs ← rhsNext;
  if decide (length lhs = 0%nat ∨ length rhs = 0%nat) then mret []
  else
    _ ← onceInitOutputs;
    o ← get;
    '(batch, t) ← lift (forRange (nextStep lhs rhs) 0 lhs
                          (GetVectorBatch, table o));
    _ ← modify (withTable t);
    mret batch.

(** The binary operator is an operator itself. *)
Definition vectorOperator_operator : VectorOperator float64 vectorOperator :=
  {| opSeries := Series; opNext := Next |}.

End vectorOperator.

End binary.

(** ** Points and samples (package [promql] of Prometheus) *)

Module promql.
Section promql.
Context {float64 : Type}.

Record Point := { T : Z; V : float64 }.

(** [Point_] is the embedded [Point] of a sample. *)
Record Sample := { Point_ : Point; Metric : Labels }.

End promql.
Arguments Point : clear implicits.
Arguments Sample : clear implicits.
End promql.

(** ** The number-literal selector ([physicalplan/scan]) *)

Module scan.

(** [int64] arithmetic wraps around. *)
Definition int64 (z : Z) : Z := (z + 2 ^ 63) `mod` 2 ^ 64 - 2 ^ 63.

(** [float64(x)] for an integer [x]: the nearest value with a 53-bit
    significand, ties to even. The result is again an integer and is given
    as such. *)
Definition float64OfInt (x : Z) : Z :=
  let a := Z.abs x in
  if decide (a < 2 ^ 53) then x
  else
    let e := Z.log2 a - 52 in
    let q := a / 2 ^ e in
    let r := a `mod` 2 ^ e in
    let half := 2 ^ (e - 1) in
    let q := if decide (r < half) then q
             else if decide (half < r) then q + 1
             else if Z.even q then q else q + 1 in
    Z.sgn x * (q * 2 ^ e).

(** [int(f)] for a [float64] with an integer value; a value out of the range
    of [int] is taken to wrap around. *)
Definition intOfFloat64 (f : Z) : Z := int64 f.

Section numberLiteralSelector.
Context {float64 : Type}.

(** [FunctionCall] is declared outside the sources; it is applied to the
    labels of the series, the points of the step and the time of the step
    (in milliseconds) and gives a sample. *)
Definition FunctionCall : Type :=
  Labels → list (promql.Point float64) → Z → promql.Sample float64.

(** The vector pool is left out (see [GetVectorBatch], [GetStepVector]). *)
Record numberLiteralSelector := {
  mint : Z;
  maxt : Z;
  step : Z;
  currentStep : Z;
  stepsBatch : Z;
  series : list Labels;
  once : bool;
  val : float64;
  call : option FunctionCall
}.

(** [mint], [maxt] and [step] are given in milliseconds, as [UnixMilli] and
    [Milliseconds] return them. *)
Definition NewNumberLiteralSelector (mint maxt step : Z) (stepsBatch : Z)
    (val : float64) (call : option FunctionCall) : numberLiteralSelector :=
  {| mint := mint; maxt := maxt; step := step; currentStep := mint;
     stepsBatch := stepsBatch; series := []; once := false;
     val := val; call := call |}.

Definition loadSeries (o : numberLiteralSelector) : numberLiteralSelector :=
  if once o then o
  else
    {| mint := mint o; maxt := maxt o; step := step o;
       currentStep := currentStep o; stepsBatch := stepsBatch o;
       series := match call o with
                 | Some _ => [ [] ]   (* []labels.Labels{labels.New()} *)
                 | None => [ [] ]     (* make([]labels.Labels, 1) *)
                 end;
       once := true; val := val o; call := call o |}.

Definition Series (o : numberLiteralSelector)
    : outcome (list Labels) * numberLiteralSelector :=
  let o := loadSeries o in (Ok (series o), o).

Definition withCurrentStep (c : Z) (o : numberLiteralSelector) :=
  {| mint := mint o; maxt := maxt o; step := step o; currentStep := c;
     stepsBatch := stepsBatch o; series := series o; once := once o;
     val := val o; call := call o |}.

(** One iteration of the loop of [Next]. *)
Definition nextStep (o : numberLiteralSelector) (currStep : nat) (ts : Z)
    (vectors : list (StepVector float64))
    : outcome (list (StepVector float64)) :=
  let vectors :=
    if decide (length vectors ≤ currStep)%nat
    then vectors ++ [GetStepVector ts] else vectors in
  let result : promql.Sample float64 :=
    {| promql.Point_ := {| promql.T := ts; promql.V := val o |};
       promql.Metric := [] |} in
  result ← match call o with
           | Some f =>
             s0 ← index (series o) 0;
             Ok (f s0 [promql.Point_ result] ts)
           | None => Ok result
           end;
  v ← index vectors currStep;
  assign vectors currStep
    {| T := promql.T (promql.Point_ result);
       SampleIDs := SampleIDs v ++ [0%N];
       Samples := Samples v ++ [promql.V (promql.Point_ result)] |}.

(** The loop [for currStep := 0; currStep < numSteps && ts <= o.maxt;
    currStep++]: [remaining] is [numSteps - currStep]. *)
Fixpoint nextLoop (o : numberLiteralSelector) (remaining : nat)
    (currStep : nat) (ts : Z) (vectors : list (StepVector float64))
    : outcome (list (StepVector float64)) :=
  match remaining with
  | O => Ok vectors
  | S remaining =>
    if decide (ts ≤ maxt o) then
      vectors ← nextStep o currStep ts vectors;
      nextLoop o remaining (S currStep) (int64 (ts + step o)) vectors
    else Ok vectors
  end.

Definition totalSteps (o : numberLiteralSelector) : Z :=
  if decide (step o ≠ 0)
  then int64 (int64 (Z.quot (int64 (maxt o - mint o)) (step o)) + 1)
  else 1.

Definition numSteps (o : numberLiteralSelector) : Z :=
  intOfFloat64
    (Z.min (float64OfInt (stepsBatch o)) (float64OfInt (totalSteps o))).

Definition Next (o : numberLiteralSelector)
    : outcome (list (StepVector float64)) * numberLiteralSelector :=
  if decide (currentStep o > maxt o) then (Ok [], o)
  else
    let o := loadSeries o in
    let vectors := GetVectorBatch in
    let ts := currentStep o in
    match nextLoop o (Z.to_nat (numSteps o)) 0 ts vectors with
    | Ok vectors =>
      (Ok vectors,
       withCurrentStep
         (int64 (currentStep o + int64 (step o * numSteps o))) o)
    | Err e => (Err e, o)
    | Panic msg => (Panic msg, o)
    end.

#[global] Instance numberLiteralSelector_operator
    : VectorOperator float64 numberLiteralSelector :=
  {| opSeries := Series; opNext := Next |}.

End numberLiteralSelector.
Arguments numberLiteralSelector : clear implicits.
Arguments FunctionCall : clear implicits.

End scan.

(** ** A concrete plan for the scenarios

    Everything the operators take from outside the sources, fixed to simple
    executable stand-ins, so that the scenarios below run. *)

Module scenario.

(** Sample values: integers stand for the [float64]s. *)
Abbreviation value := Z.

(** A stand-in for the xxhash digest: a polynomial hash of the bytes, modulo
    [2^64]. *)
Fixpoint digestString (h : N) (s : string) : N :=
  match s with
  | EmptyString => h
  | String c s => digestString ((h * 31 + Ascii.N_of_ascii c) `mod` 2 ^ 64)%N s
  end.

Definition Sum64 (b : string) : N := digestString 7 b.

(** The two hashes of the label sets, as the library computes them. *)
Definition HashWithoutLabels : Labels → list string → N :=
  labels.HashWithoutLabels Sum64.

Definition HashForLabels : Labels → list string → N :=
  labels.HashForLabels Sum64.

(** Maps are visited in the order of their keys. *)
Definition rangeKeys (s : gset N) : list N := elements s.

(** Modelled from the spec: the operations of the binary operator
    ([table.go] is not among the sources); three arithmetic ones. *)
Inductive ItemType := ADD | SUB | MUL.

(** Modelled from the spec: the table of the binary operator ([table.go] is
    not among the sources): the cardinality, the operation and the two
    indexes of the join. *)
Record table := {
  card : VectorMatchCardinality;
  operation : ItemType;
  highCardinality : list (option N);
  lowCardinality : list (list N)
}.

(** Modelled from the spec: [newTable] ([table.go] is not among the sources)
    builds the table from the indexes; the specification gives it no way to
    fail. *)
Definition newTable (card : VectorMatchCardinality) (operation : ItemType)
    (outputValues : list unit) (highCardinality : list (option N))
    (lowCardinality : list (list N)) : outcome table :=
  Ok {| card := card; operation := operation;
        highCardinality := highCardinality;
        lowCardinality := lowCardinality |}.

(** Modelled from the spec: the combinator of an operation. *)
Definition combine (op : ItemType) (l r : value) : value :=
  match op with ADD => l + r | SUB => l - r | MUL => l * r end.

(** Modelled from the spec: a sample of the high cardinality vector is
    looked up in [highCardOutputIndex] and, unless absent, cached under its
    output id. *)
Definition cacheStep (t : table) (cache : gmap N value) (s : N * value)
    : option (gmap N value) :=
  out ← highCardinality t !! N.to_nat s.1;
  Some (match out with Some k => <[k := s.2]> cache | None => cache end).

(** Modelled from the spec: a sample of the low cardinality vector is
    combined with the cached value at each output id of
    [lowCardOutputIndex]. *)
Definition emitStep (t : table) (swap : bool) (cache : gmap N value)
    (acc : list (N * value)) (s : N * value) : option (list (N * value)) :=
  outs ← lowCardinality t !! N.to_nat s.1;
  Some (acc ++ omap (λ k, hv ← cache !! k;
                      Some (k, if swap then combine (operation t) s.2 hv
                               else combine (operation t) hv s.2)) outs).

Fixpoint foldOpt {A B} (f : B → A → option B) (l : list A) (b : B)
    : option B :=
  match l with
  | [] => Some b
  | a :: l => b ← f b a; foldOpt f l b
  end.

(** Modelled from the spec: [execBinaryOperation] ([table.go] is not among
    the sources). The timestamps of the two step vectors must match: when
    they do not, the call aborts ([None]; it has no error to return). Per
    step, the samples of the high cardinality vector are cached under their
    output id, and each sample of the low cardinality vector is combined with
    the cached value at each of its output ids. *)
Definition execBinaryOperation (t : table) (l r : StepVector value)
    : option (StepVector value * table) :=
  if decide (T l = T r) then
    let swap := bool_decide (card t = CardOneToMany) in
    let '(high, low) := if swap then (r, l) else (l, r) in
    cache ← foldOpt (cacheStep t) (zip (SampleIDs high) (Samples high)) ∅;
    out ← foldOpt (emitStep t swap cache)
            (zip (SampleIDs low) (Samples low)) [];
    Some ({| T := T l; SampleIDs := out.*1; Samples := out.*2 |}, t)
  else None.

(** An operator that replays recorded results: it stands for any child of
    the binary operator (a selector over a storage, say). After the last
    recorded batch it is at the end of its stream. *)
Record replay := {
  labelsOf : outcome (list Labels);
  batches : list (outcome (list (StepVector value)))
}.

#[global] Instance replay_operator : VectorOperator value replay :=
  {| opSeries := λ o, (labelsOf o, o);
     opNext := λ o,
       match batches o with
       | [] => (Ok [], o)
       | b :: rest => (b, {| labelsOf := labelsOf o; batches := rest |})
       end |}.

(** The binary operator over two children, with the stand-ins above. *)
Definition vectorOperator (L R : Type) : Type :=
  @binary.vectorOperator unit table ItemType L R.

Definition initOutputs {L R} `{!VectorOperator value L, !VectorOperator value R}
    : action (vectorOperator L R) unit :=
  binary.initOutputs HashWithoutLabels HashForLabels rangeKeys tt newTable.

Definition Series {L R} `{!VectorOperator value L, !VectorOperator value R}
    : action (vectorOperator L R) (list Labels) :=
  binary.Series HashWithoutLabels HashForLabels rangeKeys tt newTable.

Definition Next {L R} `{!VectorOperator value L, !VectorOperator value R}
    : action (vectorOperator L R) (list (StepVector value)) :=
  binary.Next HashWithoutLabels HashForLabels rangeKeys tt newTable
    execBinaryOperation.

#[global] Instance vectorOperator_operator {L R}
    `{!VectorOperator value L, !VectorOperator value R}
    : VectorOperator value (vectorOperator L R) :=
  {| opSeries := Series; opNext := Next |}.

Definition label (n v : string) : Label := {| Name := n; Value := v |}.

Definition stepVector (t : Z) (ids : list N) (vs : list value)
    : StepVector value :=
  {| T := t; SampleIDs := ids; Samples := vs |}.

(** Series and matchings of the scenarios. *)
Definition up1 : Labels :=
  [label "__name__" "up"; label "instance" "x"; label "job" "a"].
Definition up2 : Labels :=
  [label "__name__" "up"; label "instance" "y"; label "job" "a"].
Definition down1 : Labels := [label "__name__" "down"; label "job" "a"].
Definition downB : Labels := [label "__name__" "down"; label "job" "b"].
Definition info : Labels :=
  [label "__name__" "info"; label "job" "a"; label "region" "eu"].

(** [on(job)], [ignoring(instance)] and [on(job) group_left(region)]. *)
Definition onJob : VectorMatching :=
  {| Card := CardOneToOne; MatchingLabels := ["job"%string]; On := true;
     Include := [] |}.
Definition ignoringInstance : VectorMatching :=
  {| Card := CardOneToOne; MatchingLabels := ["instance"%string];
     On := false; Include := [] |}.
Definition groupLeft : VectorMatching :=
  {| Card := CardManyToOne; MatchingLabels := ["job"%string]; On := true;
     Include := ["region"%string] |}.

(** [lhs + rhs] over two replayed children. *)
Definition plan (lhsSeries rhsSeries : list Labels)
    (matching : VectorMatching)
    (lhsBatches rhsBatches : list (outcome (list (StepVector value))))
    : vectorOperator replay replay :=
  binary.NewVectorOperator
    {| labelsOf := Ok lhsSeries; batches := lhsBatches |}
    {| labelsOf := Ok rhsSeries; batches := rhsBatches |}
    matching ADD.

(** The number literal [7] in an instant query at [t = 1000], and in a range
    query over [0, 5000] with step [1000] and batches of four steps. *)
Definition instant : scan.numberLiteralSelector value :=
  scan.NewNumberLiteralSelector 1000 1000 0 10 7 None.
Definition ranged : scan.numberLiteralSelector value :=
  scan.NewNumberLiteralSelector 0 5000 1000 4 7 None.

(** A number literal over an empty range of time, and the sum of two. *)
Definition past : scan.numberLiteralSelector value :=
  scan.NewNumberLiteralSelector 10 0 1 10 7 None.
Definition literals
    : vectorOperator (scan.numberLiteralSelector value)
        (scan.numberLiteralSelector value) :=
  binary.NewVectorOperator past past onJob ADD.

(** [on()] and [on(job) group_right(region)]. *)
Definition onNothing : VectorMatching :=
  {| Card := CardOneToOne; MatchingLabels := []; On := true; Include := [] |}.
Definition groupRight : VectorMatching :=
  {| Card := CardOneToMany; MatchingLabels := ["job"%string]; On := true;
     Include := ["region"%string] |}.

(** The range query [ranged] with batches of no step. *)
Definition noRoom : scan.numberLiteralSelector value :=
  scan.NewNumberLiteralSelector 0 5000 1000 0 7 None.

(** The plan [up + on(job) down] after its initialization, with one batch of
    two steps on the left, and one of two or of one step on the right. *)
Definition lhsBatch : list (StepVector value) :=
  [stepVector 1000 [0%N] [10]; stepVector 2000 [0%N] [11]].
Definition rhsBatch : list (StepVector value) :=
  [stepVector 1000 [0%N] [5]; stepVector 2000 [0%N] [6]].
Definition initialized (rhs : list (StepVector value))
    : vectorOperator replay replay :=
  (scenario.Series (plan [up1] [down1] onJob [Ok lhsBatch] [Ok rhs])).2.

(** [on(job, instance)], [on(instance, job)], and a series [down] with the
    job and the instance of [up1]. *)
Definition onJobInstance : VectorMatching :=
  {| Card := CardOneToOne; MatchingLabels := ["job"%string; "instance"%string];
     On := true; Include := [] |}.
Definition onInstanceJob : VectorMatching :=
  {| Card := CardOneToOne; MatchingLabels := ["instance"%string; "job"%string];
     On := true; Include := [] |}.
Definition downX : Labels :=
  [label "__name__" "down"; label "instance" "x"; label "job" "a"].

(** A second order in which maps are gone through: that of the keys,
    backwards. *)
Definition rangeKeysBackwards (s : gset N) : list N := reverse (elements s).

(** Two more series, of the job [b]. *)
Definition upB : Labels :=
  [label "__name__" "up"; label "instance" "z"; label "job" "b"].
Definition infoB : Labels :=
  [label "__name__" "info"; label "job" "b"; label "region" "us"].

(** The plan [up + on(job) down] with a left child that cannot list its
    series. *)
Definition failing : vectorOperator replay replay :=
  binary.NewVectorOperator
    {| labelsOf := Err "storage"; batches := [] |}
    {| labelsOf := Ok [down1]; batches := [] |} onJob ADD.

End scenario.

(** ** Notions used to state the properties *)

Section notions.
Context (HashWithoutLabels HashForLabels : Labels → list string → N).
Context (matching : VectorMatching).

(** The join signature of a series and the labels [signature] retains. *)
Definition joinKey (s : Labels) : N :=
  (binary.signature HashWithoutLabels HashForLabels s
     (negb (On matching)) (MatchingLabels matching) true).1.

Definition retained (keepLabels : bool) (s : Labels) : Labels :=
  (binary.signature HashWithoutLabels HashForLabels s
     (negb (On matching)) (MatchingLabels matching) keepLabels).2.

(** The series of one side that have signature [k], with their positions. *)
Definition members (series : list Labels) (k : N) : list (nat * Labels) :=
  filter (λ p, joinKey p.2 = k) (imap pair series).

Definition seriesOf (keepLabels : bool) (p : nat * Labels) : model.Series :=
  {| ID := N.of_nat p.1; Metric := retained keepLabels p.2 |}.

Definition bucketOf {A B} (f : A → B) (ms : list A) : option (list B) :=
  match ms with
  | [] => None
  | _ => Some (f <$> ms)
  end.

End notions.

(** The number of series in all buckets. *)
Definition bucketTotal (hashes : gmap N (list model.Series)) : nat :=
  sum_list_with (λ e, length e.2) (map_to_list hashes).

(** The outputs [join] emits for the high cardinality series [done], in the
    order of emission. *)
Definition emitted (done : list model.Series) : list model.Series :=
  imap (λ j s, {| ID := N.of_nat j; Metric := Metric s |}) done.

(** What holds of the three results of [join] once the high cardinality
    series [done] have been given their outputs; [n] is the number of high
    cardinality series. *)
Definition joinInv (n : nat) (done : list model.Series)
    (st : list model.Series * list (option N) * list (list N)) : Prop :=
  let '(out, hi, lo) := st in
  out = emitted done
  ∧ length hi = n ∧ length lo = n
  ∧ (∀ i k, hi !! i = Some (Some k) →
       ∃ s, done !! N.to_nat k = Some s ∧ N.to_nat (ID s) = i)
  ∧ (∀ s, s ∈ done → ∃ k, hi !! N.to_nat (ID s) = Some (Some k))
  ∧ (∀ j l x, lo !! j = Some l → x ∈ l → (N.to_nat x < length done)%nat).

(** The high and the low cardinality side among the series of the two
    children: the left child is the high cardinality side unless the matching
    is one-to-many. *)
Definition highCardSide (card : VectorMatchCardinality)
    (lhsSeries rhsSeries : list Labels) : list Labels :=
  if decide (card = CardOneToMany) then rhsSeries else lhsSeries.

Definition lowCardSide (card : VectorMatchCardinality)
    (lhsSeries rhsSeries : list Labels) : list Labels :=
  if decide (card = CardOneToMany) then lhsSeries else rhsSeries.

(** The output labels as the specification words them: the labels of the
    high cardinality series without the metric name; for [ignoring(L)]
    without the names in [L], for [on(L)] only the names in [L]; for
    [group_left] and [group_right] with the listed labels of the low
    cardinality series in addition. *)
Definition specOutputLabels (matching : VectorMatching) (high low : Labels)
    : Labels :=
  let kept := filter (λ l, Name l ≠ MetricName) high in
  let kept :=
    if On matching
    then filter (λ l, Name l ∈ MatchingLabels matching) kept
    else filter (λ l, Name l ∉ MatchingLabels matching) kept in
  match Card matching with
  | CardManyToOne | CardOneToMany =>
    kept ++ filter (λ l, Name l ∈ Include matching) low
  | _ => kept
  end.

(** The names [NewBuilder] marks for deletion: those of the labels with an
    empty value. *)
Definition emptyNames (m : Labels) : list string :=
  Name <$> filter (λ l, Value l = ""%string) m.

(** The id of the low cardinality series a bucket is joined with: the first
    of the bucket of the same key. *)
Definition lowCardSeriesID (lowCardInputIndex : gmap N (list N)) (k : N)
    : option N :=
  head (default [] (lowCardInputIndex !! k)).

(** A bucket [join] can go through: its ids are those of the index map and
    lie below [n], and the low cardinality side has a series for it. *)
Definition bucketOk (n : nat) (highCardInputIndex lowCardInputIndex
    : gmap N (list N)) (e : N * list model.Series) : Prop :=
  highCardInputIndex !! e.1 = Some (ID <$> e.2)
  ∧ (∀ s, s ∈ e.2 → (N.to_nat (ID s) < n)%nat)
  ∧ is_Some (lowCardSeriesID lowCardInputIndex e.1).

(** The operator after [n] calls of [Next]. *)
Definition after {float64 O : Type} `{!VectorOperator float64 O}
    (n : nat) (o : O) : O :=
  Nat.iter n (λ o, (opNext o).2) o.

Section selector_notions.
Context {float64 : Type}.

(** The sample of the number-literal selector at a step: the value, or what
    the function call makes of it (the labels of the one series of the
    selector are empty). *)
Definition stepSample (o : scan.numberLiteralSelector float64) (ts : Z)
    : promql.Sample float64 :=
  let point := {| promql.T := ts; promql.V := scan.val o |} in
  match scan.call o with
  | Some f => f [] [point] ts
  | None => {| promql.Point_ := point; promql.Metric := [] |}
  end.

(** The step vector of the selector at a step: one sample, of series 0. *)
Definition stepVectorAt (o : scan.numberLiteralSelector float64) (ts : Z)
    : StepVector float64 :=
  {| T := promql.T (promql.Point_ (stepSample o ts));
     SampleIDs := [0%N];
     Samples := [promql.V (promql.Point_ (stepSample o ts))] |}.

(** The timestamps the loop of [Next] goes through. *)
Fixpoint visited (o : scan.numberLiteralSelector float64) (remaining : nat)
    (ts : Z) : list Z :=
  match remaining with
  | O => []
  | S remaining =>
    if decide (ts ≤ scan.maxt o)
    then ts :: visited o remaining (scan.int64 (ts + scan.step o))
    else []
  end.

(** The step vectors of the first [calls] calls of [Next], up to the first
    call that returns no step vector. *)
Fixpoint drain (calls : nat) (o : scan.numberLiteralSelector float64)
    : list (StepVector float64) :=
  match calls with
  | O => []
  | S calls =>
    match scan.Next o with
    | (Ok (v :: vs), o') => v :: vs ++ drain calls o'
    | _ => []
    end
  end.

End selector_notions.

(** The timestamps [mint + k * step] for [0 <= k <= (maxt - mint) / step]. *)
Definition progression (mint maxt step : Z) : list Z :=
  (λ k, mint + k * step) <$> seqZ 0 ((maxt - mint) `div` step + 1).

(** An operator keeps to the end of its stream: once [Next] has returned an
    empty batch and no error, it does so on every later call. *)
Definition endsForGood {float64 : Type} (O : Type)
    `{!VectorOperator float64 O} : Prop :=
  ∀ o : O, (opNext o).1 = Ok [] →
           ∀ n, (opNext (after n (opNext o).2)).1 = Ok [].

(** The names [HashWithoutLabels] goes through in [signature]: the matching
    labels in ascending order, followed by the metric name. *)
Definition dropNames (names : list string) : Prop :=
  names = [] ∨ ∃ Ls, names = Ls ++ [MetricName] ∧ StronglySorted String.le Ls.

(** An operator as it is keeps to the end of its stream: when its next call
    of [Next] returns an empty batch and no error, every later call does. *)
Definition keepsToEnd {float64 O : Type} `{!VectorOperator float64 O}
    (o : O) : Prop :=
  (opNext o).1 = Ok [] → ∀ n, (opNext (after n (opNext o).2)).1 = Ok [].

(** ** Notions used by the further properties *)

(** A selector as its methods leave it: [loadSeries] has not run yet, or it
    has stored the one label set of the selector. *)
Definition loaded {float64} (o : scan.numberLiteralSelector float64) : Prop :=
  scan.once o = false ∨ scan.series o = [[]].

(** The series of a list of buckets in the order [join] goes through them,
    each with the key of its bucket. *)
Definition tagged (bs : list (N * list model.Series))
    : list (N * model.Series) :=
  mjoin ((λ e, (e.1,.) <$> e.2) <$> bs).

(** What holds of the two indexes of [join] once the series [tg] have been
    given their outputs: the entry of a high cardinality series is its
    output, and the entry of a low cardinality series lists the outputs of
    the buckets it is the partner of ([lidOf] gives the partner of a key). *)
Definition joinIndexInv (lidOf : N → option N)
    (tg : list (N * model.Series))
    (st : list model.Series * list (option N) * list (list N)) : Prop :=
  let '(out, hi, lo) := st in
  length out = length tg
  ∧ (∀ k p, tg !! k = Some p →
       hi !! N.to_nat (ID p.2) = Some (Some (N.of_nat k)))
  ∧ (∀ j l, lo !! j = Some l →
       NoDup l
       ∧ ∀ x, x ∈ l ↔ ∃ p, tg !! N.to_nat x = Some p
                           ∧ lidOf p.1 = Some (N.of_nat j)).

Section partner.
Context (HashWithoutLabels HashForLabels : Labels → list string → N).
Context (matching : VectorMatching).

(** The low cardinality series that [join] takes as the partner of a high
    cardinality series [m]: the first one that has the signature of [m]. *)
Definition firstPartner (low : list Labels) (m : Labels) (j : nat) : Prop :=
  (∃ m', low !! j = Some m'
         ∧ joinKey HashWithoutLabels HashForLabels matching m'
           = joinKey HashWithoutLabels HashForLabels matching m)
  ∧ ∀ j' m'', (j' < j)%nat → low !! j' = Some m'' →
      joinKey HashWithoutLabels HashForLabels matching m''
      ≠ joinKey HashWithoutLabels HashForLabels matching m.

End partner.

Section steps.
Context {float64 tableT : Type}.
Context (execBinaryOperation :
  tableT → StepVector float64 → StepVector float64 →
  option (StepVector float64 * tableT)).

(** The steps of a batch: the operation on the step vectors at the same
    position of the two batches, one position after the other, with the
    table handed on; [None] when the operation panics. *)
Fixpoint execSteps (t : tableT)
    (pairs : list (StepVector float64 * StepVector float64))
    : option (list (StepVector float64) * tableT) :=
  match pairs with
  | [] => Some ([], t)
  | (l, r) :: pairs =>
    '(step, t) ← execBinaryOperation t l r;
    '(steps, t) ← execSteps t pairs;
    Some (step :: steps, t)
  end.

End steps.

Section outputs.
Context {sample tableT ItemType L R : Type}.

(** The labels of the output of the high cardinality series [i], when it has
    an output. *)
Definition outputLabels
    (o : @binary.vectorOperator sample tableT ItemType L R) (i : nat)
    : option Labels :=
  x ← mjoin (binary.highCardOutputIndex o !! i);
  binary.series o !! N.to_nat x.

(** The output of the high cardinality series [i] is listed in the entry of
    the low cardinality series [j]. *)
Definition listedUnder
    (o : @binary.vectorOperator sample tableT ItemType L R) (i j : nat)
    : Prop :=
  ∃ x l, binary.highCardOutputIndex o !! i = Some (Some x)
         ∧ binary.lowCardOutputIndex o !! j = Some l ∧ x ∈ l.

End outputs.

(** * Properties *)

(** ** Repeated calls *)

Lemma after_S {float64 O} `{!VectorOperator float64 O} n (o : O) :
  after (S n) o = (opNext (after n o)).2.
Proof. done. Qed.

Lemma after_S_r {float64 O} `{!VectorOperator float64 O} n (o : O) :
  after (S n) o = after n (opNext o).2.
Proof. unfold after. by rewrite Nat.iter_succ_r. Qed.

(** ** Slices and loops *)

Lemma index_Some {A} (l : list A) i a : l !! i = Some a → index l i = Ok a.
Proof. unfold index. by intros ->. Qed.

Lemma index_None {A} (l : list A) i :
  (length l ≤ i)%nat → index l i = Panic "index out of range".
Proof. unfold index. intros H. by rewrite lookup_ge_None_2. Qed.

Lemma assign_lt {A} (l : list A) i a :
  (i < length l)%nat → assign l i a = Ok (<[i := a]> l).
Proof. unfold assign. intros H. by rewrite decide_True. Qed.

Lemma assign_ge {A} (l : list A) i a :
  (length l ≤ i)%nat → assign l i a = Panic "index out of range".
Proof. unfold assign. intros H. rewrite decide_False; [done|lia]. Qed.

Section loops.
Context {A St : Type}.

Lemma foldIndexed_snoc (body : St → nat → A → St) i l x s :
  binary.foldIndexed body i (l ++ [x]) s
  = body (binary.foldIndexed body i l s) (i + length l)%nat x.
Proof.
  revert i s. induction l as [|a l IH]; intros i s; simpl.
  - by rewrite Nat.add_0_r.
  - rewrite IH. f_equal. lia.
Qed.

End loops.

(** ** The labels a builder returns *)

Lemma elem_of_BuilderLabels b l :
  l ∈ BuilderLabels b ↔ l ∈ base b ∧ Name l ∉ del b.
Proof.
  unfold BuilderLabels. destruct (del b) as [|n ns] eqn:E.
  - split; [|by intros []]. intros H. split; [done|].
    apply not_elem_of_nil.
  - rewrite list_elem_of_filter. tauto.
Qed.

Lemma elem_of_Keep_del ns b l :
  l ∈ base b →
  (Name l ∉ del (Keep ns b)) ↔ (Name l ∉ del b) ∧ Name l ∈ ns.
Proof.
  intros Hl. unfold Keep. simpl. rewrite not_elem_of_app. split.
  - intros [H1 H2]. split; [done|].
    destruct (decide (Name l ∈ ns)) as [|Hn]; [done|].
    destruct H2. apply list_elem_of_fmap. exists l. split; [done|].
    by apply list_elem_of_filter.
  - intros [H1 H2]. split; [done|].
    intros (l' & Hn & [Hns _]%list_elem_of_filter)%list_elem_of_fmap.
    by rewrite Hn in H2.
Qed.

(** ** [signature] and [hashSeries] *)

Section hashSeries_facts.
Context (HashWithoutLabels HashForLabels : Labels → list string → N).
Context (matching : VectorMatching).

Local Abbreviation signature :=
  (binary.signature HashWithoutLabels HashForLabels).
Local Abbreviation hashSeries :=
  (binary.hashSeries HashWithoutLabels HashForLabels).
Local Abbreviation key := (joinKey HashWithoutLabels HashForLabels matching).
Local Abbreviation kept :=
  (retained HashWithoutLabels HashForLabels matching).
Local Abbreviation membersOf :=
  (members HashWithoutLabels HashForLabels matching).
Local Abbreviation mkSeries :=
  (seriesOf HashWithoutLabels HashForLabels matching).

(** Both sides of the operator compute the same key for a label set. *)
Lemma signature_key metric without grouping keepLabels :
  (signature metric without grouping keepLabels).1
  = if without then HashWithoutLabels metric (grouping ++ [MetricName])
    else if decide (length grouping = 0%nat) then 0%N
    else HashForLabels metric grouping.
Proof.
  unfold binary.signature. destruct without; simpl; [done|].
  by destruct (decide _).
Qed.

Lemma signature_eta s keepLabels :
  signature s (negb (On matching)) (MatchingLabels matching) keepLabels
  = (key s, kept keepLabels s).
Proof.
  unfold joinKey, retained.
  rewrite (surjective_pairing (signature _ _ _ keepLabels)). f_equal.
  by rewrite !signature_key.
Qed.

Lemma retained_unfold keepLabels s :
  kept keepLabels s
  = BuilderLabels
      (let lb := Del [MetricName] (NewBuilder s) in
       if On matching
       then (if keepLabels then Keep (MatchingLabels matching) lb else lb)
       else (if keepLabels then lb
             else Del (MatchingLabels matching ++ [MetricName]) lb)).
Proof.
  unfold retained, binary.signature.
  destruct (On matching), keepLabels; simpl; try done;
    by destruct (decide _).
Qed.

Lemma elem_of_Del_NewBuilder s l :
  (Name l ∉ del (Del [MetricName] (NewBuilder s)))
  ↔ Name l ≠ MetricName ∧ Name l ∉ emptyNames s.
Proof.
  unfold Del, NewBuilder, emptyNames. simpl.
  rewrite not_elem_of_app, list_elem_of_singleton. tauto.
Qed.

(** The labels retained for the high cardinality side ([keepLabels] set):
    the metric name and the labels with an empty value are dropped; with
    [on], only the listed names stay; with [ignoring], the listed names are
    not dropped. *)
Lemma elem_of_retained_high s l :
  l ∈ kept true s
  ↔ l ∈ s ∧ Name l ≠ MetricName ∧ (Name l ∉ emptyNames s)
    ∧ (On matching = true → Name l ∈ MatchingLabels matching).
Proof.
  rewrite retained_unfold, elem_of_BuilderLabels. cbn zeta.
  destruct (On matching).
  - split.
    + intros [Hl Hd].
      apply (elem_of_Keep_del (MatchingLabels matching)
               (Del [MetricName] (NewBuilder s)) l Hl) in Hd as [Hd Hn].
      apply elem_of_Del_NewBuilder in Hd as [Hd1 Hd2]. done.
    + intros (Hl & Hn & He & Hon). split; [done|].
      apply (elem_of_Keep_del (MatchingLabels matching)
               (Del [MetricName] (NewBuilder s)) l Hl).
      split; [by apply elem_of_Del_NewBuilder|auto].
  - rewrite elem_of_Del_NewBuilder. simpl. intuition congruence.
Qed.

(** The labels retained for the low cardinality side: with [ignoring], the
    listed names are dropped as well; with [on], nothing but the metric name
    and the labels with an empty value is dropped. *)
Lemma elem_of_retained_low s l :
  l ∈ kept false s
  ↔ l ∈ s ∧ Name l ≠ MetricName ∧ (Name l ∉ emptyNames s)
    ∧ (On matching = false → Name l ∉ MatchingLabels matching).
Proof.
  rewrite retained_unfold, elem_of_BuilderLabels. cbn zeta.
  destruct (On matching).
  - rewrite elem_of_Del_NewBuilder. simpl. intuition congruence.
  - change (del (Del ?ns ?b)) with (del b ++ ns).
    rewrite not_elem_of_app, elem_of_Del_NewBuilder, not_elem_of_app.
    rewrite list_elem_of_singleton. simpl. intuition congruence.
Qed.

Lemma members_snoc series s k :
  membersOf (series ++ [s]) k
  = membersOf series k
    ++ (if decide (key s = k) then [(length series, s)] else []).
Proof.
  unfold members. rewrite imap_app, filter_app. f_equal.
  simpl. rewrite Nat.add_0_r. unfold filter. simpl.
  by repeat case_decide.
Qed.

Lemma elem_of_members series k p :
  p ∈ membersOf series k ↔ series !! p.1 = Some p.2 ∧ key p.2 = k.
Proof.
  unfold members. rewrite list_elem_of_filter, elem_of_lookup_imap.
  split.
  - intros [Hk (i & x & -> & Hi)]. done.
  - intros [Hl Hk]. split; [done|]. exists p.1, p.2. by destruct p.
Qed.

Lemma hashSeries_lookup series keepLabels k :
  (hashSeries matching series keepLabels).1 !! k
    = bucketOf (mkSeries keepLabels) (membersOf series k)
  ∧ (hashSeries matching series keepLabels).2 !! k
    = bucketOf (λ p, N.of_nat p.1) (membersOf series k).
Proof.
  unfold binary.hashSeries. revert k.
  induction series as [|s series IH] using rev_ind; intros k.
  { simpl. by rewrite !lookup_empty. }
  rewrite foldIndexed_snoc, members_snoc. simpl.
  destruct (binary.foldIndexed _ 0 series _) as [hashes inputIndex] eqn:E.
  unfold binary.hashSeriesStep. rewrite signature_eta.
  pose proof (IH (key s)) as [IHh IHi]. simpl in IHh, IHi.
  replace (let '(hashes0, inputIndex0) :=
             match hashes !! key s with
             | Some _ => (hashes, inputIndex)
             | None => (<[key s := []]> hashes,
                        <[key s := []]> inputIndex)
             end in _)
    with (<[key s := default [] (hashes !! key s)
              ++ [mkSeries keepLabels (length series, s)]]> hashes,
          <[key s := default [] (inputIndex !! key s)
              ++ [N.of_nat (length series)]]> inputIndex).
  2:{ destruct (hashes !! key s) eqn:Eh.
      - by rewrite Eh.
      - rewrite !lookup_insert_eq, !insert_insert_eq.
        assert (inputIndex !! key s = None) as ->; [|done].
        rewrite IHi. rewrite IHh in Eh.
        by destruct (membersOf series (key s)). }
  simpl. destruct (decide (key s = k)) as [<-|Hne].
  - rewrite !lookup_insert_eq, IHh, IHi.
    destruct (membersOf series (key s)) as [|p ms]; simpl; [done|].
    by rewrite !fmap_app.
  - rewrite !lookup_insert_ne, app_nil_r by done. apply (IH k).
Qed.

Lemma bucketOf_Some {A B} (f : A → B) ms l :
  bucketOf f ms = Some l ↔ ms ≠ [] ∧ l = f <$> ms.
Proof.
  destruct ms; simpl; [intuition congruence|].
  split; [intros [= <-]|intros [_ ->]]; done.
Qed.

Lemma bucketOf_None {A B} (f : A → B) ms :
  bucketOf f ms = None ↔ ms = [].
Proof. by destruct ms. Qed.

(** A key has a bucket exactly when some series has it as signature. *)
Lemma hashSeries_lookup_None series keepLabels k :
  (hashSeries matching series keepLabels).1 !! k = None
  ↔ ∀ s, s ∈ series → key s ≠ k.
Proof.
  rewrite (proj1 (hashSeries_lookup _ _ _)), bucketOf_None. split.
  - intros Hm s [i Hi]%list_elem_of_lookup Hk.
    assert ((i, s) ∈ membersOf series k) as Hin
      by by apply elem_of_members.
    rewrite Hm in Hin. by apply not_elem_of_nil in Hin.
  - intros Hs. destruct (membersOf series k) as [|p ms] eqn:E; [done|].
    assert (p ∈ membersOf series k) as [Hp Hk]%elem_of_members
      by (rewrite E; left).
    destruct (Hs p.2); [|done]. by eapply list_elem_of_lookup_2.
Qed.

Lemma hashSeries_lookup_is_Some series keepLabels k :
  is_Some ((hashSeries matching series keepLabels).1 !! k) →
  ∃ m, m ∈ series ∧ key m = k.
Proof.
  rewrite (proj1 (hashSeries_lookup _ _ _)). intros [ss Hss].
  apply bucketOf_Some in Hss as [Hne _].
  destruct (membersOf series k) as [|p ms] eqn:E; [done|].
  assert (p ∈ membersOf series k) as [Hp Hk]%elem_of_members
    by (rewrite E; left).
  exists p.2. split; [|done]. by eapply list_elem_of_lookup_2.
Qed.

(** The two maps of [hashSeries] have the same buckets: the index map gives
    the ids of the series in the bucket. *)
Lemma hashSeries_inputIndex series keepLabels k ss :
  (hashSeries matching series keepLabels).1 !! k = Some ss →
  (hashSeries matching series keepLabels).2 !! k = Some (ID <$> ss).
Proof.
  destruct (hashSeries_lookup series keepLabels k) as [-> ->].
  intros [Hne ->]%bucketOf_Some. apply bucketOf_Some. split; [done|].
  rewrite <- list_fmap_compose. done.
Qed.

Lemma hashSeries_bucket series keepLabels k ss j s :
  (hashSeries matching series keepLabels).1 !! k = Some ss →
  ss !! j = Some s →
  ∃ i m, series !! i = Some m ∧ key m = k ∧ s = mkSeries keepLabels (i, m).
Proof.
  rewrite (proj1 (hashSeries_lookup _ _ _)).
  intros [Hne ->]%bucketOf_Some. rewrite list_lookup_fmap.
  intros [[i m] [Hp ->]]%fmap_Some.
  apply list_elem_of_lookup_2, elem_of_members in Hp as [Hi Hk].
  by exists i, m.
Qed.

Lemma hashSeries_member series keepLabels i m :
  series !! i = Some m →
  ∃ ss, (hashSeries matching series keepLabels).1 !! key m = Some ss
        ∧ mkSeries keepLabels (i, m) ∈ ss.
Proof.
  intros Hi. rewrite (proj1 (hashSeries_lookup _ _ _)).
  assert ((i, m) ∈ membersOf series (key m)) as Hin
    by by apply elem_of_members.
  exists (mkSeries keepLabels <$> membersOf series (key m)). split.
  - apply bucketOf_Some. split; [|done]. intros E. rewrite E in Hin.
    by apply not_elem_of_nil in Hin.
  - by apply list_elem_of_fmap_2.
Qed.

(** The series of the first id of a bucket of the index map. *)
Lemma hashSeries_first_id series keepLabels k id ids :
  (hashSeries matching series keepLabels).2 !! k = Some (id :: ids) →
  ∃ m, series !! N.to_nat id = Some m ∧ key m = k.
Proof.
  rewrite (proj2 (hashSeries_lookup _ _ _)).
  intros [Hne E]%bucketOf_Some.
  destruct (membersOf series k) as [|[i m] ms] eqn:Em; [done|].
  simpl in E. injection E as -> _.
  assert ((i, m) ∈ membersOf series k) as [Hi Hk]%elem_of_members
    by (rewrite Em; left).
  exists m. by rewrite Nat2N.id.
Qed.

Lemma bucketTotal_insert hashes k v :
  bucketTotal (<[k := v]> hashes)
  = (length v + bucketTotal (delete k hashes))%nat.
Proof.
  unfold bucketTotal. rewrite <- insert_delete_eq.
  rewrite map_to_list_insert by apply lookup_delete_eq. done.
Qed.

Lemma bucketTotal_lookup hashes k v :
  hashes !! k = Some v →
  bucketTotal hashes = (length v + bucketTotal (delete k hashes))%nat.
Proof.
  intros Hk. rewrite <- (insert_id hashes k v) at 1 by done.
  apply bucketTotal_insert.
Qed.

Lemma hashSeries_snoc series s keepLabels :
  (hashSeries matching (series ++ [s]) keepLabels).1
  = <[key s := default []
        ((hashSeries matching series keepLabels).1 !! key s)
        ++ [mkSeries keepLabels (length series, s)]]>
      (hashSeries matching series keepLabels).1.
Proof.
  apply map_eq. intros k.
  rewrite (proj1 (hashSeries_lookup _ _ _)), members_snoc.
  destruct (decide (key s = k)) as [<-|Hne].
  - rewrite lookup_insert_eq, (proj1 (hashSeries_lookup _ _ _)).
    destruct (membersOf series (key s)); simpl; [done|].
    by rewrite fmap_app.
  - rewrite lookup_insert_ne, app_nil_r by done.
    by rewrite (proj1 (hashSeries_lookup _ _ _)).
Qed.

Lemma hashSeries_total series keepLabels :
  bucketTotal (hashSeries matching series keepLabels).1 = length series.
Proof.
  induction series as [|s series IH] using rev_ind; [done|].
  rewrite hashSeries_snoc, bucketTotal_insert, length_app, length_app.
  simpl. rewrite <- IH.
  destruct ((hashSeries matching series keepLabels).1 !! key s) eqn:E.
  - rewrite (bucketTotal_lookup _ _ _ E). simpl. lia.
  - rewrite delete_id by done. simpl. lia.
Qed.

End hashSeries_facts.

(** ** [join] *)

Section join_facts.
Context (rangeKeys : gset N → list N).
Hypothesis rangeKeys_perm : ∀ s, rangeKeys s ≡ₚ elements s.

Lemma rangeMap_perm {V} (m : gmap N V) :
  binary.rangeMap rangeKeys m ≡ₚ map_to_list m.
Proof.
  unfold binary.rangeMap. rewrite rangeKeys_perm.
  assert (elements (dom m) ≡ₚ (map_to_list m).*1) as ->.
  { rewrite dom_alt. apply elements_list_to_set, NoDup_fst_map_to_list. }
  assert (∀ l : list (N * V), (∀ k v, (k, v) ∈ l → m !! k = Some v) →
          omap (λ k, (k,.) <$> m !! k) l.*1 = l) as Hl.
  { induction l as [|[k v] l IH]; intros Hm; simpl; [done|].
    rewrite (Hm k v) by left. simpl. f_equal. apply IH.
    intros k' v' Hin. apply Hm. by right. }
  rewrite Hl; [done|]. intros k v. apply elem_of_map_to_list.
Qed.

Lemma elem_of_rangeMap {V} (m : gmap N V) k v :
  (k, v) ∈ binary.rangeMap rangeKeys m ↔ m !! k = Some v.
Proof. rewrite rangeMap_perm. apply elem_of_map_to_list. Qed.

(** The first loop of [join]: it counts all series of the buckets and keeps
    the buckets with a key of the low cardinality side. *)
Lemma pruneStep_fold lowCardHashes l n0 (m : gmap N (list model.Series)) :
  (foldl (binary.pruneStep lowCardHashes) (n0, m) l).1
    = (n0 + sum_list_with (λ e, length e.2) l)%nat
  ∧ ∀ k, (foldl (binary.pruneStep lowCardHashes) (n0, m) l).2 !! k
         = if decide (k ∈ l.*1 ∧ lowCardHashes !! k = None)
           then None else m !! k.
Proof.
  revert n0 m. induction l as [|[h ss] l IH]; intros n0 m.
  { split; [simpl; lia|]. intros k. destruct (decide _) as [[H _]|]; [|done].
    by apply not_elem_of_nil in H. }
  cbn [foldl binary.pruneStep]. rewrite fmap_cons. cbn [fst snd sum_list_with].
  destruct (lowCardHashes !! h) eqn:E.
  - destruct (IH (n0 + length ss)%nat m) as [-> IH2]. split; [lia|].
    intros k. rewrite IH2.
    destruct (decide (k ∈ l.*1 ∧ _)) as [[H1 H2]|H1];
      destruct (decide (k ∈ h :: l.*1 ∧ _)) as [[H3 H4]|H3]; try done.
    + destruct H3. split; [by right|done].
    + apply elem_of_cons in H3 as [->|H3]; [congruence|].
      by destruct H1.
  - destruct (IH (n0 + length ss)%nat (delete h m)) as [-> IH2].
    split; [lia|]. intros k. rewrite IH2.
    destruct (decide (k = h)) as [->|Hne].
    + rewrite lookup_delete_eq.
      destruct (decide (h ∈ h :: l.*1 ∧ _)) as [[H3 H4]|H3];
        [by destruct (decide _)|].
      destruct H3. split; [left|done].
    + rewrite lookup_delete_ne by done.
      destruct (decide (k ∈ l.*1 ∧ _)) as [[H1 H2]|H1];
      destruct (decide (k ∈ h :: l.*1 ∧ _)) as [[H3 H4]|H3]; try done.
      * destruct H3. split; [by right|done].
      * apply elem_of_cons in H3 as [->|H3]; [done|]. by destruct H1.
Qed.

Lemma prune_spec lowCardHashes (highCardHashes : gmap N (list model.Series)) :
  foldl (binary.pruneStep lowCardHashes) (0%nat, highCardHashes)
    (binary.rangeMap rangeKeys highCardHashes)
  = (bucketTotal highCardHashes,
     filter (λ e, is_Some (lowCardHashes !! e.1)) highCardHashes).
Proof.
  destruct (pruneStep_fold lowCardHashes
              (binary.rangeMap rangeKeys highCardHashes) 0 highCardHashes)
    as [H1 H2].
  rewrite (surjective_pairing (foldl _ _ _)). f_equal.
  - rewrite H1. unfold bucketTotal. by rewrite rangeMap_perm.
  - apply map_eq. intros k. rewrite H2, map_lookup_filter.
    destruct (highCardHashes !! k) as [ss|] eqn:E; simpl.
    + destruct (decide _) as [[_ H]|H].
      * rewrite option_guard_False; [done|].
        simpl. rewrite H. by intros [].
      * rewrite option_guard_True; [done|]. simpl.
        destruct (lowCardHashes !! k) eqn:El; [done|].
        destruct H. split; [|done].
        apply list_elem_of_fmap. exists (k, ss). split; [done|].
        by apply elem_of_rangeMap.
    + by destruct (decide _).
Qed.
(** The second loop of [join]. *)

Lemma emitted_snoc done s :
  emitted (done ++ [s])
  = emitted done
    ++ [{| ID := N.of_nat (length done); Metric := Metric s |}].
Proof.
  unfold emitted. rewrite imap_app. simpl. by rewrite Nat.add_0_r.
Qed.

Lemma length_emitted done : length (emitted done) = length done.
Proof. apply length_imap. Qed.

Lemma joinSeries_spec n done highCardInputIndex k lid out hi lo j s ids :
  joinInv n done (out, hi, lo) →
  highCardInputIndex !! k = Some ids → ids !! j = Some (ID s) →
  (N.to_nat (ID s) < n)%nat → (N.to_nat lid < n)%nat →
  ∃ st', binary.joinSeries highCardInputIndex k lid (out, hi, lo) j s = Ok st'
         ∧ joinInv n (done ++ [s]) st'.
Proof.
  intros (-> & Hhi & Hlo & Hset & Hdone & Hids) Hk Hj Hs Hlid.
  unfold binary.joinSeries. rewrite Hk. simpl.
  rewrite (index_Some _ _ _ Hj). simpl.
  rewrite assign_lt by lia. simpl.
  destruct (lookup_lt_is_Some_2 lo (N.to_nat lid)) as [cur Hcur]; [lia|].
  rewrite (index_Some _ _ _ Hcur). simpl.
  rewrite assign_lt by lia. simpl.
  eexists; split; [done|]. rewrite length_emitted.
  split; [by rewrite emitted_snoc|].
  rewrite !length_insert. split; [done|]. split; [done|].
  split; [|split].
  - intros i k0 Hi. destruct (decide (i = N.to_nat (ID s))) as [->|Hne].
    + rewrite list_lookup_insert_eq in Hi by lia. injection Hi as <-.
      exists s. rewrite Nat2N.id. split; [|done].
      by rewrite lookup_app_r, Nat.sub_diag.
    + rewrite list_lookup_insert_ne in Hi by done.
      destruct (Hset i k0 Hi) as (s0 & Hs0 & Hid). exists s0.
      split; [|done]. by apply lookup_app_l_Some.
  - intros s0 Hin.
    destruct (decide (N.to_nat (ID s0) = N.to_nat (ID s))) as [->|Hne].
    + eexists. apply list_lookup_insert_eq. lia.
    + rewrite list_lookup_insert_ne by done.
      apply elem_of_app in Hin as [Hin|Hin]; [by apply Hdone|].
      apply list_elem_of_singleton in Hin as ->. done.
  - intros j0 l x Hl Hx. rewrite length_app. simpl.
    destruct (decide (j0 = N.to_nat lid)) as [->|Hne].
    + rewrite list_lookup_insert_eq in Hl by lia. injection Hl as <-.
      apply elem_of_app in Hx as [Hx|Hx].
      * pose proof (Hids _ _ _ Hcur Hx). lia.
      * apply list_elem_of_singleton in Hx as ->. lia.
    + rewrite list_lookup_insert_ne in Hl by done.
      pose proof (Hids _ _ _ Hl Hx). lia.
Qed.

Lemma joinSeries_loop n highCardInputIndex k lid ids ss :
  highCardInputIndex !! k = Some ids → (N.to_nat lid < n)%nat →
  ∀ j0 done st,
  (∀ j s, ss !! j = Some s →
     ids !! (j0 + j)%nat = Some (ID s) ∧ (N.to_nat (ID s) < n)%nat) →
  joinInv n done st →
  ∃ st', binary.forRange (binary.joinSeries highCardInputIndex k lid) j0 ss st
         = Ok st'
         ∧ joinInv n (done ++ ss) st'.
Proof.
  intros Hk Hlid. induction ss as [|s ss IH]; intros j0 done st Hss Hinv.
  { exists st. by rewrite app_nil_r. }
  destruct st as [[out hi] lo]. cbn [binary.forRange].
  destruct (Hss 0%nat s eq_refl) as [Hj Hs]. rewrite Nat.add_0_r in Hj.
  destruct (joinSeries_spec _ _ _ _ _ _ _ _ _ _ _ Hinv Hk Hj Hs Hlid)
    as (st' & -> & Hinv'). simpl.
  destruct (IH (S j0) (done ++ [s]) st') as (st'' & -> & Hinv''); [|done|].
  - intros j s0 Hj0. specialize (Hss (S j) s0 Hj0).
    by rewrite Nat.add_succ_r in Hss.
  - exists st''. by rewrite <- app_assoc in Hinv''.
Qed.

Lemma joinBucket_spec n highCardInputIndex lowCardInputIndex done st k ss lid :
  joinInv n done st →
  highCardInputIndex !! k = Some (ID <$> ss) →
  (∀ s, s ∈ ss → (N.to_nat (ID s) < n)%nat) →
  lowCardSeriesID lowCardInputIndex k = Some lid →
  match binary.joinBucket highCardInputIndex lowCardInputIndex st (k, ss) with
  | Ok st' => (N.to_nat lid < n)%nat ∧ joinInv n (done ++ ss) st'
  | Panic _ => (n ≤ N.to_nat lid)%nat
  | Err _ => False
  end.
Proof.
  intros Hinv Hk Hss Hlid. destruct st as [[out hi] lo].
  unfold binary.joinBucket. unfold lowCardSeriesID in Hlid.
  destruct (default [] (lowCardInputIndex !! k)) as [|lid' rest]; [done|].
  injection Hlid as ->. rewrite (index_Some _ 0%nat lid) by done. simpl.
  destruct Hinv as (Hout & Hhi & Hlo & Hset & Hdone & Hids).
  destruct (decide (N.to_nat lid < n)%nat) as [Hlt|Hge];
    [rewrite assign_lt by lia|rewrite assign_ge by lia]; simpl; [|lia].
  edestruct (joinSeries_loop n highCardInputIndex k lid (ID <$> ss) ss Hk)
    as (st' & -> & Hinv'); [lia| |split_and!; try done|split; [lia|done]].
  - intros j s Hj. simpl. rewrite list_lookup_fmap, Hj. split; [done|].
    apply Hss. by eapply list_elem_of_lookup_2.
  - by rewrite length_insert.
  - intros j l x Hl Hx.
    destruct (decide (j = N.to_nat lid)) as [->|Hne].
    + rewrite list_lookup_insert_eq in Hl by lia. injection Hl as <-.
      by apply not_elem_of_nil in Hx.
    + rewrite list_lookup_insert_ne in Hl by done. by eapply Hids.
Qed.

Lemma joinBucket_loop n highCardInputIndex lowCardInputIndex bs :
  ∀ done st,
  joinInv n done st →
  (∀ e, e ∈ bs → bucketOk n highCardInputIndex lowCardInputIndex e) →
  match binary.forEach
          (binary.joinBucket highCardInputIndex lowCardInputIndex) bs st with
  | Ok st' =>
      (∀ e lid, e ∈ bs → lowCardSeriesID lowCardInputIndex e.1 = Some lid →
                (N.to_nat lid < n)%nat)
      ∧ joinInv n (done ++ mjoin bs.*2) st'
  | Panic _ =>
      ∃ e lid, e ∈ bs ∧ lowCardSeriesID lowCardInputIndex e.1 = Some lid
               ∧ (n ≤ N.to_nat lid)%nat
  | Err _ => False
  end.
Proof.
  induction bs as [|[k ss] bs IH]; intros done st Hinv Hok.
  { simpl. rewrite app_nil_r. split; [|done].
    intros e lid Hin. by apply not_elem_of_nil in Hin. }
  cbn [binary.forEach].
  destruct (Hok (k, ss)) as (Hk & Hss & [lid Hlid]); [left|].
  pose proof (joinBucket_spec n highCardInputIndex lowCardInputIndex
                done st k ss lid Hinv Hk Hss Hlid) as Hb.
  destruct (binary.joinBucket _ _ st (k, ss)) as [st'| |]; simpl;
    [|done|].
  - destruct Hb as [Hlt Hinv'].
    specialize (IH (done ++ ss) st' Hinv').
    destruct (binary.forEach _ bs st') as [st''| |].
    + destruct IH as [Hall Hinv'']; [intros; apply Hok; by right|].
      split; [|by rewrite <- app_assoc in Hinv''].
      intros e lid0 [->|Hin]%elem_of_cons Hl; [|by eapply Hall].
      rewrite Hlid in Hl. by injection Hl as <-.
    + apply IH. intros; apply Hok; by right.
    + destruct IH as (e & lid0 & Hin & Hl & Hge);
        [intros; apply Hok; by right|].
      exists e, lid0. split; [by right|done].
  - exists (k, ss), lid. split; [left|done].
Qed.

End join_facts.

(** ** [join] on the buckets of [hashSeries] *)

Section join_hashSeries.
Context (HashWithoutLabels HashForLabels : Labels → list string → N).
Context (rangeKeys : gset N → list N).
Hypothesis rangeKeys_perm : ∀ s, rangeKeys s ≡ₚ elements s.
Context (matching : VectorMatching).
Context (high low : list Labels).

Local Abbreviation hashSeries :=
  (binary.hashSeries HashWithoutLabels HashForLabels matching).
Local Abbreviation key := (joinKey HashWithoutLabels HashForLabels matching).
Local Abbreviation kept :=
  (retained HashWithoutLabels HashForLabels matching).
Local Abbreviation mkSeries :=
  (seriesOf HashWithoutLabels HashForLabels matching).
Local Abbreviation highCardHashes := (hashSeries high true).1.
Local Abbreviation highCardInputIndex := (hashSeries high true).2.
Local Abbreviation lowCardHashes := (hashSeries low false).1.
Local Abbreviation lowCardInputIndex := (hashSeries low false).2.
Local Abbreviation pruned :=
  (filter (λ e : N * list model.Series, is_Some (lowCardHashes !! e.1))
     highCardHashes).

Lemma pruned_lookup k ss :
  pruned !! k = Some ss
  ↔ highCardHashes !! k = Some ss ∧ is_Some (lowCardHashes !! k).
Proof. by rewrite map_lookup_filter_Some. Qed.

Lemma lowCardSeriesID_is_Some k :
  is_Some (lowCardHashes !! k) →
  is_Some (lowCardSeriesID lowCardInputIndex k).
Proof.
  intros [ls Hls]. unfold lowCardSeriesID.
  rewrite (hashSeries_inputIndex _ _ _ _ _ _ _ Hls). simpl.
  rewrite (proj1 (hashSeries_lookup _ _ _ _ _ _)) in Hls.
  apply bucketOf_Some in Hls as [Hne ->].
  destruct (members _ _ _ low k); [done|]. simpl. eauto.
Qed.

(** The low cardinality series a key is joined with is the first series of
    the low cardinality side with that key. *)
Lemma lowCardSeriesID_first k lid :
  lowCardSeriesID lowCardInputIndex k = Some lid →
  ∃ m, low !! N.to_nat lid = Some m ∧ key m = k.
Proof.
  unfold lowCardSeriesID. intros Hh.
  destruct (lowCardInputIndex !! k) as [[|id ids]|] eqn:E; try done.
  simpl in Hh. injection Hh as ->.
  by eapply hashSeries_first_id.
Qed.

Lemma pruned_bucketOk e :
  e ∈ binary.rangeMap rangeKeys pruned →
  bucketOk (length high) highCardInputIndex lowCardInputIndex e.
Proof.
  destruct e as [k ss].
  intros [Hh Hl]%(elem_of_rangeMap _ rangeKeys_perm)%pruned_lookup.
  split; [by apply hashSeries_inputIndex|]. split.
  - intros s [j Hj]%list_elem_of_lookup.
    destruct (hashSeries_bucket _ _ _ _ _ _ _ _ _ Hh Hj)
      as (i & m & Hi & _ & ->).
    simpl. rewrite Nat2N.id. by eapply lookup_lt_Some.
  - by apply lowCardSeriesID_is_Some.
Qed.

(** The high cardinality series that [join] gives an output: those whose key
    has a bucket on the low cardinality side. *)
Lemma elem_of_pruned_series s :
  s ∈ mjoin (binary.rangeMap rangeKeys pruned).*2
  ↔ ∃ i m, high !! i = Some m ∧ s = mkSeries true (i, m)
           ∧ ∃ m', m' ∈ low ∧ key m' = key m.
Proof.
  rewrite list_elem_of_join. split.
  - intros (ss & Hs & Hin).
    apply list_elem_of_fmap in Hin as ([k ss'] & -> & Hin).
    apply (elem_of_rangeMap _ rangeKeys_perm), pruned_lookup in Hin
      as [Hh Hl].
    apply list_elem_of_lookup in Hs as [j Hj].
    destruct (hashSeries_bucket _ _ _ _ _ _ _ _ _ Hh Hj)
      as (i & m & Hi & Hk & ->).
    exists i, m. split; [done|]. split; [done|].
    apply hashSeries_lookup_is_Some in Hl as (m' & Hm' & Hk').
    exists m'. split; [done|congruence].
  - intros (i & m & Hi & -> & m' & Hm' & Hk).
    destruct (hashSeries_member HashWithoutLabels HashForLabels matching
                high true i m Hi) as (ss & Hss & Hin).
    exists ss. split; [done|].
    apply list_elem_of_fmap. exists (key m, ss). split; [done|].
    apply (elem_of_rangeMap _ rangeKeys_perm), pruned_lookup.
    split; [done|].
    destruct (lowCardHashes !! key m) eqn:El; [done|].
    eapply hashSeries_lookup_None in El; [|done]. done.
Qed.

(** [join] returns no error. It goes through when, for every key with
    buckets on both sides, the id of the first low cardinality series of that
    key is below the number of high cardinality series; otherwise the write
    to [lowCardOutputIndex] panics. *)
Lemma joinInv_init n :
  joinInv n [] ([], replicate n None, replicate n []).
Proof.
  unfold joinInv. rewrite !length_replicate.
  split; [done|]. split; [done|]. split; [done|]. split; [|split].
  - intros i k [Hi _]%lookup_replicate. done.
  - intros s Hs. by apply not_elem_of_nil in Hs.
  - intros j l x [-> _]%lookup_replicate Hx. by apply not_elem_of_nil in Hx.
Qed.

Lemma join_hashSeries :
  match binary.join rangeKeys highCardHashes highCardInputIndex
          lowCardHashes lowCardInputIndex with
  | Ok st =>
      (∀ k lid, is_Some (pruned !! k) →
         lowCardSeriesID lowCardInputIndex k = Some lid →
         (N.to_nat lid < length high)%nat)
      ∧ joinInv (length high)
          (mjoin (binary.rangeMap rangeKeys pruned).*2) st
  | Panic _ =>
      ∃ k lid, is_Some (pruned !! k)
               ∧ lowCardSeriesID lowCardInputIndex k = Some lid
               ∧ (length high ≤ N.to_nat lid)%nat
  | Err _ => False
  end.
Proof.
  unfold binary.join. rewrite (prune_spec _ rangeKeys_perm).
  rewrite hashSeries_total.
  pose proof (joinBucket_loop (length high) highCardInputIndex
    lowCardInputIndex (binary.rangeMap rangeKeys pruned) []
    ([], replicate (length high) None, replicate (length high) [])
    (joinInv_init _) pruned_bucketOk) as H.
  simpl in H.
  destruct (binary.forEach _ _ _) as [st| |]; [|done|].
  - destruct H as [Hlid Hinv].
    split; [|done]. intros k lid [ss Hss] Hl.
    apply (Hlid (k, ss)); [|done].
    by apply (elem_of_rangeMap _ rangeKeys_perm).
  - destruct H as ([k ss] & lid & Hin & Hl & Hge).
    exists k, lid. split; [|done].
    exists ss. by apply (elem_of_rangeMap _ rangeKeys_perm).
Qed.

(** What a successful [join] returns. *)
Lemma join_facts out hi lo :
  binary.join rangeKeys highCardHashes highCardInputIndex
    lowCardHashes lowCardInputIndex = Ok (out, hi, lo) →
  ∃ done,
    out = emitted done
    ∧ length hi = length high ∧ length lo = length high
    ∧ (∀ k s, done !! k = Some s →
         ∃ i m, high !! i = Some m ∧ s = mkSeries true (i, m)
                ∧ ∃ m', m' ∈ low ∧ key m' = key m)
    ∧ (∀ i k, hi !! i = Some (Some k) →
         ∃ m, high !! i = Some m
              ∧ done !! N.to_nat k = Some (mkSeries true (i, m)))
    ∧ (∀ i m, high !! i = Some m → (∃ m', m' ∈ low ∧ key m' = key m) →
         ∃ k, hi !! i = Some (Some k))
    ∧ (∀ j l x, lo !! j = Some l → x ∈ l → (N.to_nat x < length done)%nat)
    ∧ (∀ k lid, is_Some (pruned !! k) →
         lowCardSeriesID lowCardInputIndex k = Some lid →
         (N.to_nat lid < length high)%nat).
Proof.
  intros Hjoin. pose proof join_hashSeries as H. rewrite Hjoin in H.
  destruct H as [Hlid (Hout & Hhi & Hlo & Hset & Hdone & Hids)].
  exists (mjoin (binary.rangeMap rangeKeys pruned).*2).
  split; [done|]. split; [done|]. split; [done|]. split; [|split_and!].
  - intros k s Hk. apply elem_of_pruned_series.
    by eapply list_elem_of_lookup_2.
  - intros i k Hi. destruct (Hset i k Hi) as (s & Hs & Hid).
    assert (s ∈ mjoin (binary.rangeMap rangeKeys pruned).*2) as Hin
      by by eapply list_elem_of_lookup_2.
    apply elem_of_pruned_series in Hin as (i' & m & Hi' & -> & _).
    simpl in Hid. rewrite Nat2N.id in Hid. subst i'.
    by exists m.
  - intros i m Hi Hm.
    destruct (Hdone (mkSeries true (i, m))) as [k Hk].
    + apply elem_of_pruned_series. by exists i, m.
    + simpl in Hk. rewrite Nat2N.id in Hk. by exists k.
  - done.
  - done.
Qed.

End join_hashSeries.

(** ** [initOutputs] *)

Lemma emitted_ids done :
  ID <$> emitted done = N.of_nat <$> seq 0 (length done).
Proof.
  unfold emitted. induction done as [|s done IH] using rev_ind; [done|].
  rewrite imap_app, fmap_app, IH, length_app, seq_app, fmap_app. simpl.
  by rewrite Nat.add_0_r.
Qed.


Lemma emitted_metric done : Metric <$> emitted done = Metric <$> done.
Proof.
  unfold emitted. rewrite fmap_imap.
  induction done as [|s d IH] using rev_ind; [done|].
  by rewrite imap_app, fmap_app, IH.
Qed.

Lemma fillSeries_loop done2 : ∀ done1,
  binary.forEach (λ series s, assign series (N.to_nat (ID s)) (Metric s))
    (imap (λ j s, {| ID := N.of_nat (length done1 + j); Metric := Metric s |})
       done2)
    ((Metric <$> done1) ++ replicate (length done2) [])
  = Ok (Metric <$> (done1 ++ done2)).
Proof.
  induction done2 as [|s done2 IH]; intros done1.
  { simpl. by rewrite !app_nil_r. }
  rewrite imap_cons. cbn [binary.forEach ID Metric].
  rewrite Nat.add_0_r, Nat2N.id, assign_lt.
  2:{ rewrite length_app, length_fmap. simpl. lia. }
  simpl. rewrite insert_app_r_alt by (rewrite length_fmap; lia).
  rewrite length_fmap, Nat.sub_diag. simpl.
  specialize (IH (done1 ++ [s])).
  rewrite fmap_app, <- !app_assoc in IH. simpl in IH.
  rewrite <- IH. f_equal. apply imap_ext. intros j x _. simpl.
  rewrite length_app. simpl. do 2 f_equal. lia.
Qed.

Lemma fillSeries_emitted done :
  binary.fillSeries (emitted done) = Ok (Metric <$> done).
Proof.
  unfold binary.fillSeries. rewrite length_emitted.
  apply (fillSeries_loop done []).
Qed.

Lemma forEach_not_Err {A St} (body : St → A → outcome St) l s :
  (∀ s a, ¬ is_Err (body s a)) → ¬ is_Err (binary.forEach body l s).
Proof.
  intros Hb. revert s. induction l as [|a l IH]; intros s; simpl; [tauto|].
  pose proof (Hb s a). destruct (body s a); simpl; auto.
Qed.

Lemma fillSeries_not_Err output : ¬ is_Err (binary.fillSeries output).
Proof.
  apply forEach_not_Err. intros s a. unfold assign.
  destruct (decide _); simpl; tauto.
Qed.

Section initOutputs_facts.
Context {float64 : Type}.
Context (HashWithoutLabels HashForLabels : Labels → list string → N).
Context (rangeKeys : gset N → list N).
Hypothesis rangeKeys_perm : ∀ s, rangeKeys s ≡ₚ elements s.
Context {sample tableT ItemType : Type} (zeroSample : sample).
Context (newTable : VectorMatchCardinality → ItemType → list sample →
                    list (option N) → list (list N) → outcome tableT).
Context {L R : Type}.
Context `{!VectorOperator float64 L, !VectorOperator float64 R}.

Local Abbreviation operator :=
  (@binary.vectorOperator sample tableT ItemType L R).
Local Abbreviation initOutputs :=
  (binary.initOutputs (float64:=float64) (L:=L) (R:=R)
     HashWithoutLabels HashForLabels rangeKeys zeroSample newTable).
Local Abbreviation hashSeries :=
  (binary.hashSeries HashWithoutLabels HashForLabels).

(** The [join] that [initOutputs] runs on the series of the children. *)
Local Abbreviation joinOf o lhsSeries rhsSeries :=
  (let m := binary.matching o in
   let high := highCardSide (Card m) lhsSeries rhsSeries in
   let low := lowCardSide (Card m) lhsSeries rhsSeries in
   binary.join rangeKeys (hashSeries m high true).1 (hashSeries m high true).2
     (hashSeries m low false).1 (hashSeries m low false).2).

Lemma initOutputs_unfold (o : operator) :
  initOutputs o
  = match opSeries (binary.lhs o) with
    | (Ok lhsSeries, l) =>
      match opSeries (binary.rhs o) with
      | (Ok rhsSeries, r) =>
        let o1 := binary.withChildren l r o in
        match joinOf o lhsSeries rhsSeries with
        | Ok (output, hi, lo) =>
          match binary.fillSeries output with
          | Ok series =>
            let o2 := binary.withOutputs zeroSample series hi lo o1 in
            match newTable (Card (binary.matching o)) (binary.operation o)
                    (replicate (length series) zeroSample) hi lo with
            | Ok t => (Ok (), binary.withTable (Some t) o2)
            | Err e => (Err e, o2)
            | Panic msg => (Panic msg, o2)
            end
          | Err e => (Err e, o1)
          | Panic msg => (Panic msg, o1)
          end
        | Err e => (Err e, o1)
        | Panic msg => (Panic msg, o1)
        end
      | (Err e, r) => (Err e, binary.withChildren l r o)
      | (Panic msg, r) => (Panic msg, binary.withChildren l r o)
      end
    | (Err e, l) => (Err e, binary.withChildren l (binary.rhs o) o)
    | (Panic msg, l) => (Panic msg, binary.withChildren l (binary.rhs o) o)
    end.
Proof.
  unfold binary.initOutputs, mbind, action_bind, binary.lhsSeries,
    binary.rhsSeries, binary.get, binary.modify, lift,
    highCardSide, lowCardSide.
  destruct (opSeries (binary.lhs o)) as [[lhsSeries|e|msg] l]; try done.
  cbn [binary.rhs binary.withChildren binary.lhs].
  destruct (opSeries (binary.rhs o)) as [[rhsSeries|e|msg] r]; try done.
  cbn [binary.matching binary.withChildren binary.operation].
  destruct (decide (Card (binary.matching o) = CardOneToMany)) as [Hc|Hc].
  - destruct (hashSeries _ rhsSeries true) as [hh hi] eqn:E1.
    destruct (hashSeries _ lhsSeries false) as [lh li] eqn:E2.
    cbn [fst snd].
    by destruct (binary.join _ _ _ _ _) as [[[output hx] lx]|e|msg].
  - destruct (hashSeries _ lhsSeries true) as [hh hi] eqn:E1.
    destruct (hashSeries _ rhsSeries false) as [lh li] eqn:E2.
    cbn [fst snd].
    by destruct (binary.join _ _ _ _ _) as [[[output hx] lx]|e|msg].
Qed.

Local Abbreviation keyOf o :=
  (joinKey HashWithoutLabels HashForLabels (binary.matching o)).
Local Abbreviation keptOf o :=
  (retained HashWithoutLabels HashForLabels (binary.matching o) true).

(** What [initOutputs] leaves in the operator when it returns no error. *)
Lemma initOutputs_Ok (o o' : operator) lhsSeries rhsSeries l r :
  opSeries (binary.lhs o) = (Ok lhsSeries, l) →
  opSeries (binary.rhs o) = (Ok rhsSeries, r) →
  initOutputs o = (Ok (), o') →
  ∃ done t,
    joinOf o lhsSeries rhsSeries
      = Ok (emitted done, binary.highCardOutputIndex o',
            binary.lowCardOutputIndex o')
    ∧ binary.series o' = Metric <$> done
    ∧ binary.table o' = Some t
    ∧ binary.matching o' = binary.matching o.
Proof.
  intros Hl Hr. rewrite initOutputs_unfold, Hl, Hr. cbn zeta.
  destruct (binary.join _ _ _ _ _) as [[[output hi] lo]|e|msg] eqn:Ej;
    [|done..].
  destruct (join_facts _ _ _ rangeKeys_perm _ _ _ _ _ _ Ej)
    as (done & -> & _).
  rewrite fillSeries_emitted.
  destruct (newTable _ _ _ _ _) as [t| |]; [|done..].
  intros [= <-]. by exists done, t.
Qed.

(** An error of [initOutputs] is an error of a child's [Series] or of
    [newTable]; in the latter case the outputs are in place already. *)
Lemma initOutputs_Err (o o' : operator) e :
  initOutputs o = (Err e, o') →
  (opSeries (binary.lhs o)).1 = Err e
  ∨ (opSeries (binary.rhs o)).1 = Err e
  ∨ ∃ lhsSeries rhsSeries l r done,
      opSeries (binary.lhs o) = (Ok lhsSeries, l)
      ∧ opSeries (binary.rhs o) = (Ok rhsSeries, r)
      ∧ joinOf o lhsSeries rhsSeries
        = Ok (emitted done, binary.highCardOutputIndex o',
              binary.lowCardOutputIndex o')
      ∧ binary.series o' = Metric <$> done
      ∧ newTable (Card (binary.matching o)) (binary.operation o)
          (replicate (length done) zeroSample)
          (binary.highCardOutputIndex o') (binary.lowCardOutputIndex o')
        = Err e.
Proof.
  rewrite initOutputs_unfold.
  destruct (opSeries (binary.lhs o)) as [[lhsSeries|e1|msg] l] eqn:El;
    [|intros [= -> _]; by left|done].
  destruct (opSeries (binary.rhs o)) as [[rhsSeries|e1|msg] r] eqn:Er;
    [|intros [= -> _]; right; by left|done].
  cbn zeta.
  pose proof (join_hashSeries HashWithoutLabels HashForLabels rangeKeys
    rangeKeys_perm (binary.matching o)
    (highCardSide (Card (binary.matching o)) lhsSeries rhsSeries)
    (lowCardSide (Card (binary.matching o)) lhsSeries rhsSeries)) as Hj.
  destruct (binary.join _ _ _ _ _) as [[[output hi] lo]|e1|msg] eqn:Ej;
    [|done..].
  destruct (join_facts _ _ _ rangeKeys_perm _ _ _ _ _ _ Ej)
    as (done & -> & _).
  rewrite fillSeries_emitted.
  destruct (newTable _ _ _ _ _) as [t|e1|] eqn:Et; [done| |done].
  intros [= -> <-]. right; right.
  exists lhsSeries, rhsSeries, l, r, done. cbn.
  rewrite length_fmap in Et. done.
Qed.

(** C8. After a successful initialization with [n] output series, the ids
    [join] assigned are [0 .. n-1] in the order of emission and the series
    list has the labels of output [k] at index [k]; every id stored in
    [highCardOutputIndex] and in the lists of [lowCardOutputIndex] is below
    [n]; and the entry of [highCardOutputIndex] for a high cardinality series
    is nil exactly when no low cardinality series has its signature. *)
Theorem initOutputs_dense_output_ids (o o' : operator) lhsSeries rhsSeries l r :
  opSeries (binary.lhs o) = (Ok lhsSeries, l) →
  opSeries (binary.rhs o) = (Ok rhsSeries, r) →
  initOutputs o = (Ok (), o') →
  let high := highCardSide (Card (binary.matching o)) lhsSeries rhsSeries in
  let low := lowCardSide (Card (binary.matching o)) lhsSeries rhsSeries in
  let n := length (binary.series o') in
  ∃ output,
    joinOf o lhsSeries rhsSeries
      = Ok (output, binary.highCardOutputIndex o',
            binary.lowCardOutputIndex o')
    ∧ ID <$> output = N.of_nat <$> seq 0 n
    ∧ binary.series o' = Metric <$> output
    ∧ (∀ i k, binary.highCardOutputIndex o' !! i = Some (Some k) →
         (N.to_nat k < n)%nat)
    ∧ (∀ j ks k, binary.lowCardOutputIndex o' !! j = Some ks → k ∈ ks →
         (N.to_nat k < n)%nat)
    ∧ (∀ i m, high !! i = Some m →
         binary.highCardOutputIndex o' !! i = Some None
         ↔ ∀ m', m' ∈ low → keyOf o m' ≠ keyOf o m).
Proof.
  intros Hl Hr Hinit high low n.
  destruct (initOutputs_Ok o o' _ _ _ _ Hl Hr Hinit)
    as (done & t & Hjoin & Hseries & _).
  destruct (join_facts _ _ _ rangeKeys_perm _ _ _ _ _ _ Hjoin)
    as (done' & Hdone & Hlen & _ & Held & Hset & Hget & Hlo & _).
  assert (n = length done') as Hn.
  { unfold n. rewrite Hseries, length_fmap.
    by rewrite <- (length_emitted done), Hdone, length_emitted. }
  exists (emitted done). split; [done|]. split.
  { rewrite emitted_ids. do 2 f_equal. unfold n.
    by rewrite Hseries, length_fmap. }
  split; [by rewrite emitted_metric|].
  split; [|split].
  - intros i k Hi. destruct (Hset i k Hi) as (m & _ & Hk).
    rewrite Hn. by eapply lookup_lt_Some.
  - intros j ks k Hj Hk. rewrite Hn. by eapply Hlo.
  - intros i m Hi. fold high in Hset, Hget, Held, Hlen. fold low in Held, Hget.
    split.
    + intros Hnil m' Hm' Hk.
      destruct (Hget i m Hi) as [k Hsome]; [by exists m'|]. congruence.
    + intros Hno.
      destruct (lookup_lt_is_Some_2 (binary.highCardOutputIndex o') i)
        as [[k|] Hk]; [rewrite Hlen; by eapply lookup_lt_Some| |done].
      destruct (Hset i k Hk) as (m0 & Hm0 & Hdk).
      destruct (Held _ _ Hdk) as (i' & m1 & Hi' & Heq & m' & Hm' & Hkey).
      injection Heq as Hii Hmm. apply Nat2N.inj in Hii. subst i'.
      assert (m1 = m) as -> by congruence.
      by destruct (Hno m' Hm').
Qed.

(** C3, as the code has it. Every output series carries the labels
    [signature] retains of a high cardinality series that has a partner, and
    the output that [highCardOutputIndex] gives a high cardinality series
    carries the labels retained of that series. The labels retained are those
    of the series without the metric name (and without the labels of an empty
    value, which the builder drops); with [on(L)], only the names in [L] stay;
    with [ignoring(L)], the names in [L] stay as well. The [Include] list of
    [group_left] and [group_right] plays no part. *)
Theorem initOutputs_output_labels (o o' : operator) lhsSeries rhsSeries l r :
  opSeries (binary.lhs o) = (Ok lhsSeries, l) →
  opSeries (binary.rhs o) = (Ok rhsSeries, r) →
  initOutputs o = (Ok (), o') →
  let high := highCardSide (Card (binary.matching o)) lhsSeries rhsSeries in
  (∀ k lbls, binary.series o' !! k = Some lbls →
     ∃ i m, high !! i = Some m ∧ lbls = keptOf o m)
  ∧ (∀ i k, binary.highCardOutputIndex o' !! i = Some (Some k) →
       ∃ m, high !! i = Some m
            ∧ binary.series o' !! N.to_nat k = Some (keptOf o m))
  ∧ (∀ m lbl,
       lbl ∈ keptOf o m
       ↔ lbl ∈ m ∧ Name lbl ≠ MetricName ∧ (Name lbl ∉ emptyNames m)
         ∧ (On (binary.matching o) = true →
            Name lbl ∈ MatchingLabels (binary.matching o))).
Proof.
  intros Hl Hr Hinit high.
  destruct (initOutputs_Ok o o' _ _ _ _ Hl Hr Hinit)
    as (done & t & Hjoin & Hseries & _).
  destruct (join_facts _ _ _ rangeKeys_perm _ _ _ _ _ _ Hjoin)
    as (done' & Hdone & Hlen & _ & Held & Hset & Hget & Hlo & _).
  assert (Metric <$> done = Metric <$> done') as Hmetric
    by by rewrite <- (emitted_metric done), Hdone, emitted_metric.
  rewrite Hseries, Hmetric. split; [|split].
  - intros k lbls Hk. rewrite list_lookup_fmap in Hk.
    apply fmap_Some in Hk as (s & Hs & ->).
    destruct (Held _ _ Hs) as (i & m & Hi & -> & _). by exists i, m.
  - intros i k Hi. destruct (Hset i k Hi) as (m & Hm & Hk).
    exists m. split; [done|]. by rewrite list_lookup_fmap, Hk.
  - intros m lbl. apply elem_of_retained_high.
Qed.

(** C1, as the code has it. [join] has no error to return. When two high
    cardinality series of a one-to-one matching have the signature of the
    same low cardinality series, an initialization that does not panic gives
    each of them an output of its own and stores the series list with both,
    whether or not it returns an error; and the only error it can then return
    is one that [newTable] returns. *)
Theorem initOutputs_many_to_many (o o' : operator) lhsSeries rhsSeries l r
    i1 i2 m1 m2 m' res :
  opSeries (binary.lhs o) = (Ok lhsSeries, l) →
  opSeries (binary.rhs o) = (Ok rhsSeries, r) →
  Card (binary.matching o) = CardOneToOne →
  lhsSeries !! i1 = Some m1 → lhsSeries !! i2 = Some m2 → i1 ≠ i2 →
  m' ∈ rhsSeries → keyOf o m' = keyOf o m1 → keyOf o m' = keyOf o m2 →
  initOutputs o = (res, o') →
  ¬ is_Err (joinOf o lhsSeries rhsSeries)
  ∧ (¬ is_Panic res →
     (∃ k1 k2, k1 ≠ k2
        ∧ binary.highCardOutputIndex o' !! i1 = Some (Some k1)
        ∧ binary.highCardOutputIndex o' !! i2 = Some (Some k2)
        ∧ binary.series o' !! N.to_nat k1 = Some (keptOf o m1)
        ∧ binary.series o' !! N.to_nat k2 = Some (keptOf o m2))
     ∧ (∀ e, res = Err e →
          ∃ outputCache,
            newTable CardOneToOne (binary.operation o) outputCache
              (binary.highCardOutputIndex o') (binary.lowCardOutputIndex o')
            = Err e)).
Proof.
  intros Hl Hr Hcard Hi1 Hi2 Hne Hm' Hk1 Hk2 Hinit.
  pose proof (join_hashSeries HashWithoutLabels HashForLabels rangeKeys
    rangeKeys_perm (binary.matching o)
    (highCardSide (Card (binary.matching o)) lhsSeries rhsSeries)
    (lowCardSide (Card (binary.matching o)) lhsSeries rhsSeries)) as Hj.
  split.
  { cbn zeta. destruct (binary.join _ _ _ _ _); simpl; tauto. }
  intros Hres.
  assert (∃ done,
    joinOf o lhsSeries rhsSeries
      = Ok (emitted done, binary.highCardOutputIndex o',
            binary.lowCardOutputIndex o')
    ∧ binary.series o' = Metric <$> done
    ∧ ∀ e, res = Err e →
        newTable (Card (binary.matching o)) (binary.operation o)
          (replicate (length done) zeroSample)
          (binary.highCardOutputIndex o') (binary.lowCardOutputIndex o')
        = Err e) as (done & Hjoin & Hseries & Herr).
  { destruct res as [[]|e|msg]; [| |by destruct Hres].
    - destruct (initOutputs_Ok o o' _ _ _ _ Hl Hr Hinit)
        as (done & t & Hjoin & Hseries & _).
      by exists done.
    - destruct (initOutputs_Err o o' e Hinit) as [H|[H|H]];
        [by rewrite Hl in H|by rewrite Hr in H|].
      destruct H as (ls & rs & l0 & r0 & done & Hl0 & Hr0 & Hjoin & Hs & Ht).
      rewrite Hl in Hl0; rewrite Hr in Hr0.
      injection Hl0 as <- <-; injection Hr0 as <- <-.
      exists done. split; [done|]. split; [done|].
      by intros e' [= <-]. }
  clear Hj.
  destruct (join_facts _ _ _ rangeKeys_perm _ _ _ _ _ _ Hjoin)
    as (done' & Hdone & Hlen & _ & Held & Hset & Hget & Hlo & _).
  assert (Metric <$> done = Metric <$> done') as Hmetric
    by by rewrite <- (emitted_metric done), Hdone, emitted_metric.
  unfold highCardSide, lowCardSide in Held, Hset, Hget.
  rewrite Hcard in Held, Hset, Hget. simpl in Held, Hset, Hget.
  split.
  - destruct (Hget i1 m1 Hi1) as [k1 Hh1]; [by exists m'|].
    destruct (Hget i2 m2 Hi2) as [k2 Hh2]; [by exists m'|].
    destruct (Hset _ _ Hh1) as (m1' & Hm1 & Hd1).
    destruct (Hset _ _ Hh2) as (m2' & Hm2 & Hd2).
    assert (m1' = m1) as -> by congruence.
    assert (m2' = m2) as -> by congruence.
    exists k1, k2. split.
    { intros ->. rewrite Hd1 in Hd2. injection Hd2 as Hii.
      by apply Nat2N.inj in Hii. }
    rewrite Hseries, Hmetric, !list_lookup_fmap, Hd1, Hd2. done.
  - intros e He. rewrite Hcard in Herr. eauto.
Qed.

End initOutputs_facts.

(** ** The labels the join signature digests (C7) *)

Lemma filter_ext_in {A} (P Q : A → Prop) `{!∀ x, Decision (P x)}
    `{!∀ x, Decision (Q x)} (l : list A) :
  (∀ x, x ∈ l → P x ↔ Q x) → filter P l = filter Q l.
Proof.
  induction l as [|a l IH]; intros Hext; [done|].
  rewrite !filter_cons. rewrite IH by (intros; apply Hext; by right).
  pose proof (Hext a ltac:(left)).
  destruct (decide (P a)), (decide (Q a)); tauto.
Qed.

Lemma less_le a b : less a b → String.le a b.
Proof. by intros [H _]. Qed.

Lemma less_ne a b : less a b → a ≠ b.
Proof. intros [_ H] ->. by apply H. Qed.

Lemma not_less a b : ¬ less a b → String.le b a.
Proof.
  intros H. destruct (total String.le a b) as [Hab|]; [|done].
  destruct (decide (String.le b a)) as [|Hba]; [done|]. by destruct H.
Qed.

Lemma le_not_less a b : String.le a b → ¬ less b a.
Proof. intros Hab [_ H]. by apply H. Qed.

Lemma less_le_trans a b c : less a b → String.le b c → less a c.
Proof.
  intros [Hab Hba] Hbc. split; [by etrans|].
  intros Hca. apply Hba. by etrans.
Qed.

Lemma not_less_eq a b : ¬ less a b → ¬ less b a → a = b.
Proof. intros H1%not_less H2%not_less. by apply (anti_symm String.le). Qed.

Lemma forLabels_nil_r ls : forLabels ls [] = [].
Proof. by destruct ls. Qed.

Lemma forLabels_cons l ls n names :
  forLabels (l :: ls) (n :: names)
  = if decide (less n (Name l)) then forLabels (l :: ls) names
    else if decide (less (Name l) n) then forLabels ls (n :: names)
    else l :: forLabels ls names.
Proof. reflexivity. Qed.

Lemma filter_no_names (ls : Labels) :
  filter (λ l, Name l ∈ @nil string) ls = [].
Proof.
  induction ls as [|l ls IH]; [done|].
  by rewrite filter_cons, decide_False by apply not_elem_of_nil.
Qed.

(** On a label set with names in strictly ascending order and names in
    ascending order, the walk selects the labels whose name is listed. *)
Lemma forLabels_sorted ls : ∀ names,
  StronglySorted (strict byName) ls → StronglySorted String.le names →
  forLabels ls names = filter (λ l, Name l ∈ names) ls.
Proof.
  induction ls as [|l ls IH]; intros names Hls; [by destruct names|].
  apply StronglySorted_cons in Hls as [Hl Hls].
  assert (∀ x, x ∈ ls → less (Name l) (Name x)) as Hbelow.
  { intros x Hx. by apply (proj1 (Forall_forall _ _) Hl). }
  induction names as [|n names IHn]; intros Hnames.
  { by rewrite forLabels_nil_r, filter_no_names. }
  apply StronglySorted_cons in Hnames as [Hn Hnames].
  rewrite forLabels_cons.
  destruct (decide (less n (Name l))) as [Hlt|Hge].
  - rewrite (IHn Hnames). apply filter_ext_in. intros x Hx.
    rewrite elem_of_cons. split; [auto|]. intros [Heq|]; [|done].
    destruct (less_ne n (Name x)); [|done].
    apply elem_of_cons in Hx as [->|Hx]; [done|].
    eapply less_le_trans; [done|]. by apply less_le, Hbelow.
  - destruct (decide (less (Name l) n)) as [Hlt|Hle].
    + rewrite (IH _ Hls) by by apply StronglySorted_cons.
      rewrite (filter_cons _ l), decide_False; [done|].
      intros [Heq|Hin]%elem_of_cons; [by apply less_ne in Hlt|].
      apply (less_ne (Name l) (Name l)); [|done].
      eapply less_le_trans; [done|].
      by apply (proj1 (Forall_forall _ _) Hn).
    + assert (n = Name l) as -> by by apply not_less_eq.
      rewrite (IH _ Hls Hnames).
      rewrite (filter_cons _ l), decide_True by left. f_equal.
      apply filter_ext_in. intros x Hx. rewrite elem_of_cons.
      split; [auto|]. intros [Heq|]; [|done].
      by destruct (less_ne _ _ (Hbelow x Hx)).
Qed.

Lemma dropNames_tail m names : dropNames (m :: names) → dropNames names.
Proof.
  intros [|(Ls & E & HLs)]; [done|]. destruct Ls as [|m' Ls].
  - injection E as -> ->. by left.
  - injection E as -> ->. right. exists Ls. split; [done|].
    by apply StronglySorted_cons in HLs as [_ ?].
Qed.

Lemma skipBelow_dropNames n names :
  dropNames names → dropNames (skipBelow n names).
Proof.
  induction names as [|m names IH]; [done|]. intros H. simpl.
  destruct (decide (less m n)); [|done]. by apply IH, (dropNames_tail m).
Qed.

Lemma skipBelow_elem n names x :
  ¬ less x n → x ∈ skipBelow n names ↔ x ∈ names.
Proof.
  intros Hx. induction names as [|m names IH]; [done|]. simpl.
  destruct (decide (less m n)) as [Hm|]; [|done].
  rewrite IH, elem_of_cons. split; [auto|]. by intros [->|].
Qed.

Lemma skipBelow_head n names h :
  head (skipBelow n names) = Some h → ¬ less h n.
Proof.
  induction names as [|m names IH]; [done|]. simpl.
  destruct (decide (less m n)); [done|]. by intros [= <-].
Qed.

Lemma dropNames_head names n :
  dropNames names → (∀ h, head names = Some h → ¬ less h n) →
  n ∈ names → n ≠ MetricName → head names = Some n.
Proof.
  intros [->|(Ls & -> & HLs)] Hhead Hin Hn; [by apply elem_of_nil in Hin|].
  apply elem_of_app in Hin as [Hin|Hin%list_elem_of_singleton]; [|done].
  destruct Ls as [|h Ls]; [by apply elem_of_nil in Hin|].
  simpl. f_equal. apply StronglySorted_cons in HLs as [Hh _].
  apply (anti_symm String.le).
  - apply elem_of_cons in Hin as [->|Hin]; [done|].
    by apply (proj1 (Forall_forall _ _) Hh).
  - apply not_less, Hhead. done.
Qed.

Lemma withoutLabels_dropNames ls : ∀ names,
  StronglySorted byName ls → dropNames names →
  withoutLabels ls names
  = filter (λ l, Name l ≠ MetricName ∧ Name l ∉ names) ls.
Proof.
  induction ls as [|l ls IH]; intros names Hls Hnames; [done|].
  apply StronglySorted_cons in Hls as [Hl Hls].
  cbn [withoutLabels]. cbv zeta.
  pose proof (skipBelow_dropNames (Name l) names Hnames) as Hshape.
  assert (withoutLabels ls (skipBelow (Name l) names)
          = filter (λ l, Name l ≠ MetricName ∧ Name l ∉ names) ls) as ->.
  { rewrite (IH _ Hls Hshape). apply filter_ext_in. intros x Hx.
    rewrite skipBelow_elem; [done|].
    apply le_not_less. by apply (proj1 (Forall_forall _ _) Hl). }
  assert (¬ less (Name l) (Name l)) as Hirr by (intros H; by apply less_ne in H).
  rewrite filter_cons. destruct (decide (_ ∨ _)) as [Hskip|Hkeep].
  - rewrite decide_False; [done|]. intros [Hn Hnot].
    destruct Hskip as [|Hhead]; [done|]. apply Hnot.
    apply (skipBelow_elem (Name l)); [done|]. by apply head_Some_elem_of.
  - rewrite decide_True; [done|].
    split; [tauto|]. intros Hin. apply Hkeep. right.
    apply dropNames_head; [done| |by apply skipBelow_elem|tauto].
    intros h. apply skipBelow_head.
Qed.

Lemma withoutLabels_sorted ls Ls :
  StronglySorted byName ls → StronglySorted String.le Ls →
  withoutLabels ls (Ls ++ [MetricName])
  = filter (λ l, Name l ≠ MetricName ∧ Name l ∉ Ls) ls.
Proof.
  intros Hls HLs. rewrite withoutLabels_dropNames; [|done|right; by exists Ls].
  apply filter_ext_in. intros x _.
  rewrite not_elem_of_app, list_elem_of_singleton. tauto.
Qed.

#[local] Instance less_byName_transitive : Transitive (strict byName).
Proof.
  intros a b c Hab Hbc. apply (less_le_trans _ (Name b)); [done|].
  by apply less_le.
Qed.

Lemma Sorted_strict_byName s :
  Sorted (strict byName) s →
  StronglySorted (strict byName) s ∧ StronglySorted byName s.
Proof.
  intros H%Sorted_StronglySorted; [|apply _]. split; [done|].
  induction H as [|a l Hl IH Ha]; [constructor|].
  constructor; [done|]. eapply Forall_impl; [done|]. by intros b [? _].
Qed.

(** The signature of a label set whose names are in strictly ascending
    order, as the library keeps them, under matching labels that are listed
    in ascending order: with [ignoring(Ls)] the digest of the labels without
    [Ls] and the metric name, with [on(Ls)] and [Ls] not empty the digest of
    the labels restricted to [Ls], and 0 with [on()]. *)
Lemma signature_sorted (Sum64 : string → N) s (on : bool) Ls keepLabels :
  Sorted (strict byName) s → Sorted String.le Ls →
  (binary.signature (labels.HashWithoutLabels Sum64)
     (labels.HashForLabels Sum64) s (negb on) Ls keepLabels).1
  = if on
    then (if decide (Ls = []) then 0%N
          else Sum64 (bytesOf (filter (λ l, Name l ∈ Ls) s)))
    else Sum64 (bytesOf (filter (λ l, Name l ≠ MetricName ∧ Name l ∉ Ls) s)).
Proof.
  intros [Hs Hs']%Sorted_strict_byName HLs%Sorted_StronglySorted; [|apply _].
  rewrite signature_key. destruct on; simpl.
  - destruct Ls as [|n Ls]; [done|]. rewrite decide_False by done.
    rewrite (decide_False (P:=n :: Ls = [])) by done.
    unfold labels.HashForLabels. by rewrite forLabels_sorted.
  - unfold labels.HashWithoutLabels. by rewrite withoutLabels_sorted.
Qed.

(** ** The signature a series is filed under, and the bounds of [join] (C9) *)

Section join_bounds.
Context (HashWithoutLabels HashForLabels : Labels → list string → N).
Context (rangeKeys : gset N → list N).
Hypothesis rangeKeys_perm : ∀ s, rangeKeys s ≡ₚ elements s.
Context (matching : VectorMatching).

Local Abbreviation signature :=
  (binary.signature HashWithoutLabels HashForLabels).
Local Abbreviation hashSeries :=
  (binary.hashSeries HashWithoutLabels HashForLabels matching).
Local Abbreviation key := (joinKey HashWithoutLabels HashForLabels matching).

(** On either side ([keepLabels] set or not), the signature of an input
    series is what [HashWithoutLabels] returns for the matching labels
    followed by the metric name, what [HashForLabels] returns for the
    matching labels, or 0 when [on()] lists no label; the series is filed
    under that key in both maps of [hashSeries]. *)
Lemma hashSeries_files_signature series keepLabels i s :
  series !! i = Some s →
  let Ls := MatchingLabels matching in
  let k := if On matching
           then (if decide (Ls = []) then 0%N else HashForLabels s Ls)
           else HashWithoutLabels s (Ls ++ [MetricName]) in
  (signature s (negb (On matching)) Ls keepLabels).1 = k
  ∧ ∃ ss,
      (hashSeries series keepLabels).1 !! k = Some ss
      ∧ {| ID := N.of_nat i;
           Metric := (signature s (negb (On matching)) Ls keepLabels).2 |} ∈ ss
      ∧ (hashSeries series keepLabels).2 !! k = Some (ID <$> ss).
Proof.
  intros Hi Ls k.
  assert ((signature s (negb (On matching)) Ls keepLabels).1 = k) as Hk.
  { rewrite signature_key. unfold k. destruct (On matching); simpl; [|done].
    destruct Ls; by repeat case_decide. }
  split; [done|].
  destruct (hashSeries_member HashWithoutLabels HashForLabels matching
              series keepLabels i s Hi) as (ss & Hss & Hin).
  assert (key s = k) as Hkey.
  { rewrite <- Hk. unfold joinKey. by rewrite !signature_key. }
  rewrite Hkey in Hss. exists ss. split; [done|]. split; [done|].
  by apply hashSeries_inputIndex.
Qed.

Context (high low : list Labels).

Local Abbreviation joinHighLow :=
  (binary.join rangeKeys (hashSeries high true).1 (hashSeries high true).2
     (hashSeries low false).1 (hashSeries low false).2).

(** X6. [join] goes through when the low cardinality side has no more
    series than the high cardinality side. *)
Lemma join_is_Ok : (length low ≤ length high)%nat → is_Ok joinHighLow.
Proof.
  intros Hlen.
  pose proof (join_hashSeries HashWithoutLabels HashForLabels rangeKeys
    rangeKeys_perm matching high low) as H.
  destruct (binary.join _ _ _ _ _) as [st|e|msg]; [done..|].
  destruct H as (k & lid & _ & Hlid & Hge).
  apply lowCardSeriesID_first in Hlid as (m & Hm%lookup_lt_Some & _). lia.
Qed.

(** [join] panics when a high cardinality series has partners and all of
    them have ids from the number of high cardinality series on:
    [lowCardOutputIndex] has as many entries as there are high cardinality
    series, and is indexed by the id of the low cardinality series. *)
Lemma join_is_Panic i m :
  high !! i = Some m →
  (∃ m', m' ∈ low ∧ key m' = key m) →
  (∀ j m', low !! j = Some m' → key m' = key m → (length high ≤ j)%nat) →
  is_Panic joinHighLow.
Proof.
  intros Hi (m' & Hm' & Hk') Hfar.
  pose proof (join_hashSeries HashWithoutLabels HashForLabels rangeKeys
    rangeKeys_perm matching high low) as H.
  destruct (binary.join _ _ _ _ _) as [st|e|msg]; [|done..].
  destruct H as [Hlid _]. exfalso.
  destruct (hashSeries_member HashWithoutLabels HashForLabels matching
              high true i m Hi) as (ss & Hss & _).
  assert (is_Some ((hashSeries low false).1 !! key m)) as Hlow.
  { destruct ((hashSeries low false).1 !! key m) eqn:E; [done|].
    eapply hashSeries_lookup_None in E; [|done]. done. }
  destruct (lowCardSeriesID_is_Some _ _ _ _ _ Hlow) as [lid Hl].
  specialize (Hlid (key m) lid).
  destruct (lowCardSeriesID_first _ _ _ _ _ _ Hl) as (m0 & Hm0 & Hk0).
  pose proof (Hfar _ _ Hm0 Hk0).
  assert (N.to_nat lid < length high)%nat; [|lia].
  apply Hlid; [|done].
  exists ss. apply map_lookup_filter_Some. done.
Qed.

End join_bounds.


(** ** The number-literal selector *)

Section numberLiteralSelector_facts.
Context {float64 : Type}.

Local Abbreviation selector := (scan.numberLiteralSelector float64).

Lemma numSteps_loadSeries (o : selector) :
  scan.numSteps (scan.loadSeries o) = scan.numSteps o.
Proof. unfold scan.loadSeries. by destruct (scan.once o). Qed.

Lemma maxt_loadSeries (o : selector) :
  scan.maxt (scan.loadSeries o) = scan.maxt o.
Proof. unfold scan.loadSeries. by destruct (scan.once o). Qed.

Lemma currentStep_loadSeries (o : selector) :
  scan.currentStep (scan.loadSeries o) = scan.currentStep o.
Proof. unfold scan.loadSeries. by destruct (scan.once o). Qed.

Lemma Next_past_maxt (o : selector) :
  scan.currentStep o > scan.maxt o → scan.Next o = (Ok [], o).
Proof. intros H. unfold scan.Next. by rewrite decide_True. Qed.

Lemma numSteps_Next (o : selector) :
  scan.numSteps (scan.Next o).2 = scan.numSteps o.
Proof.
  unfold scan.Next. destruct (decide _); [done|].
  destruct (scan.nextLoop _ _ _ _ _); simpl; apply numSteps_loadSeries.
Qed.

(** A selector whose batches hold no step returns empty batches. *)
Lemma Next_no_steps (o : selector) :
  scan.numSteps o ≤ 0 → (scan.Next o).1 = Ok [].
Proof.
  intros H. unfold scan.Next. destruct (decide _); [done|].
  rewrite numSteps_loadSeries.
  by replace (Z.to_nat (scan.numSteps o)) with 0%nat by lia.
Qed.

Lemma nextStep_length (o : selector) currStep ts vectors vectors' :
  scan.nextStep o currStep ts vectors = Ok vectors' →
  (0 < length vectors')%nat ∧ (length vectors ≤ length vectors')%nat.
Proof.
  unfold scan.nextStep.
  destruct (match scan.call o with Some _ => _ | None => _ end)
    as [result| |]; simpl; [|done..].
  set (vs := if decide (length vectors ≤ currStep)%nat then _ else _).
  assert (0 < length vs ∧ length vectors ≤ length vs)%nat as Hvs.
  { unfold vs. destruct (decide _); [rewrite length_app; simpl|]; lia. }
  destruct (index vs currStep); simpl; [|done..].
  unfold assign. destruct (decide (currStep < length vs)%nat); [|done].
  intros [= <-]. by rewrite length_insert.
Qed.

Lemma nextLoop_length (o : selector) remaining : ∀ currStep ts vectors vectors',
  scan.nextLoop o remaining currStep ts vectors = Ok vectors' →
  (length vectors ≤ length vectors')%nat
  ∧ (remaining ≠ 0%nat → ts ≤ scan.maxt o → (0 < length vectors')%nat).
Proof.
  induction remaining as [|n IH]; intros currStep ts vectors vectors'.
  { simpl. intros [= <-]. split; [done|]. by intros []. }
  cbn [scan.nextLoop]. destruct (decide (ts ≤ scan.maxt o)) as [Hts|Hts].
  - destruct (scan.nextStep o currStep ts vectors) as [vs| |] eqn:E;
      simpl; [|done..].
    apply nextStep_length in E as [E1 E2].
    intros [H1 H2]%IH. split; lia.
  - intros [= <-]. split; [done|]. lia.
Qed.

(** An empty batch is returned past [maxt], or by a selector whose batches
    hold no step. *)
Lemma Next_empty (o o' : selector) :
  scan.Next o = (Ok [], o') →
  (scan.currentStep o > scan.maxt o ∧ o' = o) ∨ scan.numSteps o ≤ 0.
Proof.
  unfold scan.Next. destruct (decide _) as [Hpast|Hin].
  { intros [= <-]. by left. }
  destruct (scan.nextLoop _ _ _ _ _) as [vectors| |] eqn:E; [|done..].
  intros [= -> _]. right.
  apply nextLoop_length in E as [_ E].
  rewrite numSteps_loadSeries, maxt_loadSeries, currentStep_loadSeries in E.
  destruct (decide (scan.numSteps o ≤ 0)) as [|Hpos]; [done|].
  simpl in E. assert (0 < 0)%nat; [|lia]. apply E; lia.
Qed.

(** Once [Next] has returned an empty batch, it returns empty batches and
    no error. *)
Lemma Next_stays_empty (o o' : selector) :
  scan.Next o = (Ok [], o') →
  ∀ n, (scan.Next (after n o')).1 = Ok [].
Proof.
  intros HN n. destruct (Next_empty _ _ HN) as [[Hpast ->]|Hno].
  - assert (after n o = o) as ->; [|by rewrite Next_past_maxt].
    induction n as [|n IH]; [done|].
    rewrite after_S, IH.
    change (opNext o) with (scan.Next o). by rewrite Next_past_maxt.
  - apply Next_no_steps.
    assert (∀ o0 : selector, scan.numSteps (after n o0) = scan.numSteps o0)
      as Hn.
    { intros o0. induction n as [|n IH]; [done|].
      rewrite after_S.
      change (opNext ?x) with (scan.Next x). by rewrite numSteps_Next, IH. }
    rewrite Hn. pose proof (numSteps_Next o) as Hs.
    rewrite HN in Hs. simpl in Hs. lia.
Qed.

(** *** What [Next] returns *)

Lemma series_loadSeries (o : selector) :
  scan.once o = false ∨ scan.series o = [[]] →
  scan.series (scan.loadSeries o) = [[]].
Proof.
  unfold scan.loadSeries. intros [H|H].
  - rewrite H. simpl. by destruct (scan.call o).
  - destruct (scan.once o); [done|]. simpl. by destruct (scan.call o).
Qed.

Lemma stepVectorAt_loadSeries (o : selector) ts :
  stepVectorAt (scan.loadSeries o) ts = stepVectorAt o ts.
Proof. unfold scan.loadSeries. by destruct (scan.once o). Qed.

Lemma step_loadSeries (o : selector) :
  scan.step (scan.loadSeries o) = scan.step o.
Proof. unfold scan.loadSeries. by destruct (scan.once o). Qed.

Lemma visited_loadSeries (o : selector) n : ∀ ts,
  visited (scan.loadSeries o) n ts = visited o n ts.
Proof.
  induction n as [|n IH]; intros ts; [done|].
  cbn [visited]. by rewrite maxt_loadSeries, step_loadSeries, IH.
Qed.

Lemma nextStep_spec (o : selector) currStep ts vectors :
  scan.series o = [[]] → length vectors = currStep →
  scan.nextStep o currStep ts vectors = Ok (vectors ++ [stepVectorAt o ts]).
Proof.
  intros Hs Hlen. unfold scan.nextStep, stepVectorAt, stepSample.
  rewrite decide_True by lia. rewrite Hs.
  assert (index (vectors ++ [GetStepVector (float64:=float64) ts]) currStep
          = Ok (GetStepVector ts)) as Hi.
  { apply index_Some. rewrite lookup_app_r by lia.
    by replace (currStep - length vectors)%nat with 0%nat by lia. }
  assert (∀ v : StepVector float64,
    assign (vectors ++ [GetStepVector ts]) currStep v
    = Ok (vectors ++ [v])) as Ha.
  { intros v. rewrite assign_lt by (rewrite length_app; simpl; lia).
    rewrite insert_app_r_alt by lia.
    by replace (currStep - length vectors)%nat with 0%nat by lia. }
  destruct (scan.call o) as [f|]; simpl; rewrite Hi; simpl; by rewrite Ha.
Qed.

Lemma nextLoop_spec (o : selector) remaining : ∀ currStep ts vectors,
  scan.series o = [[]] → length vectors = currStep →
  scan.nextLoop o remaining currStep ts vectors
  = Ok (vectors ++ (stepVectorAt o <$> visited o remaining ts)).
Proof.
  induction remaining as [|n IH]; intros currStep ts vectors Hs Hlen.
  { simpl. by rewrite app_nil_r. }
  cbn [scan.nextLoop visited]. destruct (decide (ts ≤ scan.maxt o)).
  - rewrite nextStep_spec by done. simpl.
    rewrite (IH (S currStep)); [|done|rewrite length_app; simpl; lia].
    by rewrite <- app_assoc.
  - simpl. by rewrite app_nil_r.
Qed.

(** Within the range of time, [Next] returns the step vectors of the
    timestamps it goes through and moves on by [numSteps] steps. *)
Lemma Next_spec (o : selector) :
  ¬ scan.currentStep o > scan.maxt o →
  scan.once o = false ∨ scan.series o = [[]] →
  scan.Next o
  = (Ok (stepVectorAt o
           <$> visited o (Z.to_nat (scan.numSteps o)) (scan.currentStep o)),
     scan.withCurrentStep
       (scan.int64 (scan.currentStep o
                    + scan.int64 (scan.step o * scan.numSteps o)))
       (scan.loadSeries o)).
Proof.
  intros Hin Hwf. unfold scan.Next. rewrite decide_False by done.
  rewrite nextLoop_spec by (by rewrite ?series_loadSeries).
  rewrite numSteps_loadSeries, currentStep_loadSeries, visited_loadSeries.
  simpl. f_equal.
  - f_equal. apply list_fmap_ext. intros _ ts _.
    apply stepVectorAt_loadSeries.
  - unfold scan.loadSeries. by destruct (scan.once o).
Qed.


(** [Series] returns one label set. *)
Lemma Series_one_label_set (o : selector) :
  scan.once o = false ∨ scan.series o = [[]] →
  (scan.Series o).1 = Ok [[]].
Proof. intros Hwf. unfold scan.Series. simpl. by rewrite series_loadSeries. Qed.

End numberLiteralSelector_facts.

(** ** [Next] of the binary operator *)

Section Next_facts.
Context {float64 : Type}.
Context (HashWithoutLabels HashForLabels : Labels → list string → N).
Context (rangeKeys : gset N → list N).
Context {sample tableT ItemType : Type} (zeroSample : sample).
Context (newTable : VectorMatchCardinality → ItemType → list sample →
                    list (option N) → list (list N) → outcome tableT).
Context (execBinaryOperation :
  tableT → StepVector float64 → StepVector float64 →
  option (StepVector float64 * tableT)).
Context {L R : Type}.
Context `{!VectorOperator float64 L, !VectorOperator float64 R}.

Local Abbreviation operator :=
  (@binary.vectorOperator sample tableT ItemType L R).
Local Abbreviation initOutputs :=
  (binary.initOutputs (float64:=float64) (L:=L) (R:=R)
     HashWithoutLabels HashForLabels rangeKeys zeroSample newTable).
Local Abbreviation onceInitOutputs :=
  (binary.onceInitOutputs (float64:=float64) (L:=L) (R:=R)
     HashWithoutLabels HashForLabels rangeKeys zeroSample newTable).
Local Abbreviation Next :=
  (binary.Next (L:=L) (R:=R) HashWithoutLabels HashForLabels rangeKeys
     zeroSample newTable execBinaryOperation).
Local Abbreviation nextStep := (binary.nextStep execBinaryOperation).

Lemma Next_unfold (o : operator) :
  Next o
  = match opNext (binary.lhs o) with
    | (Ok lhs, l) =>
      match opNext (binary.rhs o) with
      | (Ok rhs, r) =>
        let o1 := binary.withChildren l r o in
        if decide (length lhs = 0%nat ∨ length rhs = 0%nat) then (Ok [], o1)
        else
          match onceInitOutputs o1 with
          | (Ok _, o2) =>
            match binary.forRange (nextStep lhs rhs) 0 lhs
                    ([], binary.table o2) with
            | Ok (batch, t) => (Ok batch, binary.withTable t o2)
            | Err e => (Err e, o2)
            | Panic msg => (Panic msg, o2)
            end
          | (Err e, o2) => (Err e, o2)
          | (Panic msg, o2) => (Panic msg, o2)
          end
      | (Err e, r) => (Err e, binary.withChildren l r o)
      | (Panic msg, r) => (Panic msg, binary.withChildren l r o)
      end
    | (Err e, l) => (Err e, binary.withChildren l (binary.rhs o) o)
    | (Panic msg, l) => (Panic msg, binary.withChildren l (binary.rhs o) o)
    end.
Proof.
  unfold binary.Next, mbind, action_bind, binary.lhsNext, binary.rhsNext,
    binary.get, binary.modify, lift, mret, action_ret.
  destruct (opNext (binary.lhs o)) as [[lhs|e|msg] l]; try done.
  cbn [binary.rhs binary.withChildren binary.lhs].
  destruct (opNext (binary.rhs o)) as [[rhs|e|msg] r]; try done.
  cbn zeta. destruct (decide _) as [Hd|Hd]; [done|].
  destruct (onceInitOutputs _) as [[[]|e|msg] o2]; try done.
  unfold GetVectorBatch.
  by destruct (binary.forRange _ _ _ _) as [[batch t]|e|msg].
Qed.

(** The step loop returns no error, and a batch with a step for each step
    vector of [lhs]. *)
Lemma nextStep_loop lhs rhs suffix : ∀ i batch t,
  match binary.forRange (nextStep lhs rhs) i suffix (batch, t) with
  | Ok (batch', _) => length batch' = (length batch + length suffix)%nat
  | Err _ => False
  | Panic _ => True
  end.
Proof.
  induction suffix as [|v suffix IH]; intros i batch t.
  { simpl. lia. }
  cbn [binary.forRange]. unfold binary.nextStep at 2.
  destruct (index lhs i) as [l| |] eqn:El; simpl;
    [|unfold index in El; by destruct (lhs !! i)|done].
  destruct (index rhs i) as [r| |] eqn:Er; simpl;
    [|unfold index in Er; by destruct (rhs !! i)|done].
  destruct t as [t|]; simpl; [|done].
  destruct (execBinaryOperation t l r) as [[step t']|]; simpl; [|done].
  specialize (IH (S i) (batch ++ [step]) (Some t')).
  destruct (binary.forRange _ _ _ _) as [[batch' t'']| |]; [|done..].
  rewrite IH, length_app. simpl. lia.
Qed.

(** The step loop reads [rhs[i]] for every [i < len(lhs)]: it panics when
    [rhs] is the shorter batch. *)
Lemma nextStep_loop_short lhs rhs suffix : ∀ i st,
  (i ≤ length rhs)%nat → (length rhs < i + length suffix)%nat →
  is_Panic (binary.forRange (nextStep lhs rhs) i suffix st).
Proof.
  induction suffix as [|v suffix IH]; intros i [batch t] Hi Hlen.
  { simpl in Hlen. lia. }
  cbn [binary.forRange]. unfold binary.nextStep at 2.
  destruct (index lhs i) as [l| |] eqn:El; simpl;
    [|unfold index in El; by destruct (lhs !! i)|done].
  destruct (decide (i < length rhs)%nat) as [Hlt|Hge].
  - destruct (lookup_lt_is_Some_2 rhs i Hlt) as [r Hr].
    rewrite (index_Some _ _ _ Hr). simpl.
    destruct t as [t|]; simpl; [|done].
    destruct (execBinaryOperation t l r) as [[step t']|]; simpl; [|done].
    apply IH; simpl in Hlen; lia.
  - rewrite index_None by lia. done.
Qed.

Lemma onceInitOutputs_once (o : operator) :
  binary.once o = true → onceInitOutputs o = (Ok (), o).
Proof. unfold binary.onceInitOutputs. by intros ->. Qed.

Lemma onceInitOutputs_first (o : operator) :
  binary.once o = false →
  onceInitOutputs o = initOutputs (binary.withOnce o).
Proof. unfold binary.onceInitOutputs. by intros ->. Qed.

(** The branch of [Next] for an empty batch. *)
Lemma Next_empty_batch (o : operator) lhs rhs l r :
  opNext (binary.lhs o) = (Ok lhs, l) →
  opNext (binary.rhs o) = (Ok rhs, r) →
  length lhs = 0%nat ∨ length rhs = 0%nat →
  Next o = (Ok [], binary.withChildren l r o).
Proof.
  intros Hl Hr Hempty. rewrite Next_unfold, Hl, Hr. cbn zeta.
  by rewrite decide_True.
Qed.

(** An error of a child is returned as it is, whatever the batch of the
    other child: the right child is not called after an error of the left
    one. *)
Lemma Next_child_error (o : operator) :
  (∀ e l, opNext (binary.lhs o) = (Err e, l) →
     Next o = (Err e, binary.withChildren l (binary.rhs o) o))
  ∧ (∀ lhs l e r,
       opNext (binary.lhs o) = (Ok lhs, l) →
       opNext (binary.rhs o) = (Err e, r) →
       Next o = (Err e, binary.withChildren l r o)).
Proof.
  split.
  - intros e l Hl. by rewrite Next_unfold, Hl.
  - intros lhs l e r Hl Hr. by rewrite Next_unfold, Hl, Hr.
Qed.

(** C5, as the code has it. When neither child returns an error and one of
    the two batches is empty, [Next] has called [Next] on both children (the
    operator holds both children as they are after their calls), does not
    start the initialization, and returns an empty batch and no error. An
    error of a child is returned as it is, before the batches are looked at:
    the error of the left child without a call of the right child, and the
    error of the right child whatever the batch of the left child, the empty
    batch included. *)
Theorem Next_empty_child (o : operator) :
  (∀ lhs rhs l r,
     opNext (binary.lhs o) = (Ok lhs, l) →
     opNext (binary.rhs o) = (Ok rhs, r) →
     lhs = [] ∨ rhs = [] →
     Next o = (Ok [], binary.withChildren l r o)
     ∧ binary.lhs (Next o).2 = (opNext (binary.lhs o)).2
     ∧ binary.rhs (Next o).2 = (opNext (binary.rhs o)).2
     ∧ binary.once (Next o).2 = binary.once o)
  ∧ (∀ e l, opNext (binary.lhs o) = (Err e, l) →
       Next o = (Err e, binary.withChildren l (binary.rhs o) o))
  ∧ (∀ lhs l e r,
       opNext (binary.lhs o) = (Ok lhs, l) →
       opNext (binary.rhs o) = (Err e, r) →
       Next o = (Err e, binary.withChildren l r o)).
Proof.
  split; [|apply Next_child_error].
  intros lhs rhs l r Hl Hr Hempty.
  rewrite (Next_empty_batch o lhs rhs l r Hl Hr), Hl, Hr; [done|].
  destruct Hempty as [-> | ->]; auto.
Qed.

(** C2, as the code has it. [Next] does not look at the timestamps of the
    step vectors. When both children return batches that are not empty, it
    returns a step for each step vector of [lhs] or panics, and the only
    errors it can return are those of the initialization it runs on first
    use; once initialized it returns no error. *)
Theorem Next_no_alignment_error (o : operator) lhs rhs l r :
  opNext (binary.lhs o) = (Ok lhs, l) →
  opNext (binary.rhs o) = (Ok rhs, r) →
  lhs ≠ [] → rhs ≠ [] →
  (binary.once o = true → ¬ is_Err (Next o).1)
  ∧ (∀ e, (Next o).1 = Err e →
       binary.once o = false
       ∧ (initOutputs (binary.withOnce (binary.withChildren l r o))).1
         = Err e)
  ∧ (∀ batch, (Next o).1 = Ok batch → length batch = length lhs).
Proof.
  intros Hl Hr Hlhs Hrhs. rewrite Next_unfold, Hl, Hr. cbn zeta.
  rewrite decide_False.
  2:{ intros [H|H]; apply length_zero_iff_nil in H; done. }
  pose proof (nextStep_loop lhs rhs lhs 0 []) as Hloop.
  destruct (binary.once o) eqn:Eo.
  - rewrite onceInitOutputs_once by done.
    specialize (Hloop (binary.table (binary.withChildren l r o))).
    destruct (binary.forRange _ _ _ _) as [[batch t]|e|msg];
      simpl; split_and!; try done; try tauto.
    by intros b [= <-].
  - rewrite onceInitOutputs_first by done.
    destruct (initOutputs _) as [[[]|e|msg] o2]; simpl.
    + specialize (Hloop (binary.table o2)).
      destruct (binary.forRange _ _ _ _) as [[batch t]|e|msg];
        simpl; split_and!; try done.
      by intros b [= <-].
    + split_and!; try done. by intros e' [= <-].
    + done.
Qed.

(** An initialized operator whose children return batches that are not
    empty returns a step for each step vector of [lhs], or panics. *)
Lemma Next_initialized (o : operator) lhs rhs l r :
  opNext (binary.lhs o) = (Ok lhs, l) →
  opNext (binary.rhs o) = (Ok rhs, r) →
  lhs ≠ [] → rhs ≠ [] → binary.once o = true →
  match (Next o).1 with
  | Ok batch => length batch = length lhs
  | Err _ => False
  | Panic _ => True
  end.
Proof.
  intros Hl Hr Hlhs Hrhs Ho. rewrite Next_unfold, Hl, Hr. cbn zeta.
  rewrite decide_False.
  2:{ intros [H|H]; apply length_zero_iff_nil in H; done. }
  rewrite onceInitOutputs_once by done.
  pose proof (nextStep_loop lhs rhs lhs 0 []
                (binary.table (binary.withChildren l r o))) as Hloop.
  by destruct (binary.forRange _ _ _ _) as [[batch t]|e|msg].
Qed.

(** X15. When the batch of [rhs] is shorter than the batch of [lhs], the
    step loop of an initialized operator reads [rhs] out of range. *)
Lemma Next_rhs_out_of_range (o : operator) lhs rhs l r :
  opNext (binary.lhs o) = (Ok lhs, l) →
  opNext (binary.rhs o) = (Ok rhs, r) →
  rhs ≠ [] → (length rhs < length lhs)%nat →
  binary.once o = true →
  is_Panic (Next o).1.
Proof.
  intros Hl Hr Hrhs Hlen Ho. rewrite Next_unfold, Hl, Hr. cbn zeta.
  rewrite decide_False.
  2:{ intros [H|H]; [lia|]. by apply length_zero_iff_nil in H. }
  rewrite onceInitOutputs_once by done.
  pose proof (nextStep_loop_short lhs rhs lhs 0
    ([], binary.table (binary.withChildren l r o))) as H.
  destruct (binary.forRange _ _ _ _) as [[batch t]|e|msg]; simpl in *;
    apply H; lia.
Qed.

(** An empty batch without error comes from an empty batch of a child. *)
Lemma Next_empty_inv (o o' : operator) :
  Next o = (Ok [], o') →
  ∃ lhs rhs l r,
    opNext (binary.lhs o) = (Ok lhs, l)
    ∧ opNext (binary.rhs o) = (Ok rhs, r)
    ∧ (lhs = [] ∨ rhs = [])
    ∧ o' = binary.withChildren l r o.
Proof.
  rewrite Next_unfold.
  destruct (opNext (binary.lhs o)) as [[lhs|e|msg] l]; [|done..].
  destruct (opNext (binary.rhs o)) as [[rhs|e|msg] r]; [|done..].
  cbn zeta. destruct (decide _) as [Hd|Hd].
  - intros [= <-]. exists lhs, rhs, l, r.
    split_and!; try done.
    destruct Hd as [Hd|Hd]; apply length_zero_iff_nil in Hd; auto.
  - destruct (onceInitOutputs _) as [[[]|e|msg] o2]; [|done..].
    pose proof (nextStep_loop lhs rhs lhs 0 [] (binary.table o2)) as Hloop.
    destruct (binary.forRange _ _ _ _) as [[batch t]|e|msg]; [|done..].
    intros [= -> _]. simpl in Hloop. destruct Hd. left. lia.
Qed.

Local Abbreviation afterNext n o :=
  (@after float64 operator
     (binary.vectorOperator_operator HashWithoutLabels HashForLabels
        rangeKeys zeroSample newTable execBinaryOperation) n o).

(** Once a child is at the end of its stream and stays there, and no child
    returns an error or panics, the operator returns empty batches. *)
Lemma Next_children_ended (o : operator) :
  (∀ j, is_Ok (opNext (after j (binary.lhs o))).1) →
  (∀ j, is_Ok (opNext (after j (binary.rhs o))).1) →
  (∀ j, (opNext (after j (binary.lhs o))).1 = Ok [])
  ∨ (∀ j, (opNext (after j (binary.rhs o))).1 = Ok []) →
  ∀ n, binary.lhs (afterNext n o) = after n (binary.lhs o)
       ∧ binary.rhs (afterNext n o) = after n (binary.rhs o)
       ∧ (Next (afterNext n o)).1 = Ok [].
Proof.
  intros Hl Hr Hended.
  assert (∀ n (o0 : operator),
    binary.lhs o0 = after n (binary.lhs o) →
    binary.rhs o0 = after n (binary.rhs o) →
    Next o0
    = (Ok [], binary.withChildren (after (S n) (binary.lhs o))
                (after (S n) (binary.rhs o)) o0)) as Hstep.
  { intros n o0 Hl0 Hr0. specialize (Hl n). specialize (Hr n).
    destruct (opNext (after n (binary.lhs o))) as [[lb| |] l] eqn:El;
      [|done..].
    destruct (opNext (after n (binary.rhs o))) as [[rb| |] r] eqn:Er;
      [|done..].
    rewrite !after_S, El, Er. apply (Next_empty_batch o0 lb rb).
    - by rewrite Hl0.
    - by rewrite Hr0.
    - destruct Hended as [H|H]; specialize (H n).
      + rewrite El in H. left. by injection H as ->.
      + rewrite Er in H. right. by injection H as ->. }
  assert (∀ n, binary.lhs (afterNext n o) = after n (binary.lhs o)
               ∧ binary.rhs (afterNext n o) = after n (binary.rhs o))
    as Hchildren.
  { induction n as [|n [IHl IHr]]; [done|].
    rewrite (after_S n o).
    change (opNext (afterNext n o)) with (Next (afterNext n o)).
    by rewrite (Hstep n _ IHl IHr). }
  intros n. destruct (Hchildren n) as [H1 H2].
  split; [done|]. split; [done|]. by rewrite (Hstep n _ H1 H2).
Qed.


(** C6, as the code has it. The number-literal selector keeps to the end of
    its stream. The binary operator does so when its two children do, from
    the call on that returned the empty batch, and neither of them returns an
    error or panics afterwards. The errors of the children are passed on by
    every call of [Next], those after an empty batch included. *)
Theorem Next_after_end_of_stream :
  endsForGood (scan.numberLiteralSelector float64)
  ∧ (∀ o o' : operator,
       keepsToEnd (binary.lhs o) → keepsToEnd (binary.rhs o) →
       Next o = (Ok [], o') →
       (∀ j, is_Ok (opNext (after j (binary.lhs o'))).1) →
       (∀ j, is_Ok (opNext (after j (binary.rhs o'))).1) →
       ∀ n, (Next (afterNext n o')).1 = Ok [])
  ∧ (∀ (o : operator) e,
       (opNext (binary.lhs o)).1 = Err e
       ∨ (is_Ok (opNext (binary.lhs o)).1
          ∧ (opNext (binary.rhs o)).1 = Err e) →
       (Next o).1 = Err e).
Proof.
  split; [|split].
  { intros s Hs n. apply (Next_stays_empty s (opNext s).2).
    change (opNext s) with (scan.Next s) in *.
    destruct (scan.Next s) as [res s']. simpl in Hs. by rewrite Hs. }
  - intros o o' HL HR Hnext Hl Hr n.
    destruct (Next_empty_inv o o' Hnext)
      as (lb & rb & l & r & El & Er & He & ->).
    apply Next_children_ended; [done..|].
    simpl. unfold keepsToEnd in HL, HR.
    destruct He as [-> | ->]; [left|right]; intros j.
    + rewrite El in HL. by apply HL.
    + rewrite Er in HR. by apply HR.
  - intros o e [Hl|[Hl Hr]].
    + destruct (opNext (binary.lhs o)) as [res l] eqn:El. simpl in Hl.
      subst res. by rewrite (proj1 (Next_child_error o) e l El).
    + destruct (opNext (binary.lhs o)) as [[lhs| |] l] eqn:El; [|done..].
      destruct (opNext (binary.rhs o)) as [res r] eqn:Er. simpl in Hr.
      subst res. by rewrite (proj2 (Next_child_error o) lhs l e r El Er).
Qed.

End Next_facts.

(** ** The steps of a range query *)

Lemma drain_S {float64} (o o' : scan.numberLiteralSelector float64) batch n :
  scan.Next o = (Ok batch, o') → batch ≠ [] →
  drain (S n) o = batch ++ drain n o'.
Proof. intros H Hne. cbn [drain]. rewrite H. by destruct batch. Qed.

Lemma int64_small z : - 2 ^ 63 ≤ z < 2 ^ 63 → scan.int64 z = z.
Proof. intros H. unfold scan.int64. rewrite Z.mod_small; lia. Qed.

Lemma float64OfInt_small x : Z.abs x < 2 ^ 53 → scan.float64OfInt x = x.
Proof. intros H. unfold scan.float64OfInt. by rewrite decide_True. Qed.

Section range_query.
Context {float64 : Type}.
Context (mint maxt step stepsBatch : Z) (val : float64).
Context (call : option (scan.FunctionCall float64)).
Hypothesis Hmint : 0 ≤ mint ≤ maxt.
Hypothesis Hstep : 0 < step.
Hypothesis HstepsBatch : 1 ≤ stepsBatch < 2 ^ 53.
Hypothesis Htotal : (maxt - mint) `div` step + 1 < 2 ^ 53.
Hypothesis Hmaxt : maxt + step * stepsBatch < 2 ^ 63.

Local Abbreviation selector := (scan.numberLiteralSelector float64).
Local Abbreviation fresh :=
  (scan.NewNumberLiteralSelector mint maxt step stepsBatch val call).
Local Abbreviation last := ((maxt - mint) `div` step).
Local Abbreviation perBatch := (Z.min stepsBatch (last + 1)).
Local Abbreviation timeOf k := (mint + k * step).
Local Abbreviation timesOf l := ((λ k : Z, mint + k * step) <$> l).

(** The selector when it is at step [j]. *)
Local Abbreviation atStep j :=
  (scan.withCurrentStep (mint + j * step) (scan.loadSeries fresh)).

Lemma last_bounds :
  0 ≤ last ∧ mint + last * step ≤ maxt ∧ maxt < mint + (last + 1) * step.
Proof.
  pose proof (Z.mul_div_le (maxt - mint) step Hstep).
  pose proof (Z.mul_succ_div_gt (maxt - mint) step Hstep).
  assert (0 ≤ last) by (apply Z.div_pos; lia).
  split; [done|]. split; nia.
Qed.

Lemma timeOf_le_maxt j : timeOf j ≤ maxt ↔ j ≤ last.
Proof. destruct last_bounds as (H1 & H2 & H3). split; nia. Qed.

Lemma numSteps_atStep j : scan.numSteps (atStep j) = perBatch.
Proof.
  destruct last_bounds as (H1 & H2 & H3).
  unfold scan.numSteps, scan.totalSteps, scan.intOfFloat64. simpl.
  rewrite decide_True by lia.
  rewrite (int64_small (maxt - mint)) by lia.
  rewrite Z.quot_div_nonneg by lia.
  rewrite (int64_small last) by lia.
  rewrite (int64_small (last + 1)) by lia.
  rewrite !float64OfInt_small by lia.
  apply int64_small. lia.
Qed.

Lemma visited_atStep j0 n : ∀ j,
  0 ≤ j →
  visited (atStep j0) n (timeOf j)
  = timesOf (seqZ j (Z.min (Z.of_nat n) (last + 1 - j))).
Proof.
  destruct last_bounds as (H1 & H2 & H3).
  induction n as [|n IH]; intros j Hj.
  { rewrite seqZ_nil by lia. done. }
  cbn [visited]. simpl scan.maxt. simpl scan.step.
  destruct (decide (timeOf j ≤ maxt)) as [Hin|Hout].
  - apply timeOf_le_maxt in Hin as Hle.
    rewrite seqZ_cons by lia. rewrite fmap_cons. f_equal.
    rewrite int64_small by nia.
    replace (mint + j * step + step) with (timeOf (Z.succ j)) by lia.
    rewrite IH by lia. do 2 f_equal. lia.
  - rewrite timeOf_le_maxt in Hout. rewrite seqZ_nil by lia. done.
Qed.

Lemma Next_atStep j :
  0 ≤ j ≤ last →
  scan.Next (atStep j)
  = (Ok (stepVectorAt fresh
           <$> timesOf (seqZ j (Z.min perBatch (last + 1 - j)))),
     atStep (j + perBatch)).
Proof.
  intros Hj. destruct last_bounds as (H1 & H2 & H3).
  rewrite Next_spec.
  2:{ simpl. pose proof (proj2 (timeOf_le_maxt j)). lia. }
  2:{ right. simpl. by destruct call. }
  rewrite numSteps_atStep. f_equal.
  - change (scan.currentStep (atStep j)) with (timeOf j).
    rewrite visited_atStep by lia. rewrite Z2Nat.id by lia. done.
  - unfold scan.withCurrentStep, scan.loadSeries. simpl. f_equal.
    rewrite (int64_small (step * perBatch)) by nia.
    rewrite int64_small by nia. lia.
Qed.

Lemma Next_atStep_past j : last < j → scan.Next (atStep j) = (Ok [], atStep j).
Proof.
  intros Hj. apply Next_past_maxt. simpl.
  pose proof (proj1 (timeOf_le_maxt j)). lia.
Qed.

Lemma drain_atStep (m : nat) : ∀ j,
  0 ≤ j → (Z.to_nat (last + 1 - j) ≤ m)%nat →
  ∃ calls,
    (∀ n, (calls ≤ n)%nat →
       drain n (atStep j)
       = stepVectorAt fresh <$> timesOf (seqZ j (last + 1 - j)))
    ∧ (scan.Next (after calls (atStep j))).1 = Ok [].
Proof.
  destruct last_bounds as (H1 & H2 & H3).
  assert (∀ j, last < j →
    ∃ calls,
      (∀ n, (calls ≤ n)%nat →
         drain n (atStep j)
         = stepVectorAt fresh <$> timesOf (seqZ j (last + 1 - j)))
      ∧ (scan.Next (after calls (atStep j))).1 = Ok []) as Hpast.
  { intros j Hj. exists 0%nat. split.
    - intros n _. rewrite seqZ_nil by lia.
      destruct n as [|n]; [done|]. simpl. by rewrite Next_atStep_past.
    - simpl. by rewrite Next_atStep_past. }
  induction m as [|m IH]; intros j Hj Hm.
  { apply Hpast. lia. }
  destruct (decide (last < j)) as [|Hin]; [by apply Hpast|].
  destruct (IH (j + perBatch)) as (calls & Hdrain & Hend); [lia|lia|].
  exists (S calls). split.
  - intros [|n] Hn; [lia|].
    rewrite (drain_S _ _ _ _ (Next_atStep j ltac:(lia))).
    2:{ rewrite (seqZ_cons j (Z.min _ _)) by lia. by rewrite !fmap_cons. }
    rewrite Hdrain by lia.
    rewrite <- !fmap_app. do 2 f_equal.
    destruct (decide (perBatch ≤ last + 1 - j)) as [Hle|Hgt].
    + rewrite Z.min_l by lia. rewrite <- seqZ_app by lia.
      f_equal. lia.
    + rewrite Z.min_r by lia. rewrite (seqZ_nil (j + _)) by lia.
      by rewrite app_nil_r.
  - rewrite after_S_r. change (opNext ?o) with (scan.Next o).
    by rewrite Next_atStep by lia.
Qed.

(** X22. The steps of a range query (the part of C4 that holds). For
    [step > 0] (and times and batch sizes in the range in which the
    arithmetic of [Next] is exact), the step vectors of all calls of [Next]
    are those of the timestamps [mint + k * step] for
    [0 <= k <= (maxt - mint) / step], each once and in this order; after them,
    [Next] returns empty batches. *)
Lemma range_query_steps :
  ∃ calls,
    (∀ n, (calls ≤ n)%nat →
       drain n fresh = stepVectorAt fresh <$> progression mint maxt step)
    ∧ (∀ n, (calls ≤ n)%nat → (scan.Next (after n fresh)).1 = Ok []).
Proof.
  destruct last_bounds as (H1 & H2 & H3).
  assert (atStep 0 = scan.loadSeries fresh) as H0.
  { unfold scan.withCurrentStep, scan.loadSeries. simpl. f_equal. lia. }
  assert (scan.Next fresh = scan.Next (scan.loadSeries fresh)) as HN.
  { rewrite (Next_spec fresh) by (simpl; (lia || by left)).
    rewrite (Next_spec (scan.loadSeries fresh));
      [|simpl; lia|right; simpl; by destruct call].
    rewrite numSteps_loadSeries, currentStep_loadSeries, step_loadSeries.
    rewrite visited_loadSeries. f_equal. }
  destruct (drain_atStep (Z.to_nat (last + 1)) 0) as (calls & Hdrain & Hend);
    [lia|lia|].
  rewrite H0, Z.sub_0_r in Hdrain. rewrite H0 in Hend.
  exists (S calls). split.
  - intros [|n] Hn; [lia|]. cbn [drain]. rewrite HN.
    specialize (Hdrain (S n) ltac:(lia)). cbn [drain] in Hdrain.
    exact Hdrain.
  - intros n Hn.
    assert (∀ k, after (S k) fresh = after (S k) (scan.loadSeries fresh))
      as Hafter.
    { intros k. rewrite !after_S_r.
      change (opNext ?o) with (scan.Next o). by rewrite HN. }
    destruct n as [|n]; [lia|]. rewrite Hafter.
    replace (S n) with ((S n - calls) + calls)%nat by lia.
    destruct (S n - calls)%nat as [|d] eqn:Ed; [done|].
    unfold after. rewrite Nat.iter_add.
    fold (after calls (scan.loadSeries fresh)).
    fold (after (S d) (after calls (scan.loadSeries fresh))).
    rewrite after_S_r.
    apply (Next_stays_empty (after calls (scan.loadSeries fresh))).
    change (opNext ?o) with (scan.Next o).
    destruct (scan.Next (after calls _)) as [res o']. simpl in *.
    by rewrite Hend.
Qed.

End range_query.

(** * Further properties *)

(** ** More on [signature] and [hashSeries] *)

#[local] Instance byName_transitive : Transitive byName.
Proof. intros a b c. unfold byName. apply transitivity. Qed.

Lemma StronglySorted_filter {A} (R : relation A) (P : A → Prop)
    `{!∀ x, Decision (P x)} (l : list A) :
  StronglySorted R l → StronglySorted R (filter P l).
Proof.
  induction l as [|a l IH]; [done|].
  intros [Ha Hl]%StronglySorted_cons. rewrite filter_cons.
  destruct (decide (P a)); [|by apply IH].
  apply StronglySorted_cons. split; [|by apply IH].
  apply Forall_forall. intros x [_ Hx]%list_elem_of_filter.
  by apply (proj1 (Forall_forall _ _) Ha).
Qed.

(** [Builder.Labels] keeps the order of the base. *)
Lemma BuilderLabels_filter b :
  BuilderLabels b = filter (λ l, Name l ∉ del b) (base b).
Proof.
  unfold BuilderLabels. destruct (del b) as [|n ns]; [|done].
  induction (base b) as [|l ls IH]; [done|].
  rewrite filter_cons, decide_True by apply not_elem_of_nil.
  by rewrite <- IH.
Qed.

(** The elements of a list with their positions, filtered: the positions go
    up. *)
Section filter_imap.
Context {A : Type} (P : nat * A → Prop) `{!∀ p, Decision (P p)}.

Lemma filter_imap_snoc (l : list A) x :
  filter P (imap pair (l ++ [x]))
  = filter P (imap pair l)
    ++ (if decide (P (length l, x)) then [(length l, x)] else []).
Proof.
  rewrite imap_app, filter_app. f_equal. simpl. rewrite Nat.add_0_r.
  rewrite filter_cons, filter_nil. done.
Qed.

Lemma elem_of_filter_imap (l : list A) p :
  p ∈ filter P (imap pair l) ↔ P p ∧ l !! p.1 = Some p.2.
Proof.
  rewrite list_elem_of_filter, elem_of_lookup_imap. split.
  - intros [Hp (i & x & -> & Hi)]. done.
  - intros [Hp Hl]. split; [done|]. exists p.1, p.2. by destruct p.
Qed.

Lemma filter_imap_ascending (l : list A) : ∀ a b pa pb,
  filter P (imap pair l) !! a = Some pa →
  filter P (imap pair l) !! b = Some pb →
  (a < b)%nat → (pa.1 < pb.1)%nat.
Proof.
  induction l as [|x l IH] using rev_ind; intros a b pa pb; [done|].
  rewrite filter_imap_snoc. intros Ha Hb Hlt.
  destruct (decide (b < length (filter P (imap pair l)))%nat) as [Hb'|Hb'].
  - rewrite lookup_app_l in Ha, Hb by lia. by eapply IH.
  - rewrite lookup_app_r in Hb by lia.
    destruct (decide (P (length l, x))); [|by rewrite lookup_nil in Hb].
    apply list_lookup_singleton_Some in Hb as [Hb0 <-].
    rewrite lookup_app_l in Ha by lia. simpl.
    apply list_elem_of_lookup_2, elem_of_filter_imap in Ha as [_ Ha].
    by eapply lookup_lt_Some.
Qed.

Lemma NoDup_filter_imap (l : list A) : NoDup (filter P (imap pair l)).*1.
Proof.
  apply NoDup_alt. intros a b i. rewrite !list_lookup_fmap.
  intros (pa & Ha & ->)%fmap_Some (pb & Hb & Hab)%fmap_Some.
  destruct (Nat.lt_trichotomy a b) as [Hlt|[->|Hlt]]; [|done|].
  - pose proof (filter_imap_ascending _ _ _ _ _ Ha Hb Hlt). lia.
  - pose proof (filter_imap_ascending _ _ _ _ _ Hb Ha Hlt). lia.
Qed.

End filter_imap.

Lemma filter_imap_snd {A} (P : A → Prop) `{!∀ x, Decision (P x)}
    (l : list A) :
  (filter (λ p, P p.2) (imap pair l)).*2 = filter P l.
Proof.
  induction l as [|x l IH] using rev_ind; [done|].
  rewrite filter_imap_snoc, fmap_app, IH, filter_app. f_equal.
  rewrite filter_cons, filter_nil. simpl. by destruct (decide (P x)).
Qed.

Section buckets_facts.
Context (HashWithoutLabels HashForLabels : Labels → list string → N).

Local Abbreviation signature :=
  (binary.signature HashWithoutLabels HashForLabels).

(** X1. The labels [signature] returns, for both sides and both kinds of
    matching: those of the series, in the order the series has them, without
    the metric name and without the names that have an empty value; on the
    high cardinality side of [on(L)] only the names in [L], on the low
    cardinality side of [ignoring(L)] without the names in [L]. The labels
    returned for a series that is sorted by name are sorted by name. *)
Theorem signature_labels metric without grouping keepLabels :
  let lbls := (signature metric without grouping keepLabels).2 in
  lbls = filter (λ l, Name l ≠ MetricName ∧ (Name l ∉ emptyNames metric)
                   ∧ (without = false → keepLabels = true →
                      Name l ∈ grouping)
                   ∧ (without = true → keepLabels = false →
                      Name l ∉ grouping)) metric
  ∧ (Sorted byName metric → Sorted byName lbls).
Proof.
  cbv zeta.
  assert (∃ lb, (signature metric without grouping keepLabels).2
                = BuilderLabels lb
              ∧ base lb = metric
              ∧ ∀ l, l ∈ metric →
                  (Name l ∉ del lb) ↔
                  Name l ≠ MetricName ∧ (Name l ∉ emptyNames metric)
                  ∧ (without = false → keepLabels = true → Name l ∈ grouping)
                  ∧ (without = true → keepLabels = false →
                     Name l ∉ grouping)) as (lb & -> & Hbase & Hiff).
  { unfold binary.signature. cbv zeta.
    destruct without, keepLabels; cbn [negb].
    - exists (Del [MetricName] (NewBuilder metric)).
      split; [done|]. split; [done|].
      intros l _. rewrite (elem_of_Del_NewBuilder HashWithoutLabels HashForLabels). intuition congruence.
    - exists (Del (grouping ++ [MetricName])
                (Del [MetricName] (NewBuilder metric))).
      split; [done|]. split; [done|].
      intros l _. change (del (Del ?ns ?b)) with (del b ++ ns).
      rewrite not_elem_of_app, (elem_of_Del_NewBuilder HashWithoutLabels HashForLabels), not_elem_of_app.
      rewrite list_elem_of_singleton. intuition congruence.
    - exists (Keep grouping (Del [MetricName] (NewBuilder metric))).
      split; [by destruct (decide _)|]. split; [done|].
      intros l Hl.
      rewrite (elem_of_Keep_del grouping
                 (Del [MetricName] (NewBuilder metric)) l Hl).
      rewrite (elem_of_Del_NewBuilder HashWithoutLabels HashForLabels). intuition congruence.
    - exists (Del [MetricName] (NewBuilder metric)).
      split; [by destruct (decide _)|]. split; [done|].
      intros l _. rewrite (elem_of_Del_NewBuilder HashWithoutLabels HashForLabels). intuition congruence. }
  rewrite BuilderLabels_filter, Hbase, (filter_ext_in _ _ metric Hiff).
  split; [done|]. intros Hsorted.
  apply StronglySorted_Sorted, StronglySorted_filter.
  apply Sorted_StronglySorted; [apply byName_transitive|done].
Qed.

Context (matching : VectorMatching).

Local Abbreviation hashSeries :=
  (binary.hashSeries HashWithoutLabels HashForLabels).
Local Abbreviation key := (joinKey HashWithoutLabels HashForLabels matching).
Local Abbreviation kept :=
  (retained HashWithoutLabels HashForLabels matching).
Local Abbreviation membersOf :=
  (members HashWithoutLabels HashForLabels matching).
Local Abbreviation mkSeries :=
  (seriesOf HashWithoutLabels HashForLabels matching).

Lemma members_lt series k p :
  p ∈ membersOf series k → (p.1 < length series)%nat.
Proof. intros [H _]%elem_of_members. by eapply lookup_lt_Some. Qed.

(** The series of a bucket are in the order of the input. *)
Lemma members_ascending series k a b pa pb :
  membersOf series k !! a = Some pa → membersOf series k !! b = Some pb →
  (a < b)%nat → (pa.1 < pb.1)%nat.
Proof. apply filter_imap_ascending. Qed.

Lemma NoDup_members series k : NoDup (membersOf series k).*1.
Proof. apply NoDup_filter_imap. Qed.

(** X2. [hashSeries] files every input series in one bucket: the buckets
    hold, all together, the input series once each (with the position in the
    input as id and the labels [signature] retains), no bucket is empty, and
    the index map has the ids of the buckets; it is the same for both
    sides ([keepLabels] set or not). *)
Theorem hashSeries_partition series keepLabels :
  let hashes := (hashSeries matching series keepLabels).1 in
  let inputIndex := (hashSeries matching series keepLabels).2 in
  mjoin (map_to_list hashes).*2
    ≡ₚ imap (λ i s, {| ID := N.of_nat i; Metric := kept keepLabels s |}) series
  ∧ (∀ k, hashes !! k ≠ Some [])
  ∧ inputIndex = (λ ss : list model.Series, ID <$> ss) <$> hashes
  ∧ inputIndex = (hashSeries matching series (negb keepLabels)).2.
Proof.
  cbv zeta. split; [|split; [|split]].
  - induction series as [|s series IH] using rev_ind; [done|].
    rewrite hashSeries_snoc, imap_app, <- IH. clear IH. simpl.
    rewrite Nat.add_0_r.
    set (hashes := (hashSeries matching series keepLabels).1).
    rewrite <- insert_delete_eq.
    rewrite map_to_list_insert by apply lookup_delete_eq.
    rewrite fmap_cons. cbn [snd mjoin list_join].
    destruct (hashes !! key s) as [b|] eqn:E; cbn [default].
    + rewrite <- (map_to_list_delete hashes (key s) b E).
      change (mjoin ((key s, b) :: ?l).*2) with (b ++ mjoin l.*2).
      unfold id. rewrite <- !app_assoc. f_equiv.
      apply Permutation_app_comm.
    + rewrite delete_id by done. simpl. apply Permutation_cons_append.
  - intros k. rewrite (proj1 (hashSeries_lookup _ _ _ _ _ _)).
    intros [Hne Hnil]%bucketOf_Some. symmetry in Hnil.
    by apply fmap_nil_inv in Hnil.
  - apply map_eq. intros k. rewrite lookup_fmap.
    destruct (hashSeries_lookup HashWithoutLabels HashForLabels matching
                series keepLabels k) as [-> ->].
    destruct (membersOf series k) as [|p ms]; simpl; [done|].
    by rewrite <- list_fmap_compose.
  - apply map_eq. intros k.
    by rewrite !(proj2 (hashSeries_lookup _ _ _ _ _ _)).
Qed.

(** X3. The bucket of a key holds the series of that signature, in the order
    of the input: each member is an input series with the key as signature,
    every such input series is a member, and the ids go up along the
    bucket. *)
Theorem hashSeries_bucket_order series keepLabels k ss :
  (hashSeries matching series keepLabels).1 !! k = Some ss →
  (∀ s, s ∈ ss ↔
     ∃ i m, series !! i = Some m ∧ key m = k
            ∧ s = {| ID := N.of_nat i; Metric := kept keepLabels m |})
  ∧ (∀ a b sa sb, ss !! a = Some sa → ss !! b = Some sb →
       (a < b)%nat → (ID sa < ID sb)%N).
Proof.
  rewrite (proj1 (hashSeries_lookup _ _ _ _ _ _)).
  intros [Hne ->]%bucketOf_Some. split.
  - intros s. rewrite list_elem_of_fmap. split.
    + intros ([i m] & -> & [Hi Hk]%elem_of_members). by exists i, m.
    + intros (i & m & Hi & Hk & ->). exists (i, m). split; [done|].
      by apply elem_of_members.
  - intros a b sa sb. rewrite !list_lookup_fmap.
    intros (pa & Ha & ->)%fmap_Some (pb & Hb & ->)%fmap_Some Hlt.
    pose proof (members_ascending _ _ _ _ _ _ Ha Hb Hlt). simpl. lia.
Qed.

(** X4. [on()] with no label: every series has the signature 0, so all of
    them are in the one bucket of key 0, and on the high cardinality side no
    label is retained. *)
Theorem hashSeries_on_nothing series keepLabels :
  On matching = true → MatchingLabels matching = [] → series ≠ [] →
  (hashSeries matching series keepLabels).1
    = {[ 0%N := imap (λ i s, {| ID := N.of_nat i;
                                Metric := kept keepLabels s |}) series ]}
  ∧ (hashSeries matching series keepLabels).2
    = {[ 0%N := N.of_nat <$> seq 0 (length series) ]}
  ∧ ∀ s, kept true s = [].
Proof.
  intros Hon Hls Hne.
  assert (∀ s, key s = 0%N) as Hkey.
  { intros s. unfold joinKey. rewrite signature_key, Hon, Hls. done. }
  assert (membersOf series 0 = imap pair series) as Hm.
  { unfold members. clear Hne.
    induction series as [|s series IH] using rev_ind; [done|].
    rewrite imap_app, filter_app, IH. f_equal. simpl.
    rewrite filter_cons_True by apply Hkey. done. }
  split; [|split].
  - apply map_eq. intros k.
    rewrite (proj1 (hashSeries_lookup _ _ _ _ _ _)).
    destruct (decide (k = 0%N)) as [->|Hk].
    + rewrite lookup_singleton_eq, Hm.
      destruct series as [|s series]; [done|]. unfold bucketOf.
      rewrite fmap_imap. done.
    + rewrite lookup_singleton_ne by done. apply bucketOf_None.
      destruct (membersOf series k) as [|p ms] eqn:E; [done|].
      assert (p ∈ membersOf series k) as [_ Hp]%elem_of_members
        by (rewrite E; left).
      by rewrite Hkey in Hp.
  - apply map_eq. intros k.
    rewrite (proj2 (hashSeries_lookup _ _ _ _ _ _)).
    destruct (decide (k = 0%N)) as [->|Hk].
    + rewrite lookup_singleton_eq, Hm.
      destruct series as [|s series]; [done|]. unfold bucketOf.
      rewrite fmap_imap. f_equal.
      rewrite <- (imap_seq_0 (s :: series) N.of_nat). done.
    + rewrite lookup_singleton_ne by done. apply bucketOf_None.
      destruct (membersOf series k) as [|p ms] eqn:E; [done|].
      assert (p ∈ membersOf series k) as [_ Hp]%elem_of_members
        by (rewrite E; left).
      by rewrite Hkey in Hp.
  - intros s. apply elem_of_nil_inv. intros l.
    rewrite elem_of_retained_high, Hon, Hls.
    intros (_ & _ & _ & Hin). specialize (Hin eq_refl).
    by apply not_elem_of_nil in Hin.
Qed.

End buckets_facts.

(** ** The indexes of [join] *)

Lemma elem_of_tagged bs p :
  p ∈ tagged bs ↔ ∃ e, e ∈ bs ∧ p.1 = e.1 ∧ p.2 ∈ e.2.
Proof.
  unfold tagged. rewrite list_elem_of_join. split.
  - intros (l & Hp & (e & -> & He)%list_elem_of_fmap).
    apply list_elem_of_fmap in Hp as (s & -> & Hs). by exists e.
  - intros (e & He & H1 & H2). exists ((e.1,.) <$> e.2). split.
    + apply list_elem_of_fmap. exists p.2. split; [|done].
      rewrite <- H1. by destruct p.
    + apply list_elem_of_fmap. by exists e.
Qed.

Lemma tagged_app bs1 bs2 : tagged (bs1 ++ bs2) = tagged bs1 ++ tagged bs2.
Proof. unfold tagged. by rewrite fmap_app, join_app. Qed.

Lemma tagged_cons k ss bs :
  tagged ((k, ss) :: bs) = ((k,.) <$> ss) ++ tagged bs.
Proof. done. Qed.

Lemma tagged_snd bs : (tagged bs).*2 = mjoin bs.*2.
Proof.
  induction bs as [|[k ss] bs IH]; [done|].
  rewrite tagged_cons, fmap_app, IH. simpl. f_equal.
  rewrite <- list_fmap_compose. apply list_fmap_id.
Qed.

Lemma joinSeries_Ok idx k lid out hi lo j s st' :
  binary.joinSeries idx k lid (out, hi, lo) j s = Ok st' →
  ∃ hid cur,
    default [] (idx !! k) !! j = Some hid
    ∧ (N.to_nat hid < length hi)%nat
    ∧ lo !! N.to_nat lid = Some cur
    ∧ st' = (out ++ [{| ID := N.of_nat (length out); Metric := Metric s |}],
             <[N.to_nat hid := Some (N.of_nat (length out))]> hi,
             <[N.to_nat lid := cur ++ [N.of_nat (length out)]]> lo).
Proof.
  unfold binary.joinSeries, index, assign.
  destruct (default [] (idx !! k) !! j) as [hid|] eqn:E1; simpl; [|done].
  destruct (decide (N.to_nat hid < length hi)%nat) as [H1|]; simpl; [|done].
  destruct (lo !! N.to_nat lid) as [cur|] eqn:E2; simpl; [|done].
  destruct (decide _); simpl; [|done]. intros [= <-].
  by exists hid, cur.
Qed.

Section join_index.
Context (lidOf : N → option N).

Lemma joinSeries_inv idx k lid ids tg out hi lo j s st' :
  idx !! k = Some ids → lidOf k = Some lid → ids !! j = Some (ID s) →
  ID s ∉ ID <$> tg.*2 →
  joinIndexInv lidOf tg (out, hi, lo) →
  binary.joinSeries idx k lid (out, hi, lo) j s = Ok st' →
  joinIndexInv lidOf (tg ++ [(k, s)]) st'.
Proof.
  intros Hk Hlid Hj Hnew (Hlen & Hhi & Hlo) Hstep.
  apply joinSeries_Ok in Hstep as (hid & cur & Hhid & Hlt & Hcur & ->).
  rewrite Hk in Hhid. simpl in Hhid. rewrite Hj in Hhid.
  injection Hhid as <-.
  split; [by rewrite !length_app, Hlen|]. split.
  - intros k0 p Hp. apply lookup_app_Some in Hp as [Hp|[Hge Hp]].
    + rewrite list_lookup_insert_ne; [by apply Hhi|].
      intros Heq. apply Hnew. apply list_elem_of_fmap. exists p.2.
      split; [by apply N2Nat.inj|].
      apply list_elem_of_fmap. exists p. split; [done|].
      by eapply list_elem_of_lookup_2.
    + apply list_lookup_singleton_Some in Hp as [Hk0 <-]. simpl.
      rewrite list_lookup_insert_eq by done. do 3 f_equal. lia.
  - intros j0 l Hl.
    destruct (decide (j0 = N.to_nat lid)) as [->|Hne].
    + rewrite list_lookup_insert_eq in Hl by (by eapply lookup_lt_Some).
      injection Hl as <-. destruct (Hlo _ _ Hcur) as [Hnd Hin].
      assert (∀ x, x ∈ cur → (N.to_nat x < length tg)%nat) as Hbound.
      { intros x (p & Hp & _)%Hin. by eapply lookup_lt_Some. }
      split.
      * apply NoDup_app. split; [done|]. split; [|apply NoDup_singleton].
        intros x Hx ->%list_elem_of_singleton.
        apply Hbound in Hx. lia.
      * intros x. rewrite elem_of_app, list_elem_of_singleton. split.
        -- intros [Hx| ->].
           ++ apply Hin in Hx as (p & Hp & Hpl). exists p.
              split; [by apply lookup_app_l_Some|done].
           ++ exists (k, s). split; [|by rewrite N2Nat.id].
              rewrite Nat2N.id, Hlen, lookup_app_r by lia.
              by rewrite Nat.sub_diag.
        -- intros (p & Hp & Hpl).
           apply lookup_app_Some in Hp as [Hp|[Hge Hp]].
           ++ left. apply Hin. by exists p.
           ++ right. apply list_lookup_singleton_Some in Hp as [Hx _].
              lia.
    + rewrite list_lookup_insert_ne in Hl by done.
      destruct (Hlo _ _ Hl) as [Hnd Hin]. split; [done|].
      intros x. rewrite Hin. split.
      * intros (p & Hp & Hpl). exists p.
        split; [by apply lookup_app_l_Some|done].
      * intros (p & Hp & Hpl).
        apply lookup_app_Some in Hp as [Hp|[Hge Hp]]; [by exists p|].
        apply list_lookup_singleton_Some in Hp as [_ <-]. simpl in Hpl.
        rewrite Hlid in Hpl. injection Hpl as ->.
        by rewrite Nat2N.id in Hne.
Qed.

Lemma joinSeries_loop_inv idx k lid ids ss :
  idx !! k = Some ids → lidOf k = Some lid →
  ∀ j0 tg st st',
  (∀ j s, ss !! j = Some s → ids !! (j0 + j)%nat = Some (ID s)) →
  NoDup (ID <$> (tg.*2 ++ ss)) →
  joinIndexInv lidOf tg st →
  binary.forRange (binary.joinSeries idx k lid) j0 ss st = Ok st' →
  joinIndexInv lidOf (tg ++ ((k,.) <$> ss)) st'.
Proof.
  intros Hk Hlid.
  induction ss as [|s ss IH]; intros j0 tg st st' Hss Hnd Hinv.
  { simpl. intros [= <-]. by rewrite app_nil_r. }
  destruct st as [[out hi] lo]. cbn [binary.forRange].
  destruct (binary.joinSeries idx k lid (out, hi, lo) j0 s) as [st1| |] eqn:E;
    simpl; [|done..].
  intros Hloop. rewrite ?fmap_cons, cons_middle, app_assoc.
  apply (IH (S j0) (tg ++ [(k, s)]) st1 st'); [| | |done].
  - intros j s0 Hj. specialize (Hss (S j) s0 Hj).
    by rewrite Nat.add_succ_r in Hss.
  - replace ((tg ++ [(k, s)]).*2 ++ ss) with (tg.*2 ++ s :: ss); [done|].
    by rewrite (fmap_app snd), <- app_assoc.
  - eapply joinSeries_inv; [done|done| | |done|done].
    + specialize (Hss 0%nat s eq_refl). by rewrite Nat.add_0_r in Hss.
    + rewrite fmap_app in Hnd. apply NoDup_app in Hnd as (_ & Hnd & _).
      intros Hin. apply (Hnd _ Hin). left.
Qed.

End join_index.

Lemma joinBucket_inv hidx lidx k ss tg st st' :
  hidx !! k = Some (ID <$> ss) →
  (∀ p, p ∈ tg → lowCardSeriesID lidx p.1 ≠ lowCardSeriesID lidx k) →
  NoDup (ID <$> (tg.*2 ++ ss)) →
  joinIndexInv (lowCardSeriesID lidx) tg st →
  binary.joinBucket hidx lidx st (k, ss) = Ok st' →
  joinIndexInv (lowCardSeriesID lidx) (tg ++ ((k,.) <$> ss)) st'.
Proof.
  intros Hk Hfresh Hnd Hinv. destruct st as [[out hi] lo].
  unfold binary.joinBucket. unfold index at 1.
  destruct (default [] (lidx !! k) !! 0%nat) as [lid|] eqn:Elid;
    simpl; [|done].
  unfold assign at 1.
  destruct (decide (N.to_nat lid < length lo)%nat) as [Hlt|]; simpl; [|done].
  assert (lowCardSeriesID lidx k = Some lid) as Hlid.
  { unfold lowCardSeriesID. by rewrite head_lookup. }
  apply (joinSeries_loop_inv _ hidx k lid (ID <$> ss) ss Hk Hlid); [|done|].
  - intros j s Hj. simpl. by rewrite list_lookup_fmap, Hj.
  - destruct Hinv as (Hlen & Hhi & Hlo). split; [done|]. split; [done|].
    intros j l Hl. destruct (decide (j = N.to_nat lid)) as [->|Hne].
    + rewrite list_lookup_insert_eq in Hl by done. injection Hl as <-.
      split; [apply NoDup_nil_2|]. intros x. split.
      * by intros ?%not_elem_of_nil.
      * intros (p & Hp & Hpl). rewrite N2Nat.id in Hpl.
        destruct (Hfresh p); [by eapply list_elem_of_lookup_2|congruence].
    + rewrite list_lookup_insert_ne in Hl by done. by apply Hlo.
Qed.

Lemma joinBucket_loop_inv hidx lidx bs : ∀ pre st st',
  NoDup (pre ++ bs).*1 →
  NoDup (ID <$> (tagged (pre ++ bs)).*2) →
  (∀ e, e ∈ bs → hidx !! e.1 = Some (ID <$> e.2)) →
  (∀ e e', e ∈ pre ++ bs → e' ∈ pre ++ bs →
     lowCardSeriesID lidx e.1 = lowCardSeriesID lidx e'.1 →
     is_Some (lowCardSeriesID lidx e'.1) → e.1 = e'.1) →
  joinIndexInv (lowCardSeriesID lidx) (tagged pre) st →
  binary.forEach (binary.joinBucket hidx lidx) bs st = Ok st' →
  joinIndexInv (lowCardSeriesID lidx) (tagged (pre ++ bs)) st'.
Proof.
  induction bs as [|[k ss] bs IH]; intros pre st st' Hkeys Hids Hidx Hinj Hinv.
  { simpl. intros [= <-]. by rewrite app_nil_r. }
  cbn [binary.forEach].
  destruct (binary.joinBucket hidx lidx st (k, ss)) as [st1| |] eqn:E;
    simpl; [|done..].
  intros Hloop. rewrite cons_middle, app_assoc in Hkeys, Hids, Hinj |- *.
  apply (IH (pre ++ [(k, ss)]) st1 st' Hkeys Hids); [| |  |done].
  - intros e He. apply Hidx. by right.
  - done.
  - rewrite tagged_app. unfold tagged at 2. simpl. rewrite app_nil_r.
    apply (joinBucket_inv hidx lidx k ss (tagged pre) st st1); [| | |done|done].
    + apply (Hidx (k, ss)). left.
    + intros p (e & He & Hpe & _)%elem_of_tagged Heq.
      assert (is_Some (lowCardSeriesID lidx k)) as Hsome.
      { unfold binary.joinBucket in E. destruct st as [[out hi] lo].
        unfold lowCardSeriesID. rewrite head_lookup.
        unfold index in E.
        by destruct (default [] (lidx !! k) !! 0%nat). }
      assert (e.1 = k) as Hek.
      { apply (Hinj e (k, ss)).
        - apply elem_of_app. left. by apply elem_of_app; left.
        - apply elem_of_app. left. apply elem_of_app. right. left.
        - by rewrite <- Hpe.
        - done. }
      rewrite !fmap_app in Hkeys.
      apply NoDup_app in Hkeys as (Hkeys & _ & _).
      apply NoDup_app in Hkeys as (_ & Hkeys & _).
      apply (Hkeys e.1).
      * apply list_elem_of_fmap. by exists e.
      * rewrite Hek. left.
    + rewrite !tagged_app, !fmap_app in Hids.
      apply NoDup_app in Hids as (Hids & _ & _).
      unfold tagged at 2 in Hids. simpl in Hids.
      rewrite app_nil_r, <- (list_fmap_compose (pair k) snd) in Hids.
      change (snd ∘ pair k <$> ss) with (id <$> ss) in Hids.
      rewrite list_fmap_id in Hids. by rewrite (fmap_app ID).
Qed.

Lemma joinIndexInv_init lidOf n :
  joinIndexInv lidOf [] ([], replicate n None, replicate n []).
Proof.
  split; [done|]. split; [done|].
  intros j l [-> _]%lookup_replicate. split; [apply NoDup_nil_2|].
  intros x. split; [by intros ?%not_elem_of_nil|].
  by intros (p & Hp & _).
Qed.

(** ** [join] on the buckets of [hashSeries]: the two indexes *)

Section join_indexes.
Context (HashWithoutLabels HashForLabels : Labels → list string → N).
Context (rangeKeys : gset N → list N).
Hypothesis rangeKeys_perm : ∀ s, rangeKeys s ≡ₚ elements s.
Context (matching : VectorMatching).
Context (high low : list Labels).

Local Abbreviation hashSeries :=
  (binary.hashSeries HashWithoutLabels HashForLabels matching).
Local Abbreviation key := (joinKey HashWithoutLabels HashForLabels matching).
Local Abbreviation kept :=
  (retained HashWithoutLabels HashForLabels matching).
Local Abbreviation mkSeries :=
  (seriesOf HashWithoutLabels HashForLabels matching).
Local Abbreviation membersOf :=
  (members HashWithoutLabels HashForLabels matching).
Local Abbreviation partner :=
  (firstPartner HashWithoutLabels HashForLabels matching low).
Local Abbreviation highCardHashes := (hashSeries high true).1.
Local Abbreviation highCardInputIndex := (hashSeries high true).2.
Local Abbreviation lowCardHashes := (hashSeries low false).1.
Local Abbreviation lowCardInputIndex := (hashSeries low false).2.
Local Abbreviation pruned :=
  (filter (λ e : N * list model.Series, is_Some (lowCardHashes !! e.1))
     highCardHashes).
Local Abbreviation buckets := (binary.rangeMap rangeKeys pruned).
Local Abbreviation lidOf := (lowCardSeriesID lowCardInputIndex).
Local Abbreviation joinHighLow :=
  (binary.join rangeKeys highCardHashes highCardInputIndex
     lowCardHashes lowCardInputIndex).

(** The partner of a key is the first low cardinality series that has it as
    signature. *)
Lemma lowCardSeriesID_least k lid :
  lidOf k = Some lid
  ↔ (∃ m', low !! N.to_nat lid = Some m' ∧ key m' = k)
    ∧ ∀ j' m'', (j' < N.to_nat lid)%nat → low !! j' = Some m'' → key m'' ≠ k.
Proof.
  unfold lowCardSeriesID. rewrite (proj2 (hashSeries_lookup _ _ _ _ _ _)).
  destruct (membersOf low k) as [|p ms] eqn:E; simpl.
  - split; [done|]. intros [(m' & Hm' & Hk) _].
    assert ((N.to_nat lid, m') ∈ membersOf low k) as Hin
      by by apply elem_of_members.
    rewrite E in Hin. by apply not_elem_of_nil in Hin.
  - assert (p ∈ membersOf low k) as [Hp Hpk]%elem_of_members
      by (rewrite E; left).
    split.
    + intros [= <-]. rewrite Nat2N.id. split; [by exists p.2|].
      intros j' m'' Hlt Hj' Hk.
      assert ((j', m'') ∈ membersOf low k) as [b Hb]%list_elem_of_lookup
        by by apply elem_of_members.
      destruct b as [|b].
      * rewrite E in Hb. injection Hb as ->. simpl in Hlt. lia.
      * pose proof (members_ascending HashWithoutLabels HashForLabels
                      matching low k 0 (S b) p (j', m'')) as H.
        rewrite E in H. specialize (H eq_refl).
        rewrite E in Hb. specialize (H Hb ltac:(lia)). simpl in H. lia.
    + intros [(m' & Hm' & Hk) Hfirst]. f_equal.
      assert ((N.to_nat lid, m') ∈ membersOf low k)
        as [b Hb]%list_elem_of_lookup by by apply elem_of_members.
      destruct b as [|b].
      * rewrite E in Hb. injection Hb as ->. simpl. apply N2Nat.id.
      * pose proof (members_ascending HashWithoutLabels HashForLabels
                      matching low k 0 (S b) p (N.to_nat lid, m')) as H.
        rewrite E in H. specialize (H eq_refl).
        rewrite E in Hb. specialize (H Hb ltac:(lia)). simpl in H.
        by destruct (Hfirst p.1 p.2 H Hp).
Qed.

Lemma lidOf_partner m j :
  lidOf (key m) = Some (N.of_nat j) ↔ partner m j.
Proof.
  rewrite lowCardSeriesID_least, Nat2N.id. done.
Qed.

(** The high cardinality series in the buckets of keys that differ are not
    the same. *)
Lemma NoDup_bucket_ids (bs : list (N * list model.Series)) :
  NoDup bs.*1 → (∀ e, e ∈ bs → highCardHashes !! e.1 = Some e.2) →
  NoDup (ID <$> mjoin bs.*2).
Proof.
  induction bs as [|[k ss] bs IH]; intros Hkeys Hbs; [apply NoDup_nil_2|].
  simpl in *. apply NoDup_cons in Hkeys as [Hk Hkeys].
  rewrite fmap_app. apply NoDup_app. split; [|split].
  - pose proof (Hbs (k, ss) ltac:(left)) as Hss. simpl in Hss.
    rewrite (proj1 (hashSeries_lookup _ _ _ _ _ _)) in Hss.
    apply bucketOf_Some in Hss as [_ ->].
    rewrite <- list_fmap_compose.
    change (ID ∘ mkSeries true) with (N.of_nat ∘ (fst : nat * Labels → nat)).
    rewrite list_fmap_compose. apply NoDup_fmap_2; [apply _|].
    apply NoDup_members.
  - intros x (s & -> & Hs)%list_elem_of_fmap (s' & Hx & Hs')%list_elem_of_fmap.
    apply list_elem_of_lookup in Hs as [a Ha].
    destruct (hashSeries_bucket _ _ _ _ _ _ _ _ _
                (Hbs (k, ss) ltac:(left)) Ha) as (i & m & Hi & Hkm & ->).
    apply list_elem_of_join in Hs' as (ss' & Hs' & Hss').
    apply list_elem_of_fmap in Hss' as ([k' ss''] & -> & Hin).
    apply list_elem_of_lookup in Hs' as [b Hb].
    destruct (hashSeries_bucket _ _ _ _ _ _ _ _ _
                (Hbs (k', ss'') ltac:(by right)) Hb)
      as (i' & m' & Hi' & Hkm' & ->).
    simpl in Hx. apply Nat2N.inj in Hx. subst i'.
    assert (m' = m) as -> by congruence.
    apply Hk. apply list_elem_of_fmap. exists (k', ss''). split; [|done].
    simpl in *. congruence.
  - apply IH; [done|]. intros e He. apply Hbs. by right.
Qed.

Lemma bucket_pruned e :
  e ∈ buckets →
  highCardHashes !! e.1 = Some e.2 ∧ is_Some (lowCardHashes !! e.1).
Proof.
  destruct e as [k ss].
  by intros Hin%(elem_of_rangeMap _ rangeKeys_perm)%pruned_lookup.
Qed.

Lemma NoDup_buckets : NoDup buckets.*1.
Proof.
  rewrite (rangeMap_perm _ rangeKeys_perm). apply NoDup_fst_map_to_list.
Qed.

(** The series [join] gives an output, with the key of its bucket. *)
Lemma elem_of_tagged_buckets p :
  p ∈ tagged buckets →
  ∃ i m, high !! i = Some m ∧ key m = p.1 ∧ p.2 = mkSeries true (i, m).
Proof.
  intros (e & [He _]%bucket_pruned & Hp1 & Hp2)%elem_of_tagged.
  apply list_elem_of_lookup in Hp2 as [a Ha].
  destruct (hashSeries_bucket _ _ _ _ _ _ _ _ _ He Ha)
    as (i & m & Hi & Hk & Hs).
  exists i, m. split; [done|]. split; [congruence|done].
Qed.

Lemma join_unfold :
  joinHighLow
  = binary.forEach
      (binary.joinBucket highCardInputIndex lowCardInputIndex) buckets
      ([], replicate (length high) None, replicate (length high) []).
Proof.
  unfold binary.join. rewrite (prune_spec _ rangeKeys_perm).
  by rewrite hashSeries_total.
Qed.

(** What a successful [join] has built. *)
Lemma join_index st :
  joinHighLow = Ok st →
  joinInv (length high) (mjoin buckets.*2) st
  ∧ joinIndexInv lidOf (tagged buckets) st.
Proof.
  intros Hjoin. split.
  - pose proof (join_hashSeries HashWithoutLabels HashForLabels rangeKeys
                  rangeKeys_perm matching high low) as H.
    rewrite Hjoin in H. apply H.
  - rewrite join_unfold in Hjoin.
    apply (joinBucket_loop_inv highCardInputIndex lowCardInputIndex
             buckets []
             ([], replicate (length high) None, replicate (length high) [])
             st); [| | | |apply joinIndexInv_init|done].
    + apply NoDup_buckets.
    + simpl. rewrite tagged_snd.
      apply NoDup_bucket_ids; [apply NoDup_buckets|].
      intros e He. by apply bucket_pruned.
    + intros e He.
      by destruct (pruned_bucketOk _ _ _ rangeKeys_perm _ _ _ e He).
    + simpl. intros e e' He He' Heq [lid Hlid].
      rewrite Hlid in Heq.
      apply lowCardSeriesID_least in Heq as [(m & Hm & <-) _].
      apply lowCardSeriesID_least in Hlid as [(m' & Hm' & <-) _].
      congruence.
Qed.

(** X5. When [join] panics. It returns no error, and it panics exactly when
    some high cardinality series has a partner whose position is not below
    the number of high cardinality series: the write to
    [lowCardOutputIndex] is the one access of [join] that can be out of
    range. *)
Theorem join_panics_iff :
  ¬ is_Err joinHighLow
  ∧ (is_Panic joinHighLow
     ↔ ∃ i m j, high !! i = Some m ∧ partner m j ∧ (length high ≤ j)%nat).
Proof.
  pose proof (join_hashSeries HashWithoutLabels HashForLabels rangeKeys
                rangeKeys_perm matching high low) as H.
  destruct joinHighLow as [st|e|msg] eqn:Ej; [|done|].
  - split; [simpl; tauto|]. split; [done|].
    intros (i & m & j & Hi & Hp & Hge). exfalso.
    destruct H as [Hlid _].
    destruct (hashSeries_member HashWithoutLabels HashForLabels matching
                high true i m Hi) as (ss & Hss & _).
    destruct Hp as [(m' & Hm' & Hk') Hfirst].
    destruct (hashSeries_member HashWithoutLabels HashForLabels matching
                low false j m' Hm') as (ls & Hls & _).
    assert (N.to_nat (N.of_nat j) < length high)%nat; [|lia].
    apply (Hlid (key m)).
    + exists ss. apply pruned_lookup. split; [done|].
      rewrite <- Hk'. by exists ls.
    + apply lidOf_partner. split; [by exists m'|done].
  - split; [simpl; tauto|]. split; [intros _|done].
    destruct H as (k & lid & [ss Hss] & Hlid & Hge).
    apply pruned_lookup in Hss as [Hss _].
    destruct (hashSeries_lookup_is_Some _ _ _ _ _ _ (mk_is_Some _ _ Hss))
      as (m & [i Hi]%list_elem_of_lookup & Hk).
    exists i, m, (N.to_nat lid). split; [done|]. split; [|done].
    apply lidOf_partner. by rewrite Hk, N2Nat.id.
Qed.

(** X7. The outputs of [join] and the high cardinality series with a
    partner are in one-to-one correspondence: [highCardOutputIndex] sends no
    two high cardinality series to the same output, and every output is that
    of some high cardinality series. *)
Theorem join_highCardOutputIndex out hi lo :
  binary.join rangeKeys (hashSeries high true).1 (hashSeries high true).2
    (hashSeries low false).1 (hashSeries low false).2 = Ok (out, hi, lo) →
  length hi = length high
  ∧ (∀ i1 i2 x, hi !! i1 = Some (Some x) → hi !! i2 = Some (Some x) →
       i1 = i2)
  ∧ (∀ x, (N.to_nat x < length out)%nat → ∃ i, hi !! i = Some (Some x)).
Proof.
  intros [(Hout & Hlen & _ & Hset & _) (Hlen' & Hhi & _)]%join_index.
  split; [done|]. split.
  - intros i1 i2 x (s1 & Hs1 & <-)%Hset (s2 & Hs2 & <-)%Hset. congruence.
  - intros x Hx. rewrite Hlen' in Hx.
    destruct (lookup_lt_is_Some_2 _ _ Hx) as [p Hp].
    exists (N.to_nat (ID p.2)). rewrite (Hhi _ _ Hp). by rewrite N2Nat.id.
Qed.

(** X8. The entry of [lowCardOutputIndex] for a low cardinality series lists,
    once each, the outputs of the high cardinality series it is the partner
    of. A high cardinality series has one partner, the first low cardinality
    series with its signature: the entries of the other low cardinality
    series of that signature stay empty. *)
Theorem join_lowCardOutputIndex out hi lo :
  binary.join rangeKeys (hashSeries high true).1 (hashSeries high true).2
    (hashSeries low false).1 (hashSeries low false).2 = Ok (out, hi, lo) →
  length lo = length high
  ∧ ∀ j l, lo !! j = Some l →
      NoDup l
      ∧ ∀ x, x ∈ l ↔ ∃ i m, high !! i = Some m ∧ partner m j
                            ∧ hi !! i = Some (Some x).
Proof.
  intros [(Hout & _ & Hlen & Hset & _) (Hlen' & Hhi & Hlo)]%join_index.
  split; [done|]. intros j l Hl. destruct (Hlo j l Hl) as [Hnd Hin].
  split; [done|]. intros x. rewrite Hin. split.
  - intros (p & Hp & Hlid).
    destruct (elem_of_tagged_buckets p) as (i & m & Hi & Hk & Hs);
      [by eapply list_elem_of_lookup_2|].
    exists i, m. split; [done|]. split.
    + apply lidOf_partner. by rewrite Hk.
    + specialize (Hhi _ _ Hp). rewrite Hs in Hhi. simpl in Hhi.
      by rewrite Nat2N.id, N2Nat.id in Hhi.
  - intros (i & m & Hi & Hp & Hx).
    destruct (Hset _ _ Hx) as (s & Hs & Hid).
    rewrite <- tagged_snd, list_lookup_fmap in Hs.
    apply fmap_Some in Hs as (p & Hp' & ->). exists p. split; [done|].
    destruct (elem_of_tagged_buckets p) as (i' & m' & Hi' & Hk & Hs);
      [by eapply list_elem_of_lookup_2|].
    rewrite Hs in Hid. simpl in Hid. rewrite Nat2N.id in Hid. subst i'.
    assert (m' = m) as -> by congruence.
    rewrite <- Hk. by apply lidOf_partner.
Qed.

(** X9. The output series of [join] are, up to their order, the labels
    retained of the high cardinality series that have a series of the same
    signature on the low cardinality side, one output for each of them: the
    order in which the maps are gone through decides on the ids alone. *)
Theorem join_output_series out hi lo :
  binary.join rangeKeys (hashSeries high true).1 (hashSeries high true).2
    (hashSeries low false).1 (hashSeries low false).2 = Ok (out, hi, lo) →
  Metric <$> out
  ≡ₚ kept true <$> filter (λ m, Exists (λ m', key m' = key m) low) high.
Proof.
  intros [(-> & _) _]%join_index. rewrite emitted_metric.
  rewrite <- (filter_imap_snd (λ m, Exists (λ m', key m' = key m) low) high).
  rewrite <- list_fmap_compose.
  change (kept true ∘ snd) with (Metric ∘ mkSeries true).
  rewrite list_fmap_compose. f_equiv.
  apply NoDup_Permutation.
  - eapply (NoDup_fmap_1 ID). apply NoDup_bucket_ids; [apply NoDup_buckets|].
    intros e He. by apply bucket_pruned.
  - eapply (NoDup_fmap_1 ID). rewrite <- list_fmap_compose.
    change (ID ∘ mkSeries true) with (N.of_nat ∘ (fst : nat * Labels → nat)).
    rewrite list_fmap_compose. apply NoDup_fmap_2; [apply _|].
    apply (NoDup_filter_imap (λ p, Exists (λ m', key m' = key p.2) low)).
  - intros s.
    rewrite (elem_of_pruned_series _ _ _ rangeKeys_perm), list_elem_of_fmap.
    split.
    + intros (i & m & Hi & -> & Hm). exists (i, m). split; [done|].
      apply elem_of_filter_imap. split; [|done]. by apply Exists_exists.
    + intros ([i m] & -> & [Hm Hi]%elem_of_filter_imap).
      exists i, m. split; [done|]. split; [done|]. by apply Exists_exists.
Qed.

(** X24. A proper one-to-one matching: when no two high cardinality series
    have the same signature, every entry of [lowCardOutputIndex] holds one
    output at most. *)
Theorem join_one_to_one out hi lo :
  (∀ i1 i2 m1 m2, high !! i1 = Some m1 → high !! i2 = Some m2 →
     key m1 = key m2 → i1 = i2) →
  binary.join rangeKeys (hashSeries high true).1 (hashSeries high true).2
    (hashSeries low false).1 (hashSeries low false).2 = Ok (out, hi, lo) →
  ∀ j l, lo !! j = Some l → (length l ≤ 1)%nat.
Proof.
  intros Hone [_ (_ & _ & Hlo)]%join_index j l Hl.
  destruct (Hlo j l Hl) as [Hnd Hin].
  destruct l as [|x1 [|x2 l]]; simpl; [lia..|]. exfalso.
  apply NoDup_cons in Hnd as [Hx _]. apply Hx. clear Hx.
  destruct (proj1 (Hin x1) ltac:(left)) as (p1 & Hp1 & Hl1).
  destruct (proj1 (Hin x2) ltac:(right; left)) as (p2 & Hp2 & Hl2).
  destruct (elem_of_tagged_buckets p1) as (i1 & m1 & Hi1 & Hk1 & Hs1);
    [by eapply list_elem_of_lookup_2|].
  destruct (elem_of_tagged_buckets p2) as (i2 & m2 & Hi2 & Hk2 & Hs2);
    [by eapply list_elem_of_lookup_2|].
  apply lowCardSeriesID_least in Hl1 as [(m & Hm & Hkm1) _].
  apply lowCardSeriesID_least in Hl2 as [(m' & Hm' & Hkm2) _].
  assert (i1 = i2) as <- by (apply (Hone i1 i2 m1 m2); congruence).
  assert (m2 = m1) as -> by congruence.
  assert (p1 = p2) as <-.
  { destruct p1, p2; simpl in *; congruence. }
  assert (NoDup (tagged buckets)) as Htg.
  { apply (NoDup_fmap_1 snd), (NoDup_fmap_1 ID). rewrite tagged_snd.
    apply NoDup_bucket_ids; [apply NoDup_buckets|].
    intros e He. by apply bucket_pruned. }
  pose proof (NoDup_lookup _ _ _ _ Htg Hp1 Hp2) as Heq.
  apply N2Nat.inj in Heq. subst. left.
Qed.

(** The two indexes read by series and not by output id: what they say does
    not hang on the order in which the maps are gone through. A high
    cardinality series has an output when a low cardinality series has its
    signature, and the output has the labels retained of it. *)
Lemma join_output_labels out hi lo i :
  joinHighLow = Ok (out, hi, lo) →
  (x ← mjoin (hi !! i); (Metric <$> out) !! N.to_nat x)
  = (m ← high !! i;
     if decide (Exists (λ m', key m' = key m) low) then Some (kept true m)
     else None).
Proof.
  intros Hj.
  destruct (join_facts _ _ _ rangeKeys_perm _ _ _ _ _ _ Hj)
    as (done & -> & Hlen & _ & Hdone & Hhi & Hex & _).
  rewrite emitted_metric.
  destruct (hi !! i) as [[k|]|] eqn:E; simpl.
  - destruct (Hhi i k E) as (m & Hm & Hk). rewrite Hm. simpl.
    rewrite list_lookup_fmap, Hk. simpl.
    destruct (Hdone _ _ Hk) as (i' & m0 & Hi' & Heq & m' & Hm' & Hkey).
    injection Heq as Hid%Nat2N.inj Hmetric. subst i'.
    assert (m0 = m) as -> by congruence.
    rewrite decide_True; [done|]. apply Exists_exists. by exists m'.
  - assert (i < length high)%nat as Hi
      by (rewrite <- Hlen; by eapply lookup_lt_Some).
    destruct (lookup_lt_is_Some_2 high i Hi) as [m Hm]. rewrite Hm. simpl.
    rewrite decide_False; [done|].
    intros (m' & Hm' & Hk)%Exists_exists.
    destruct (Hex i m Hm) as [k Hk']; [by exists m'|]. congruence.
  - apply lookup_ge_None in E. rewrite Hlen in E.
    by rewrite (proj2 (lookup_ge_None high i) E).
Qed.

(** The output series are those of the buckets that have a partner, in the
    order in which the buckets are gone through. *)
Lemma join_output_buckets out hi lo :
  joinHighLow = Ok (out, hi, lo) →
  Metric <$> out ≡ₚ Metric <$> mjoin (map_to_list pruned).*2.
Proof.
  intros [(-> & _) _]%join_index. rewrite emitted_metric.
  by rewrite (rangeMap_perm _ rangeKeys_perm).
Qed.

(** The output of a high cardinality series is listed in the entry of its
    partner, and in no other entry. *)
Lemma join_listed out hi lo i j :
  joinHighLow = Ok (out, hi, lo) →
  (∃ x l, hi !! i = Some (Some x) ∧ lo !! j = Some l ∧ x ∈ l)
  ↔ ∃ m, high !! i = Some m ∧ partner m j.
Proof.
  intros Hj.
  pose proof (join_hashSeries HashWithoutLabels HashForLabels rangeKeys
                rangeKeys_perm matching high low) as Hbound.
  rewrite Hj in Hbound. destruct Hbound as [Hbound _].
  apply join_index in Hj
    as [(Hout & _ & Hlen & Hset & _) (Hlen' & Hhi & Hlo)].
  split.
  - intros (x & l & Hx & Hl & Hin).
    destruct (Hlo j l Hl) as [_ Hiff]. apply Hiff in Hin as (p & Hp & Hlid).
    destruct (elem_of_tagged_buckets p) as (i' & m & Hi' & Hk & Hs);
      [by eapply list_elem_of_lookup_2|].
    pose proof (Hhi _ _ Hp) as Hx'. rewrite Hs in Hx'. simpl in Hx'.
    rewrite Nat2N.id, N2Nat.id in Hx'.
    destruct (Hset _ _ Hx) as (s1 & Hs1 & <-).
    destruct (Hset _ _ Hx') as (s2 & Hs2 & <-).
    assert (s1 = s2) as -> by congruence.
    exists m. split; [done|]. apply lidOf_partner. by rewrite Hk.
  - intros (m & Hm & Hp). pose proof Hp as [(m' & Hm' & Hk') _].
    apply lidOf_partner in Hp.
    assert (mkSeries true (i, m) ∈ mjoin buckets.*2) as Hin.
    { apply (elem_of_pruned_series _ _ _ rangeKeys_perm).
      exists i, m. split; [done|]. split; [done|]. exists m'.
      split; [by eapply list_elem_of_lookup_2|done]. }
    rewrite <- tagged_snd in Hin.
    apply list_elem_of_fmap in Hin as (p & Hp2 & [x Hx]%list_elem_of_lookup).
    destruct (elem_of_tagged_buckets p) as (i' & m0 & Hi' & Hk & Hs);
      [by eapply list_elem_of_lookup_2|].
    rewrite Hs in Hp2. injection Hp2 as Hid%Nat2N.inj _. subst i'.
    assert (m0 = m) as -> by congruence.
    assert (j < length lo)%nat as Hlt.
    { rewrite Hlen. rewrite <- (Nat2N.id j). apply (Hbound (key m)); [|done].
      destruct (hashSeries_member HashWithoutLabels HashForLabels matching
                  high true i m Hm) as (ss & Hss & _).
      destruct (hashSeries_member HashWithoutLabels HashForLabels matching
                  low false j m' Hm') as (ls & Hls & _).
      exists ss. apply pruned_lookup. split; [done|].
      rewrite <- Hk'. by exists ls. }
    destruct (lookup_lt_is_Some_2 lo j Hlt) as [l Hl].
    exists (N.of_nat x), l. split; [|split; [done|]].
    + pose proof (Hhi _ _ Hx) as H. rewrite Hs in H. simpl in H.
      by rewrite Nat2N.id in H.
    + apply (Hlo j l Hl). exists p. rewrite Nat2N.id. split; [done|].
      by rewrite <- Hk.
Qed.

End join_indexes.

Section no_partner.
Context (HashWithoutLabels HashForLabels : Labels → list string → N).
Context (rangeKeys : gset N → list N).
Hypothesis rangeKeys_perm : ∀ s, rangeKeys s ≡ₚ elements s.
Context (matching : VectorMatching).
Context (high low : list Labels).

Local Abbreviation hashSeries :=
  (binary.hashSeries HashWithoutLabels HashForLabels matching).
Local Abbreviation key := (joinKey HashWithoutLabels HashForLabels matching).

(** X10. No partner, no output. When no high cardinality series has the
    signature of a low cardinality series (one side is empty, say), [join]
    does not panic and returns no output series, a [highCardOutputIndex] of
    nil entries and a [lowCardOutputIndex] of empty entries, one entry for
    each high cardinality series. *)
Theorem join_no_partner :
  (∀ m m', m ∈ high → m' ∈ low → key m' ≠ key m) →
  binary.join rangeKeys (hashSeries high true).1 (hashSeries high true).2
    (hashSeries low false).1 (hashSeries low false).2
  = Ok ([], replicate (length high) None, replicate (length high) []).
Proof.
  intros Hno. rewrite (join_unfold _ _ _ rangeKeys_perm).
  assert (filter (λ e : N * list model.Series,
                    is_Some ((hashSeries low false).1 !! e.1))
            (hashSeries high true).1 = ∅) as ->.
  { apply map_empty. intros k. apply map_lookup_filter_None. right.
    intros ss Hss Hlow. simpl in Hlow.
    apply hashSeries_lookup_is_Some in Hlow as (m' & Hm' & Hk').
    destruct (hashSeries_lookup_is_Some _ _ _ _ _ _ (mk_is_Some _ _ Hss))
      as (m & Hm & Hk).
    apply (Hno m m' Hm Hm'). congruence. }
  assert (binary.rangeMap rangeKeys (∅ : gmap N (list model.Series)) = [])
    as ->; [|done].
  apply Permutation_nil_r. rewrite (rangeMap_perm _ rangeKeys_perm).
  by rewrite map_to_list_empty.
Qed.

End no_partner.

(** ** More on [Series] and [Next] of the binary operator *)

Section operator_facts.
Context {float64 : Type}.
Context (HashWithoutLabels HashForLabels : Labels → list string → N).
Context (rangeKeys : gset N → list N).
Context {sample tableT ItemType : Type} (zeroSample : sample).
Context (newTable : VectorMatchCardinality → ItemType → list sample →
                    list (option N) → list (list N) → outcome tableT).
Context (execBinaryOperation :
  tableT → StepVector float64 → StepVector float64 →
  option (StepVector float64 * tableT)).
Context {L R : Type}.
Context `{!VectorOperator float64 L, !VectorOperator float64 R}.

Local Abbreviation operator :=
  (@binary.vectorOperator sample tableT ItemType L R).
Local Abbreviation initOutputs :=
  (binary.initOutputs (float64:=float64) (L:=L) (R:=R)
     HashWithoutLabels HashForLabels rangeKeys zeroSample newTable).
Local Abbreviation onceInitOutputs :=
  (binary.onceInitOutputs (float64:=float64) (L:=L) (R:=R)
     HashWithoutLabels HashForLabels rangeKeys zeroSample newTable).
Local Abbreviation Series :=
  (binary.Series (float64:=float64) (L:=L) (R:=R)
     HashWithoutLabels HashForLabels rangeKeys zeroSample newTable).
Local Abbreviation Next :=
  (binary.Next (L:=L) (R:=R) HashWithoutLabels HashForLabels rangeKeys
     zeroSample newTable execBinaryOperation).
Local Abbreviation nextStep := (binary.nextStep execBinaryOperation).
Local Abbreviation afterNext n o :=
  (@after float64 operator
     (binary.vectorOperator_operator HashWithoutLabels HashForLabels
        rangeKeys zeroSample newTable execBinaryOperation) n o).

Lemma Series_unfold (o : operator) :
  Series o
  = match onceInitOutputs o with
    | (Ok _, o') => (Ok (binary.series o'), o')
    | (Err e, o') => (Err e, o')
    | (Panic msg, o') => (Panic msg, o')
    end.
Proof.
  unfold binary.Series, mbind, action_bind, binary.get, mret, action_ret.
  by destruct (onceInitOutputs o) as [[[]|e|msg] o'].
Qed.

Lemma once_initOutputs (o : operator) :
  binary.once (initOutputs o).2 = binary.once o.
Proof.
  rewrite initOutputs_unfold.
  destruct (opSeries (binary.lhs o)) as [[lhsSeries|e|msg] l]; try done.
  destruct (opSeries (binary.rhs o)) as [[rhsSeries|e|msg] r]; try done.
  cbn zeta.
  destruct (binary.join _ _ _ _ _) as [[[output hi] lo]|e|msg]; try done.
  destruct (binary.fillSeries output) as [series|e|msg]; try done.
  by destruct (newTable _ _ _ _ _) as [t|e|msg].
Qed.

Lemma once_onceInitOutputs (o : operator) :
  binary.once (onceInitOutputs o).2 = true.
Proof.
  unfold binary.onceInitOutputs. destruct (binary.once o) eqn:E; [done|].
  by rewrite once_initOutputs.
Qed.

(** An error of a child's [Series] leaves the outputs as they are. *)
Lemma initOutputs_child_error (o : operator) :
  is_Err (opSeries (binary.lhs o)).1
  ∨ is_Ok (opSeries (binary.lhs o)).1 ∧ is_Err (opSeries (binary.rhs o)).1 →
  is_Err (initOutputs o).1
  ∧ binary.series (initOutputs o).2 = binary.series o.
Proof.
  rewrite initOutputs_unfold.
  destruct (opSeries (binary.lhs o)) as [[lhsSeries|e|msg] l]; simpl;
    [|tauto..].
  destruct (opSeries (binary.rhs o)) as [[rhsSeries|e|msg] r]; simpl; tauto.
Qed.

(** X12. [Series] runs the initialization once. Whatever the first call
    returns, a second call returns no error, calls no child and changes
    nothing: it returns the list the operator holds. After a first call
    without error that is the list the first call returned; after an error of
    a child it is the list from before the call (nil for a new operator). *)
Theorem Series_once (o : operator) :
  let o1 := (Series o).2 in
  Series o1 = (Ok (binary.series o1), o1)
  ∧ (∀ s, (Series o).1 = Ok s → binary.series o1 = s)
  ∧ (binary.once o = false →
     is_Err (opSeries (binary.lhs o)).1
     ∨ is_Ok (opSeries (binary.lhs o)).1
       ∧ is_Err (opSeries (binary.rhs o)).1 →
     is_Err (Series o).1 ∧ binary.series o1 = binary.series o).
Proof.
  cbv zeta. split; [|split].
  - assert (binary.once (Series o).2 = true) as Honce.
    { rewrite Series_unfold. pose proof (once_onceInitOutputs o) as H.
      by destruct (onceInitOutputs o) as [[[]|e|msg] o']. }
    rewrite (Series_unfold (Series o).2).
    unfold binary.onceInitOutputs at 1. by rewrite Honce.
  - intros s. rewrite Series_unfold.
    destruct (onceInitOutputs o) as [[[]|e|msg] o']; simpl; [|done..].
    by intros [= <-].
  - intros Ho Hchild. rewrite Series_unfold.
    unfold binary.onceInitOutputs. rewrite Ho.
    destruct (initOutputs_child_error (binary.withOnce o) Hchild)
      as [Herr Hseries].
    by destruct (initOutputs (binary.withOnce o)) as [[[]|e|msg] o'].
Qed.

(** One call of [Next] on an initialized operator keeps the outputs. *)
Lemma Next_keeps_outputs_step (o : operator) :
  binary.once o = true →
  binary.once (Next o).2 = true
  ∧ binary.series (Next o).2 = binary.series o
  ∧ binary.highCardOutputIndex (Next o).2 = binary.highCardOutputIndex o
  ∧ binary.lowCardOutputIndex (Next o).2 = binary.lowCardOutputIndex o.
Proof.
  intros Ho. rewrite Next_unfold.
  destruct (opNext (binary.lhs o)) as [[lhs|e|msg] l]; try done.
  destruct (opNext (binary.rhs o)) as [[rhs|e|msg] r]; try done.
  cbn zeta. destruct (decide _); [done|].
  rewrite onceInitOutputs_once by done.
  by destruct (binary.forRange _ _ _ _) as [[batch t]|e|msg].
Qed.

(** X13. Once the operator is initialized, [Next] leaves its outputs alone:
    after any number of calls of [Next], whatever they returned, the series
    list and the two indexes are the same, and [Series] returns the same
    list. *)
Theorem Next_keeps_outputs (o : operator) n :
  binary.once o = true →
  binary.series (afterNext n o) = binary.series o
  ∧ binary.highCardOutputIndex (afterNext n o) = binary.highCardOutputIndex o
  ∧ binary.lowCardOutputIndex (afterNext n o) = binary.lowCardOutputIndex o
  ∧ Series (afterNext n o) = (Ok (binary.series o), afterNext n o).
Proof.
  intros Ho.
  assert (binary.once (afterNext n o) = true
          ∧ binary.series (afterNext n o) = binary.series o
          ∧ binary.highCardOutputIndex (afterNext n o)
            = binary.highCardOutputIndex o
          ∧ binary.lowCardOutputIndex (afterNext n o)
            = binary.lowCardOutputIndex o) as (H1 & H2 & H3 & H4).
  { induction n as [|n (IH1 & IH2 & IH3 & IH4)]; [done|].
    rewrite (after_S n o).
    change (opNext (afterNext n o)) with (Next (afterNext n o)).
    destruct (Next_keeps_outputs_step (afterNext n o) IH1)
      as (-> & -> & -> & ->). done. }
  split; [done|]. split; [done|]. split; [done|].
  rewrite Series_unfold, onceInitOutputs_once by done. by rewrite H2.
Qed.

(** The step loop on two batches of which [rhs] is not the shorter one. *)
Lemma nextStep_loop_zip lhs rhs suffix : ∀ i batch t,
  (∀ j v, suffix !! j = Some v → lhs !! (i + j)%nat = Some v) →
  (i + length suffix ≤ length rhs)%nat →
  binary.forRange (nextStep lhs rhs) i suffix (batch, Some t)
  = match execSteps execBinaryOperation t (zip suffix (drop i rhs)) with
    | Some (steps, t') => Ok (batch ++ steps, Some t')
    | None => Panic "execBinaryOperation"
    end.
Proof.
  induction suffix as [|v suffix IH]; intros i batch t Hlhs Hlen.
  { simpl. by rewrite app_nil_r. }
  simpl in Hlen.
  destruct (lookup_lt_is_Some_2 rhs i ltac:(lia)) as [r Hr].
  rewrite (drop_S _ _ _ Hr). cbn [zip zip_with execSteps binary.forRange].
  unfold binary.nextStep at 2.
  rewrite (index_Some lhs i v), (index_Some rhs i r); [|done|].
  2:{ specialize (Hlhs 0%nat v eq_refl). by rewrite Nat.add_0_r in Hlhs. }
  simpl. destruct (execBinaryOperation t v r) as [[step t1]|]; simpl; [|done].
  rewrite IH; [|intros j v' Hj; specialize (Hlhs (S j) v' Hj);
                 by rewrite Nat.add_succ_r in Hlhs|lia].
  destruct (execSteps _ _ _) as [[steps t2]|]; simpl; [|done].
  by rewrite <- app_assoc.
Qed.

(** X14. The batch [Next] returns. On an initialized operator whose children
    return batches of which the right one is not the shorter one, [Next]
    returns the steps of the pairs of step vectors at the same position, in
    their order, with the table handed on from one to the next, and panics
    when the operation does; the step vectors of [rhs] beyond the length of
    [lhs] are dropped. *)
Theorem Next_steps (o : operator) lhs rhs l r t :
  opNext (binary.lhs o) = (Ok lhs, l) →
  opNext (binary.rhs o) = (Ok rhs, r) →
  lhs ≠ [] → (length lhs ≤ length rhs)%nat →
  binary.once o = true → binary.table o = Some t →
  Next o
  = match execSteps execBinaryOperation t (zip lhs rhs) with
    | Some (batch, t') =>
        (Ok batch, binary.withTable (Some t') (binary.withChildren l r o))
    | None => (Panic "execBinaryOperation", binary.withChildren l r o)
    end.
Proof.
  intros Hl Hr Hne Hlen Ho Ht. rewrite Next_unfold, Hl, Hr. cbn zeta.
  rewrite decide_False.
  2:{ intros [H|H]; [by apply length_zero_iff_nil in H|].
      destruct lhs; [done|]. simpl in Hlen. lia. }
  rewrite onceInitOutputs_once by done.
  change (binary.table (binary.withChildren l r o)) with (binary.table o).
  rewrite Ht, nextStep_loop_zip; [|done|simpl; lia].
  rewrite drop_0.
  by destruct (execSteps _ _ _) as [[steps t2]|].
Qed.

End operator_facts.

(** ** [group_right] is [group_left] with the children exchanged *)

Lemma foldIndexed_ext {A St} (f g : St → nat → A → St) l : ∀ i s,
  (∀ s i a, f s i a = g s i a) →
  binary.foldIndexed f i l s = binary.foldIndexed g i l s.
Proof.
  induction l as [|a l IH]; intros i s Hfg; [done|].
  simpl. rewrite Hfg. by apply IH.
Qed.

(** [hashSeries] reads the matching labels and the kind of matching, not
    the cardinality. *)
Lemma hashSeries_matching HashWithoutLabels HashForLabels
    (m m' : VectorMatching) series keepLabels :
  On m' = On m → MatchingLabels m' = MatchingLabels m →
  binary.hashSeries HashWithoutLabels HashForLabels m' series keepLabels
  = binary.hashSeries HashWithoutLabels HashForLabels m series keepLabels.
Proof.
  intros Hon Hls. unfold binary.hashSeries. apply foldIndexed_ext.
  intros [hashes inputIndex] i a. unfold binary.hashSeriesStep.
  by rewrite Hon, Hls.
Qed.

(** The signature, the labels retained and the partner do not read the
    cardinality either. *)
Lemma joinKey_matching HashWithoutLabels HashForLabels
    (m m' : VectorMatching) :
  On m' = On m → MatchingLabels m' = MatchingLabels m →
  joinKey HashWithoutLabels HashForLabels m'
  = joinKey HashWithoutLabels HashForLabels m.
Proof. intros Hon Hls. unfold joinKey. by rewrite Hon, Hls. Qed.

Lemma retained_matching HashWithoutLabels HashForLabels
    (m m' : VectorMatching) :
  On m' = On m → MatchingLabels m' = MatchingLabels m →
  retained HashWithoutLabels HashForLabels m'
  = retained HashWithoutLabels HashForLabels m.
Proof. intros Hon Hls. unfold retained. by rewrite Hon, Hls. Qed.

Lemma firstPartner_matching HashWithoutLabels HashForLabels
    (m m' : VectorMatching) :
  On m' = On m → MatchingLabels m' = MatchingLabels m →
  firstPartner HashWithoutLabels HashForLabels m'
  = firstPartner HashWithoutLabels HashForLabels m.
Proof.
  intros Hon Hls. unfold firstPartner.
  by rewrite (joinKey_matching _ _ _ _ Hon Hls).
Qed.

Section group_right.
Context {float64 : Type}.
Context (HashWithoutLabels HashForLabels : Labels → list string → N).
(** Each of the two operators goes through its maps in an order of its
    own. *)
Context (rangeKeys rangeKeys' : gset N → list N).
Hypothesis rangeKeys_perm : ∀ s, rangeKeys s ≡ₚ elements s.
Hypothesis rangeKeys'_perm : ∀ s, rangeKeys' s ≡ₚ elements s.
Context {sample tableT ItemType : Type} (zeroSample : sample).
Context (newTable : VectorMatchCardinality → ItemType → list sample →
                    list (option N) → list (list N) → outcome tableT).
Context {L R : Type}.
Context `{!VectorOperator float64 L, !VectorOperator float64 R}.

(** What an initialization that returns no error leaves, read by series and
    not by output id. *)
Lemma initOutputs_by_series {L' R' : Type}
    `{!VectorOperator float64 L', !VectorOperator float64 R'} rk
    (o o1 : @binary.vectorOperator sample tableT ItemType L' R') a b l r :
  (∀ s, rk s ≡ₚ elements s) →
  opSeries (binary.lhs o) = (Ok a, l) →
  opSeries (binary.rhs o) = (Ok b, r) →
  binary.initOutputs (float64:=float64) HashWithoutLabels HashForLabels
    rk zeroSample newTable o = (Ok (), o1) →
  let m := binary.matching o in
  let high := highCardSide (Card m) a b in
  let low := lowCardSide (Card m) a b in
  let key := joinKey HashWithoutLabels HashForLabels m in
  let hashSeries := binary.hashSeries HashWithoutLabels HashForLabels m in
  binary.series o1
  ≡ₚ Metric <$> mjoin (map_to_list
       (filter (λ e : N * list model.Series,
                  is_Some ((hashSeries low false).1 !! e.1))
          (hashSeries high true).1)).*2
  ∧ length (binary.highCardOutputIndex o1) = length high
  ∧ length (binary.lowCardOutputIndex o1) = length high
  ∧ (∀ i, outputLabels o1 i
          = (m0 ← high !! i;
             if decide (Exists (λ m', key m' = key m0) low)
             then Some (retained HashWithoutLabels HashForLabels m true m0)
             else None))
  ∧ (∀ i j, listedUnder o1 i j
            ↔ ∃ m0, high !! i = Some m0
                    ∧ firstPartner HashWithoutLabels HashForLabels m low m0 j).
Proof.
  intros Hrk Hl Hr Hinit m high low key hashSeries.
  destruct (initOutputs_Ok HashWithoutLabels HashForLabels rk Hrk zeroSample
              newTable o o1 a b l r Hl Hr Hinit)
    as (done & t & Hjoin & Hseries & _).
  cbv zeta in Hjoin. fold m high low in Hjoin.
  destruct (join_facts _ _ _ Hrk _ _ _ _ _ _ Hjoin)
    as (done' & Hdone & Hhi & Hlo & _).
  split_and!; [|done|done| |].
  - rewrite Hseries, <- emitted_metric.
    apply (join_output_buckets HashWithoutLabels HashForLabels rk Hrk m
             high low _ _ _ Hjoin).
  - intros i. unfold outputLabels. rewrite Hseries, <- emitted_metric.
    apply (join_output_labels HashWithoutLabels HashForLabels rk Hrk m
             high low _ _ _ i Hjoin).
  - intros i j. unfold listedUnder.
    apply (join_listed HashWithoutLabels HashForLabels rk Hrk m
             high low _ _ _ i j Hjoin).
Qed.

(** X11. A one-to-many operator ([group_right]) is initialized as the
    many-to-one operator ([group_left]) with the two children exchanged.
    Each of the two goes through its maps in an order of its own, so the ids
    of the outputs may differ; when both initializations succeed, the two
    series lists are the same up to their order, the indexes have the same
    lengths, a high cardinality series has an output in the one when it has
    one in the other, with the same labels, and that output is listed under
    the same low cardinality series. *)
Theorem initOutputs_group_right
    (o : @binary.vectorOperator sample tableT ItemType L R)
    (o' : @binary.vectorOperator sample tableT ItemType R L)
    a b l r o1 o1' :
  opSeries (binary.lhs o) = (Ok a, l) →
  opSeries (binary.rhs o) = (Ok b, r) →
  binary.lhs o' = binary.rhs o → binary.rhs o' = binary.lhs o →
  Card (binary.matching o) = CardOneToMany →
  Card (binary.matching o') = CardManyToOne →
  On (binary.matching o') = On (binary.matching o) →
  MatchingLabels (binary.matching o') = MatchingLabels (binary.matching o) →
  binary.initOutputs (float64:=float64) HashWithoutLabels HashForLabels
    rangeKeys zeroSample newTable o = (Ok (), o1) →
  binary.initOutputs (float64:=float64) HashWithoutLabels HashForLabels
    rangeKeys' zeroSample newTable o' = (Ok (), o1') →
  binary.series o1' ≡ₚ binary.series o1
  ∧ length (binary.highCardOutputIndex o1')
    = length (binary.highCardOutputIndex o1)
  ∧ length (binary.lowCardOutputIndex o1')
    = length (binary.lowCardOutputIndex o1)
  ∧ (∀ i, outputLabels o1' i = outputLabels o1 i)
  ∧ (∀ i j, listedUnder o1' i j ↔ listedUnder o1 i j).
Proof.
  intros Hl Hr Hl' Hr' Hcard Hcard' Hon Hls Hinit Hinit'.
  destruct (initOutputs_by_series rangeKeys o o1 a b l r rangeKeys_perm
              Hl Hr Hinit) as (Hs & Hhi & Hlo & Hout & Hlisted).
  rewrite <- Hr' in Hl. rewrite <- Hl' in Hr.
  destruct (initOutputs_by_series rangeKeys' o' o1' b a r l rangeKeys'_perm
              Hr Hl Hinit') as (Hs' & Hhi' & Hlo' & Hout' & Hlisted').
  cbv zeta in *. unfold highCardSide, lowCardSide in *.
  rewrite Hcard in Hs, Hhi, Hlo, Hout, Hlisted.
  rewrite Hcard' in Hs', Hhi', Hlo', Hout', Hlisted'.
  simpl in Hs, Hhi, Hlo, Hout, Hlisted, Hs', Hhi', Hlo', Hout', Hlisted'.
  rewrite !(hashSeries_matching _ _ _ _ _ _ Hon Hls) in Hs'.
  rewrite (joinKey_matching _ _ _ _ Hon Hls),
    (retained_matching _ _ _ _ Hon Hls) in Hout'.
  rewrite (firstPartner_matching _ _ _ _ Hon Hls) in Hlisted'.
  split_and!.
  - by rewrite Hs, Hs'.
  - by rewrite Hhi, Hhi'.
  - by rewrite Hlo, Hlo'.
  - intros i. by rewrite Hout, Hout'.
  - intros i j. by rewrite Hlisted, Hlisted'.
Qed.

End group_right.

(** ** More on the number-literal selector *)

Lemma float64OfInt_lower x : - 2 ^ 63 ≤ x → - 2 ^ 63 ≤ scan.float64OfInt x.
Proof.
  intros Hx. unfold scan.float64OfInt. cbv zeta.
  destruct (decide (Z.abs x < 2 ^ 53)) as [|Hbig]; [lia|].
  set (a := Z.abs x) in *. set (e := Z.log2 a - 52).
  set (q := if decide (a `mod` 2 ^ e < 2 ^ (e - 1)) then a / 2 ^ e
            else if decide (2 ^ (e - 1) < a `mod` 2 ^ e) then a / 2 ^ e + 1
            else if Z.even (a / 2 ^ e) then a / 2 ^ e else a / 2 ^ e + 1).
  assert (0 < a) as Ha by lia.
  pose proof (Z.log2_spec a Ha) as [Hlo Hhi].
  assert (53 ≤ Z.log2 a) as Hlog.
  { apply Z.log2_le_pow2; lia. }
  assert (0 < 2 ^ e) as He by (apply Z.pow_pos_nonneg; lia).
  assert (0 ≤ a / 2 ^ e) as Hq0 by (apply Z.div_pos; lia).
  assert (a / 2 ^ e < 2 ^ 53) as Hq1.
  { apply Z.div_lt_upper_bound; [done|].
    rewrite <- Z.pow_add_r by lia.
    replace (e + 53) with (Z.succ (Z.log2 a)) by lia. done. }
  assert (0 ≤ q ≤ 2 ^ 53) as Hq.
  { unfold q. repeat case_decide; try destruct (Z.even _); lia. }
  destruct (decide (0 ≤ x)) as [Hpos|Hneg].
  - rewrite Z.sgn_pos by lia. nia.
  - rewrite Z.sgn_neg by lia.
    destruct (decide (x = - 2 ^ 63)) as [->|Hne]; [vm_compute; done|].
    assert (a < 2 ^ 63) as Ha63 by lia.
    assert (Z.log2 a < 63) as Hlog63 by (apply Z.log2_lt_pow2; lia).
    assert (q * 2 ^ e ≤ 2 ^ 63); [|lia].
    transitivity (2 ^ 53 * 2 ^ e); [nia|].
    rewrite <- Z.pow_add_r by lia. apply Z.pow_le_mono_r; lia.
Qed.

Lemma int64_range z : - 2 ^ 63 ≤ scan.int64 z < 2 ^ 63.
Proof.
  unfold scan.int64.
  pose proof (Z.mod_pos_bound (z + 2 ^ 63) (2 ^ 64) ltac:(lia)). lia.
Qed.

Section selector_facts.
Context {float64 : Type}.

Local Abbreviation selector := (scan.numberLiteralSelector float64).

Lemma totalSteps_range (o : selector) :
  - 2 ^ 63 ≤ scan.totalSteps o < 2 ^ 63.
Proof.
  unfold scan.totalSteps. destruct (decide _); [apply int64_range|lia].
Qed.

(** With a batch size in the range in which [float64] holds it exactly, a
    batch has room for at most [stepsBatch] steps. *)
Lemma numSteps_le_stepsBatch (o : selector) :
  - 2 ^ 53 < scan.stepsBatch o < 2 ^ 53 →
  scan.numSteps o ≤ scan.stepsBatch o.
Proof.
  intros Hsb. unfold scan.numSteps, scan.intOfFloat64.
  rewrite (float64OfInt_small (scan.stepsBatch o)) by lia.
  pose proof (float64OfInt_lower (scan.totalSteps o)
                (proj1 (totalSteps_range o))).
  rewrite int64_small by lia. lia.
Qed.

Lemma visited_le_maxt (o : selector) n : ∀ ts ts',
  ts' ∈ visited o n ts → ts' ≤ scan.maxt o.
Proof.
  induction n as [|n IH]; intros ts ts'; cbn [visited].
  { by intros ?%not_elem_of_nil. }
  destruct (decide _); [|by intros ?%not_elem_of_nil].
  intros [->|Hin]%elem_of_cons; [done|]. by eapply IH.
Qed.

Lemma length_visited (o : selector) n : ∀ ts,
  (length (visited o n ts) ≤ n)%nat.
Proof.
  induction n as [|n IH]; intros ts; cbn [visited]; [done|].
  destruct (decide _); simpl; [|lia].
  specialize (IH (scan.int64 (ts + scan.step o))). lia.
Qed.

Lemma head_visited (o : selector) n ts ts' :
  head (visited o n ts) = Some ts' → ts' = ts.
Proof.
  destruct n as [|n]; cbn [visited]; [done|].
  destruct (decide _); [|done]. by intros [= <-].
Qed.

Lemma loaded_loadSeries (o : selector) :
  loaded o → loaded (scan.loadSeries o).
Proof. intros H. right. by apply series_loadSeries. Qed.

Lemma loaded_Next (o : selector) : loaded o → loaded (scan.Next o).2.
Proof.
  intros H. unfold scan.Next. destruct (decide _); [done|].
  destruct (scan.nextLoop _ _ _ _ _); simpl;
    by apply loaded_loadSeries.
Qed.

(** X16. The selector keeps its one series. A new selector is [loaded], and
    [Next] and [Series] keep it so; on a [loaded] selector [Next] returns no
    error and does not panic (the reads of [o.series[0]] and of
    [vectors[currStep]] are in range), and [Series] returns one label set,
    the empty one. *)
Theorem loaded_kept :
  (∀ mint maxt step stepsBatch (val : float64) call,
     loaded (scan.NewNumberLiteralSelector mint maxt step stepsBatch val call))
  ∧ ∀ o : selector, loaded o →
      loaded (scan.Next o).2 ∧ loaded (scan.Series o).2
      ∧ is_Ok (scan.Next o).1 ∧ (scan.Series o).1 = Ok [[]].
Proof.
  split; [intros; by left|]. intros o H.
  split; [by apply loaded_Next|].
  split; [by apply loaded_loadSeries|].
  split; [|by apply Series_one_label_set].
  destruct (decide (scan.currentStep o > scan.maxt o)).
  - by rewrite Next_past_maxt.
  - by rewrite Next_spec.
Qed.

(** X18. [Next] stays within the range of time: every step vector of a batch
    is that of a timestamp not after [maxt], the first one that of the
    current step, and a batch holds no more than [stepsBatch] of them. *)
Theorem Next_within_maxt (o : selector) batch :
  loaded o → - 2 ^ 53 < scan.stepsBatch o < 2 ^ 53 →
  (scan.Next o).1 = Ok batch →
  (∀ v, v ∈ batch → ∃ ts, ts ≤ scan.maxt o ∧ v = stepVectorAt o ts)
  ∧ (∀ v, head batch = Some v → v = stepVectorAt o (scan.currentStep o))
  ∧ Z.of_nat (length batch) ≤ Z.max 0 (scan.stepsBatch o).
Proof.
  intros Hwf Hsb.
  destruct (decide (scan.currentStep o > scan.maxt o)) as [H|H].
  { rewrite Next_past_maxt by done. intros [= <-].
    split; [by intros v ?%not_elem_of_nil|]. split; [done|]. simpl. lia. }
  rewrite Next_spec by done. intros [= <-]. split; [|split].
  - intros v (ts & -> & Hts)%list_elem_of_fmap. exists ts.
    split; [|done]. by eapply visited_le_maxt.
  - intros v. rewrite head_lookup, list_lookup_fmap, <- head_lookup.
    intros (ts & ->%head_visited & ->)%fmap_Some. done.
  - rewrite length_fmap.
    pose proof (length_visited o (Z.to_nat (scan.numSteps o))
                  (scan.currentStep o)).
    pose proof (numSteps_le_stepsBatch o Hsb). lia.
Qed.

(** X19. A batch size of zero or less: [Next] returns an empty batch on the
    first call, whatever the range of time. *)
Theorem Next_no_room (o : selector) :
  - 2 ^ 53 < scan.stepsBatch o ≤ 0 → (scan.Next o).1 = Ok [].
Proof.
  intros Hsb. apply Next_no_steps.
  pose proof (numSteps_le_stepsBatch o ltac:(lia)). lia.
Qed.

Lemma once_loadSeries (o : selector) : scan.once (scan.loadSeries o) = true.
Proof. unfold scan.loadSeries. by destruct (scan.once o) eqn:E. Qed.

Lemma loadSeries_once (o : selector) :
  scan.once o = true → scan.loadSeries o = o.
Proof. unfold scan.loadSeries. by intros ->. Qed.

(** X20. [Series] does not move the selector: [Next] returns the same batch
    and gets to the same step with or without a call of [Series] before it,
    and a second call of [Series] changes nothing. *)
Theorem Series_then_Next (o : selector) :
  loaded o →
  (scan.Next (scan.Series o).2).1 = (scan.Next o).1
  ∧ scan.currentStep (scan.Next (scan.Series o).2).2
    = scan.currentStep (scan.Next o).2
  ∧ scan.Series (scan.Series o).2 = scan.Series o.
Proof.
  intros Hwf. unfold scan.Series at 1 2 4. cbn [fst snd].
  assert (scan.loadSeries (scan.loadSeries o) = scan.loadSeries o) as Hidem
    by apply loadSeries_once, once_loadSeries.
  split; [|split].
  - destruct (decide (scan.currentStep o > scan.maxt o)) as [H|H].
    + rewrite !Next_past_maxt;
        by rewrite ?currentStep_loadSeries, ?maxt_loadSeries.
    + rewrite (Next_spec o), (Next_spec (scan.loadSeries o)); try done.
      * rewrite numSteps_loadSeries, currentStep_loadSeries.
        rewrite visited_loadSeries. cbn [fst]. f_equal.
        apply list_fmap_ext. intros _ ts _. apply stepVectorAt_loadSeries.
      * by rewrite currentStep_loadSeries, maxt_loadSeries.
      * right. by apply series_loadSeries.
  - destruct (decide (scan.currentStep o > scan.maxt o)) as [H|H].
    + rewrite (Next_past_maxt o), (Next_past_maxt (scan.loadSeries o));
        [|by rewrite ?currentStep_loadSeries, ?maxt_loadSeries..].
      cbn [snd]. apply currentStep_loadSeries.
    + rewrite (Next_spec o), (Next_spec (scan.loadSeries o)); try done.
      * cbn [snd scan.withCurrentStep scan.currentStep].
        by rewrite numSteps_loadSeries, currentStep_loadSeries,
          step_loadSeries.
      * by rewrite currentStep_loadSeries, maxt_loadSeries.
      * right. by apply series_loadSeries.
  - unfold scan.Series. by rewrite Hidem.
Qed.

(** The one call of [Next] of a selector with step zero. *)
Lemma Next_zero_step_once (o : selector) :
  loaded o → scan.step o = 0 →
  - 2 ^ 63 ≤ scan.currentStep o ≤ scan.maxt o → scan.maxt o < 2 ^ 63 →
  1 ≤ scan.stepsBatch o < 2 ^ 53 →
  scan.Next o
  = (Ok [stepVectorAt o (scan.currentStep o)],
     scan.withCurrentStep (scan.currentStep o) (scan.loadSeries o)).
Proof.
  intros Hwf Hstep Hcs Hmaxt Hsb.
  assert (scan.numSteps o = 1) as Hn.
  { unfold scan.numSteps, scan.totalSteps, scan.intOfFloat64.
    rewrite decide_False by lia.
    rewrite !float64OfInt_small by lia. rewrite int64_small by lia. lia. }
  rewrite Next_spec by (done || lia). rewrite Hn, Hstep. f_equal.
  - change (Z.to_nat 1) with 1%nat. cbn [visited].
    by rewrite decide_True by lia.
  - f_equal. rewrite Z.mul_0_l, (int64_small 0) by lia.
    rewrite Z.add_0_r. apply int64_small. lia.
Qed.

(** X21. A selector with step zero (an instant query) that has not passed
    [maxt] never gets to the end of its stream: every call of [Next] returns
    the step vector of the current step, and the current step stays. *)
Theorem Next_zero_step (o : selector) n :
  loaded o → scan.step o = 0 →
  - 2 ^ 63 ≤ scan.currentStep o ≤ scan.maxt o → scan.maxt o < 2 ^ 63 →
  1 ≤ scan.stepsBatch o < 2 ^ 53 →
  (scan.Next (after n o)).1 = Ok [stepVectorAt o (scan.currentStep o)]
  ∧ scan.currentStep (after n o) = scan.currentStep o.
Proof.
  intros Hwf Hstep Hcs Hmaxt Hsb.
  set (o1 := scan.withCurrentStep (scan.currentStep o) (scan.loadSeries o)).
  assert (scan.Next o1 = (Ok [stepVectorAt o (scan.currentStep o)], o1))
    as Hfix.
  { rewrite Next_zero_step_once.
    - unfold o1 at 1 2 3. cbn [scan.currentStep scan.withCurrentStep].
      f_equal.
      + f_equal. unfold stepVectorAt, stepSample. cbn.
        unfold scan.loadSeries. by destruct (scan.once o).
      + rewrite loadSeries_once; [done|]. apply once_loadSeries.
    - right. by apply series_loadSeries.
    - unfold o1. cbn. by rewrite step_loadSeries.
    - unfold o1. cbn. by rewrite maxt_loadSeries.
    - unfold o1. cbn. by rewrite maxt_loadSeries.
    - unfold o1. cbn. unfold scan.loadSeries. by destruct (scan.once o). }
  assert (∀ k, after (S k) o = o1) as Hafter.
  { induction k as [|k IH].
    - unfold after. simpl. change (opNext o) with (scan.Next o).
      by rewrite Next_zero_step_once.
    - rewrite after_S, IH. change (opNext o1) with (scan.Next o1).
      by rewrite Hfix. }
  destruct n as [|n].
  - split; [|done]. change (after 0 o) with o.
    by rewrite Next_zero_step_once.
  - rewrite Hafter, Hfix. split; [done|]. unfold o1. done.
Qed.

End selector_facts.

Section batches.
Context {float64 : Type}.
Context (mint maxt step stepsBatch : Z) (val : float64).
Context (call : option (scan.FunctionCall float64)).
Hypothesis Hmint : 0 ≤ mint ≤ maxt.
Hypothesis Hstep : 0 < step.
Hypothesis HstepsBatch : 1 ≤ stepsBatch < 2 ^ 53.
Hypothesis Htotal : (maxt - mint) `div` step + 1 < 2 ^ 53.
Hypothesis Hmaxt : maxt + step * stepsBatch < 2 ^ 63.

Local Abbreviation fresh :=
  (scan.NewNumberLiteralSelector mint maxt step stepsBatch val call).
Local Abbreviation allSteps := ((maxt - mint) `div` step + 1).
Local Abbreviation perBatch := (Z.min stepsBatch allSteps).
Local Abbreviation atStep j :=
  (scan.withCurrentStep (mint + j * step) (scan.loadSeries fresh)).

(** X23. The batches of a range query. For [step > 0] (and times and batch
    sizes in the range in which the arithmetic of [Next] is exact), with
    [(maxt - mint) / step + 1] steps in all and [perBatch] the smaller of
    [stepsBatch] and that number, the call number [k] of [Next] returns the
    step vectors of the timestamps [mint + j * step] for the [perBatch]
    values of [j] from [k * perBatch] on, as far as they are steps of the
    query: full batches, then a shorter one, then empty ones. *)
Theorem range_query_batches (k : nat) :
  let first := Z.of_nat k * perBatch in
  (scan.Next (after k fresh)).1
  = Ok (stepVectorAt fresh
          <$> ((λ j, mint + j * step)
                 <$> seqZ first (Z.min perBatch (allSteps - first)))).
Proof.
  cbv zeta.
  pose proof (Z.div_pos (maxt - mint) step ltac:(lia) ltac:(lia)) as Hlast.
  assert (∀ j, 0 ≤ j →
    scan.Next (atStep j)
    = (Ok (stepVectorAt fresh
             <$> ((λ j, mint + j * step)
                    <$> seqZ j (Z.min perBatch (allSteps - j)))),
       atStep (if decide (j ≤ allSteps - 1) then j + perBatch else j)))
    as Hnext.
  { intros j Hj. destruct (decide (j ≤ allSteps - 1)) as [Hin|Hout].
    - rewrite (Next_atStep mint maxt step stepsBatch val call
                 Hmint Hstep HstepsBatch Htotal Hmaxt j) by lia.
      do 4 f_equal; lia.
    - rewrite (Next_atStep_past mint maxt step stepsBatch val call
                 Hmint Hstep j) by lia.
      by rewrite seqZ_nil by lia. }
  assert (scan.Next fresh = scan.Next (atStep 0)) as H0.
  { assert (atStep 0 = scan.loadSeries fresh) as ->.
    { unfold scan.withCurrentStep, scan.loadSeries. simpl. f_equal. lia. }
    rewrite (Next_spec fresh) by (simpl; (lia || by left)).
    rewrite (Next_spec (scan.loadSeries fresh));
      [|simpl; lia|right; simpl; by destruct call].
    rewrite numSteps_loadSeries, currentStep_loadSeries, step_loadSeries.
    rewrite visited_loadSeries. f_equal. }
  assert (∀ n, ∃ j, 0 ≤ j ∧ after (S n) fresh = atStep j
                    ∧ (j ≤ allSteps - 1 → j = Z.of_nat (S n) * perBatch)
                    ∧ (allSteps - 1 < j → allSteps ≤ Z.of_nat (S n) * perBatch))
    as Hafter.
  { assert (∀ m : nat, Z.of_nat (S m) * perBatch
                       = Z.of_nat m * perBatch + perBatch) as Hsucc
      by (intros m; lia).
    induction n as [|n (j & Hj & IH & Hin & Hout)].
    - exists perBatch. rewrite Hsucc. split; [lia|]. split; [|lia].
      unfold after. simpl. change (opNext fresh) with (scan.Next fresh).
      rewrite H0, Hnext by lia. rewrite decide_True by lia. done.
    - rewrite (after_S (S n)), IH.
      change (opNext (atStep j)) with (scan.Next (atStep j)).
      rewrite Hnext by done. cbn [snd]. rewrite (Hsucc (S n)).
      destruct (decide (j ≤ allSteps - 1)) as [Hle|Hgt].
      + exists (j + perBatch). split; [lia|]. split; [done|].
        specialize (Hin Hle). lia.
      + exists j. split; [done|]. split; [done|].
        specialize (Hout ltac:(lia)). lia. }
  destruct k as [|k].
  - change (after 0 fresh) with fresh. rewrite H0, Hnext by lia.
    cbn [fst]. do 3 f_equal; lia.
  - destruct (Hafter k) as (j & Hj & -> & Hin & Hout).
    rewrite Hnext by done. cbn [fst]. do 2 f_equal.
    destruct (decide (j ≤ allSteps - 1)) as [Hle|Hgt].
    + by rewrite (Hin Hle).
    + specialize (Hout ltac:(lia)). by rewrite !seqZ_nil by lia.
Qed.

End batches.

(** ** Scenarios *)

Import scenario.

Lemma rangeKeys_elements (s : gset N) : scenario.rangeKeys s ≡ₚ elements s.
Proof. reflexivity. Qed.

(** C1, counterexample. [up1] and [up2] have the signature of [down1] under
    the one-to-one matching [on(job)]; the initialization returns no error
    and builds a series list with an output for each of the two. *)
Lemma many_to_many_not_detected :
  let o := plan [up1; up2] [down1] onJob [] [] in
  let high := binary.hashSeries HashWithoutLabels HashForLabels onJob
                [up1; up2] true in
  let low := binary.hashSeries HashWithoutLabels HashForLabels onJob
               [down1] false in
  Card onJob = CardOneToOne ∧ Include onJob = []
  ∧ joinKey HashWithoutLabels HashForLabels onJob up1
    = joinKey HashWithoutLabels HashForLabels onJob down1
  ∧ joinKey HashWithoutLabels HashForLabels onJob up2
    = joinKey HashWithoutLabels HashForLabels onJob down1
  ∧ binary.join scenario.rangeKeys high.1 high.2 low.1 low.2
    = Ok ([{| ID := 0; Metric := [label "job" "a"] |};
           {| ID := 1; Metric := [label "job" "a"] |}],
          [Some 0%N; Some 1%N], [[0%N; 1%N]; []])
  ∧ (scenario.initOutputs o).1 = Ok ()
  ∧ binary.series (scenario.initOutputs o).2
    = [[label "job" "a"]; [label "job" "a"]]
  ∧ binary.highCardOutputIndex (scenario.initOutputs o).2
    = [Some 0%N; Some 1%N]
  ∧ binary.lowCardOutputIndex (scenario.initOutputs o).2 = [[0%N; 1%N]; []].
Proof. vm_compute. repeat split. Qed.

(** C1, at the same plan: the two series get two outputs. *)
Lemma initOutputs_many_to_many_witness :
  let o := plan [up1; up2] [down1] onJob [] [] in
  ∃ k1 k2, k1 ≠ k2
    ∧ binary.highCardOutputIndex (scenario.initOutputs o).2 !! 0%nat
      = Some (Some k1)
    ∧ binary.highCardOutputIndex (scenario.initOutputs o).2 !! 1%nat
      = Some (Some k2).
Proof.
  intros o.
  assert (¬ is_Panic (scenario.initOutputs o).1) as Hres
    by (vm_compute; tauto).
  pose proof (initOutputs_many_to_many HashWithoutLabels HashForLabels
    scenario.rangeKeys rangeKeys_elements tt newTable
    o (scenario.initOutputs o).2 [up1; up2] [down1]
    (binary.lhs o) (binary.rhs o) 0 1 up1 up2 down1
    (scenario.initOutputs o).1) as H.
  lapply H; [clear H; intros H|reflexivity].
  lapply H; [clear H; intros H|reflexivity].
  lapply H; [clear H; intros H|reflexivity].
  lapply H; [clear H; intros H|reflexivity].
  lapply H; [clear H; intros H|reflexivity].
  lapply H; [clear H; intros H|lia].
  lapply H; [clear H; intros H|left].
  lapply H; [clear H; intros H|vm_compute; reflexivity].
  lapply H; [clear H; intros H|vm_compute; reflexivity].
  lapply H; [clear H; intros H|apply surjective_pairing].
  destruct H as [_ H]. specialize (H Hres). destruct H as [H _].
  destruct H as (k1 & k2 & Hne & H1 & H2 & _).
  exists k1, k2. split; [exact Hne|]. split; [exact H1|exact H2].
Defined.

(** C2, counterexample. The operator is initialized. The left child returns
    step vectors with the timestamps 1000 and 2000, the right child with
    1500 and 2500. Whatever [execBinaryOperation] does with them, [Next]
    returns no error: it returns a batch of two steps, or it panics. *)
Lemma misaligned_steps_not_detected :
  let rhs := [stepVector 1500 [0%N] [5]; stepVector 2500 [0%N] [6]] in
  let o := initialized rhs in
  T <$> lhsBatch = [1000; 2000] ∧ T <$> rhs = [1500; 2500]
  ∧ (opNext (binary.lhs o)).1 = Ok lhsBatch
  ∧ (opNext (binary.rhs o)).1 = Ok rhs
  ∧ binary.once o = true
  ∧ ∀ exec : table → StepVector value → StepVector value →
             option (StepVector value * table),
      let res := (binary.Next HashWithoutLabels HashForLabels
                    scenario.rangeKeys tt newTable exec o).1 in
      ¬ is_Err res ∧ ∀ batch, res = Ok batch → length batch = 2%nat.
Proof.
  intros rhs o. do 5 (split; [vm_compute; reflexivity|]). intros exec res.
  pose proof (Next_initialized HashWithoutLabels HashForLabels
    scenario.rangeKeys tt newTable exec o lhsBatch rhs
    (opNext (binary.lhs o)).2 (opNext (binary.rhs o)).2) as H.
  lapply H; [clear H; intros H|vm_compute; reflexivity].
  lapply H; [clear H; intros H|vm_compute; reflexivity].
  lapply H; [clear H; intros H|discriminate].
  lapply H; [clear H; intros H|discriminate].
  lapply H; [clear H; intros H|vm_compute; reflexivity].
  fold res in H. destruct res as [batch|e|msg]; [|done|].
  - split; [simpl; tauto|]. by intros b [= <-].
  - split; [simpl; tauto|done].
Qed.

(** C2, at a plan whose children return one aligned step each. *)
Lemma Next_no_alignment_error_witness :
  let o := plan [up1] [down1] onJob
             [Ok [stepVector 1000 [0%N] [10]]]
             [Ok [stepVector 1000 [0%N] [5]]] in
  (scenario.Next o).1 = Ok [stepVector 1000 [0%N] [15]]
  ∧ length [stepVector 1000 [0%N] [15]] = 1%nat.
Proof.
  intros o. split; [vm_compute; reflexivity|].
  apply (Next_no_alignment_error HashWithoutLabels HashForLabels
    scenario.rangeKeys tt newTable execBinaryOperation o
    [stepVector 1000 [0%N] [10]] [stepVector 1000 [0%N] [5]]
    {| labelsOf := Ok [up1]; batches := [] |}
    {| labelsOf := Ok [down1]; batches := [] |}).
  - reflexivity.
  - reflexivity.
  - discriminate.
  - discriminate.
  - vm_compute. reflexivity.
Defined.

(** C3, counterexample. With [ignoring(instance)] the output keeps the
    label [instance], which the specification has removed; with
    [group_left(region)] the output has no label [region], which the
    specification has added from the low cardinality side. *)
Lemma output_labels_differ :
  binary.series
    (scenario.initOutputs (plan [up1] [down1] ignoringInstance [] [])).2
  = [[label "instance" "x"; label "job" "a"]]
  ∧ specOutputLabels ignoringInstance up1 down1 = [label "job" "a"]
  ∧ (label "instance" "x" ∉ specOutputLabels ignoringInstance up1 down1)
  ∧ binary.series
      (scenario.initOutputs (plan [up1] [info] groupLeft [] [])).2
    = [[label "job" "a"]]
  ∧ specOutputLabels groupLeft up1 info
    = [label "job" "a"; label "region" "eu"]
  ∧ label "region" "eu" ∉ [label "job" "a"].
Proof.
  assert (specOutputLabels ignoringInstance up1 down1 = [label "job" "a"])
    as Hspec by (vm_compute; reflexivity).
  split; [vm_compute; reflexivity|]. split; [exact Hspec|].
  split; [rewrite Hspec; by intros [=]%list_elem_of_singleton|].
  split; [vm_compute; reflexivity|]. split; [vm_compute; reflexivity|].
  by intros [=]%list_elem_of_singleton.
Qed.

(** C3, at the plan with [ignoring(instance)]. *)
Lemma initOutputs_output_labels_witness :
  let o := plan [up1] [down1] ignoringInstance [] [] in
  ∃ i m, [up1] !! i = Some m
         ∧ [label "instance" "x"; label "job" "a"]
           = retained HashWithoutLabels HashForLabels ignoringInstance true m.
Proof.
  intros o.
  destruct (initOutputs_output_labels HashWithoutLabels HashForLabels
    scenario.rangeKeys rangeKeys_elements tt newTable
    o (scenario.initOutputs o).2 [up1] [down1]
    (binary.lhs o) (binary.rhs o)) as [H _].
  - reflexivity.
  - reflexivity.
  - vm_compute; reflexivity.
  - apply (H 0%nat). vm_compute. reflexivity.
Defined.

(** C4, the instant query. The selector of an instant query ([step = 0])
    returns its step vector on every call of [Next]: it never gets to the end
    of its stream. *)
Theorem instant_query_never_ends n :
  (scan.Next (after n instant)).1 = Ok [stepVector 1000 [0%N] [7]].
Proof.
  assert (∀ n, after (S n) instant = after 1 instant) as H.
  { clear n. induction n as [|n IH]; [done|].
    rewrite after_S, IH. vm_compute. reflexivity. }
  destruct n as [|n]; [vm_compute; reflexivity|].
  rewrite H. vm_compute. reflexivity.
Qed.

(** C5, counterexample. The left child returns an empty batch and the right
    child an error: [Next] returns the error. *)
Lemma child_error_with_empty_batch :
  let o := plan [up1] [down1] onJob [] [Err "storage"%string] in
  (opNext (binary.lhs o)).1 = Ok []
  ∧ (opNext (binary.rhs o)).1 = Err "storage"%string
  ∧ (scenario.Next o).1 = Err "storage"%string.
Proof. vm_compute. repeat split. Qed.

(** C5, at a plan whose left child is at its end, at that plan with a right
    child that returns an error, and at a plan whose left child returns an
    error: the right child is left as it was. *)
Lemma Next_empty_child_witness :
  let o := plan [up1] [down1] onJob [] [Ok [stepVector 1000 [0%N] [5]]] in
  let o' := plan [up1] [down1] onJob [] [Err "storage"%string] in
  let o'' := plan [up1] [down1] onJob [Err "storage"%string]
               [Ok [stepVector 1000 [0%N] [5]]] in
  scenario.Next o
  = (Ok [], binary.withChildren
              {| labelsOf := Ok [up1]; batches := [] |}
              {| labelsOf := Ok [down1]; batches := [] |} o)
  ∧ scenario.Next o'
    = (Err "storage"%string,
       binary.withChildren
         {| labelsOf := Ok [up1]; batches := [] |}
         {| labelsOf := Ok [down1]; batches := [] |} o')
  ∧ scenario.Next o''
    = (Err "storage"%string,
       binary.withChildren
         {| labelsOf := Ok [up1]; batches := [] |} (binary.rhs o'') o'').
Proof.
  intros o o' o''. split; [|split].
  - apply (proj1 (Next_empty_child HashWithoutLabels HashForLabels
      scenario.rangeKeys tt newTable execBinaryOperation o)
      [] [stepVector 1000 [0%N] [5]]).
    + reflexivity.
    + reflexivity.
    + left. reflexivity.
  - apply (proj2 (proj2 (Next_empty_child HashWithoutLabels HashForLabels
      scenario.rangeKeys tt newTable execBinaryOperation o')) []).
    + reflexivity.
    + reflexivity.
  - apply (proj1 (proj2 (Next_empty_child HashWithoutLabels HashForLabels
      scenario.rangeKeys tt newTable execBinaryOperation o''))).
    reflexivity.
Defined.

(** C6, counterexample. The left child is at its end; the right child
    returns a batch and then an error. The operator returns an empty batch
    and then that error. *)
Lemma error_after_end_of_stream :
  let o := plan [up1] [down1] onJob []
             [Ok [stepVector 1000 [0%N] [5]]; Err "storage"%string] in
  (scenario.Next o).1 = Ok []
  ∧ (scenario.Next (scenario.Next o).2).1 = Err "storage"%string.
Proof. vm_compute. split; reflexivity. Qed.

Lemma after_past n : after n past = past.
Proof.
  induction n as [|n IH]; [reflexivity|].
  rewrite after_S, IH. vm_compute. reflexivity.
Qed.

Lemma after_replay_end (c : replay) n : batches c = [] → after n c = c.
Proof.
  intros Hc. induction n as [|n IH]; [reflexivity|].
  rewrite after_S, IH. destruct c as [ls bs]. simpl in Hc. by subst bs.
Qed.

(** C6, at a plan over two replayed children, the left one at its end and
    the right one at its end after one batch; at that plan with a right
    child that returns an error after its batch; and at the sum of two
    number literals over an empty range of time. *)
Lemma Next_after_end_of_stream_witness :
  let o := plan [up1] [down1] onJob [] [Ok [stepVector 1000 [0%N] [5]]] in
  let o' := plan [up1] [down1] onJob []
              [Ok [stepVector 1000 [0%N] [5]]; Err "storage"%string] in
  (scenario.Next (after 3 (scenario.Next o).2)).1 = Ok []
  ∧ (scenario.Next (scenario.Next o').2).1 = Err "storage"%string
  ∧ (scenario.Next (after 3 (scenario.Next literals).2)).1 = Ok [].
Proof.
  intros o o'. split; [|split].
  - apply (proj1 (proj2 (Next_after_end_of_stream HashWithoutLabels
      HashForLabels scenario.rangeKeys tt newTable execBinaryOperation)) o).
    + intros _ n.
      change (opNext (binary.lhs o)).2
        with {| labelsOf := Ok [up1]; batches := [] |}.
      rewrite after_replay_end by reflexivity. reflexivity.
    + intros H. vm_compute in H. discriminate H.
    + vm_compute. reflexivity.
    + intros j.
      change (binary.lhs (scenario.Next o).2)
        with {| labelsOf := Ok [up1]; batches := [] |}.
      rewrite after_replay_end by reflexivity. exact I.
    + intros j.
      change (binary.rhs (scenario.Next o).2)
        with {| labelsOf := Ok [down1]; batches := [] |}.
      rewrite after_replay_end by reflexivity. exact I.
  - apply (proj2 (proj2 (Next_after_end_of_stream HashWithoutLabels
      HashForLabels scenario.rangeKeys tt newTable execBinaryOperation))
      (scenario.Next o').2).
    right. split; [vm_compute; exact I|vm_compute; reflexivity].
  - apply (proj1 (proj2 (Next_after_end_of_stream HashWithoutLabels
      HashForLabels scenario.rangeKeys tt newTable execBinaryOperation))
      literals).
    + exact (proj1 (Next_after_end_of_stream HashWithoutLabels HashForLabels
        scenario.rangeKeys tt newTable execBinaryOperation
        (L:=replay) (R:=replay)) past).
    + exact (proj1 (Next_after_end_of_stream HashWithoutLabels HashForLabels
        scenario.rangeKeys tt newTable execBinaryOperation
        (L:=replay) (R:=replay)) past).
    + vm_compute. reflexivity.
    + intros j. change (binary.lhs (scenario.Next literals).2) with past.
      rewrite after_past. vm_compute. exact I.
    + intros j. change (binary.rhs (scenario.Next literals).2) with past.
      rewrite after_past. vm_compute. exact I.
Defined.

(** C7, the failing input. Under [on(job, instance)] the names reach
    [HashForLabels] as they are written, which is not in ascending order.
    The walk passes over the label [instance] while the name at hand is
    [job], and is at the end of the label set once it has digested the
    label [job]: the signature is the digest of the label [job] alone,
    whatever the digest of a sequence of bytes is. [up1] and [up2], which
    differ in [instance], have the same signature, and both are joined with
    the series [downX] that has the instance of [up1]; under
    [on(instance, job)] only [up1] is. *)
Theorem signature_unsorted_matching_labels :
  (∀ Sum64 : string → N,
     joinKey (labels.HashWithoutLabels Sum64) (labels.HashForLabels Sum64)
       onJobInstance up1
     = Sum64 (bytesOf [label "job" "a"])
     ∧ joinKey (labels.HashWithoutLabels Sum64) (labels.HashForLabels Sum64)
         onJobInstance up2
       = Sum64 (bytesOf [label "job" "a"]))
  ∧ filter (λ l, Name l ∈ MatchingLabels onJobInstance) up1
    = [label "instance" "x"; label "job" "a"]
  ∧ filter (λ l, Name l ∈ MatchingLabels onJobInstance) up2
    = [label "instance" "y"; label "job" "a"]
  ∧ (scenario.Series (plan [up1; up2] [downX] onJobInstance [] [])).1
    = Ok [[label "instance" "x"; label "job" "a"];
          [label "instance" "y"; label "job" "a"]]
  ∧ (scenario.Series (plan [up1; up2] [downX] onInstanceJob [] [])).1
    = Ok [[label "instance" "x"; label "job" "a"]].
Proof.
  split; [intros Sum64; split; reflexivity|].
  repeat split; vm_compute; reflexivity.
Qed.

(** The signatures of the scenarios with matching labels in ascending
    order. *)
Lemma signature_sorted_example :
  joinKey HashWithoutLabels HashForLabels onInstanceJob up2
  = Sum64 (bytesOf [label "instance" "y"; label "job" "a"])
  ∧ joinKey HashWithoutLabels HashForLabels ignoringInstance up2
    = Sum64 (bytesOf [label "job" "a"]).
Proof.
  split.
  - apply (signature_sorted Sum64 up2 true ["instance"; "job"]%string true).
    + repeat constructor; vm_compute; tauto.
    + repeat constructor.
  - apply (signature_sorted Sum64 up2 false ["instance"]%string true).
    + repeat constructor; vm_compute; tauto.
    + repeat constructor.
Qed.

(** C8, at a one-to-one join of two series with one. *)
Lemma initOutputs_dense_output_ids_witness :
  let o := plan [up1; up2] [down1] onJob [] [] in
  binary.highCardOutputIndex (scenario.initOutputs o).2 !! 1%nat
  = Some (Some 1%N)
  ∧ (N.to_nat 1 < length (binary.series (scenario.initOutputs o).2))%nat.
Proof.
  intros o. split; [vm_compute; reflexivity|].
  destruct (initOutputs_dense_output_ids HashWithoutLabels HashForLabels
    scenario.rangeKeys rangeKeys_elements tt newTable
    o (scenario.initOutputs o).2 [up1; up2] [down1]
    (binary.lhs o) (binary.rhs o)) as (output & _ & _ & _ & H & _).
  - reflexivity.
  - reflexivity.
  - vm_compute; reflexivity.
  - apply (H 1%nat 1%N). vm_compute. reflexivity.
Defined.

(** C9, the failing input. The left child has one series and the right
    child two, of which the second is the partner: [join] writes
    [lowCardOutputIndex[1]] in a slice of length one. *)
Theorem join_low_cardinality_index_out_of_range :
  let high := binary.hashSeries HashWithoutLabels HashForLabels onJob
                [up1] true in
  let low := binary.hashSeries HashWithoutLabels HashForLabels onJob
               [downB; down1] false in
  binary.join scenario.rangeKeys high.1 high.2 low.1 low.2
  = Panic "index out of range"
  ∧ (scenario.Series (plan [up1] [downB; down1] onJob [] [])).1
    = Panic "index out of range".
Proof. vm_compute. split; reflexivity. Qed.

(** C10, the failing input. The left child returns a batch of two step
    vectors and the right child a batch of one: the step loop reads
    [rhs[1]]. *)
Theorem Next_rhs_index_out_of_range :
  let o := plan [up1] [down1] onJob
             [Ok [stepVector 1000 [0%N] [10]; stepVector 2000 [0%N] [11]]]
             [Ok [stepVector 1000 [0%N] [5]]] in
  (scenario.Next o).1 = Panic "index out of range".
Proof. vm_compute. reflexivity. Qed.

(** X22, at the range query [ranged]: six steps, in batches of four and
    two. *)
Lemma range_query_steps_ranged :
  drain 5 ranged
  = [stepVector 0 [0%N] [7]; stepVector 1000 [0%N] [7];
     stepVector 2000 [0%N] [7]; stepVector 3000 [0%N] [7];
     stepVector 4000 [0%N] [7]; stepVector 5000 [0%N] [7]]
  ∧ ∃ calls,
      (∀ n, (calls ≤ n)%nat →
         drain n ranged = stepVectorAt ranged <$> progression 0 5000 1000)
      ∧ (∀ n, (calls ≤ n)%nat → (scan.Next (after n ranged)).1 = Ok []).
Proof.
  split; [vm_compute; reflexivity|].
  apply (range_query_steps 0 5000 1000 4 7 None);
    first [lia | vm_compute; reflexivity].
Defined.

(** The general form of the failing input of C9. *)
Lemma join_is_Panic_example :
  let high := binary.hashSeries HashWithoutLabels HashForLabels onJob
                [up1] true in
  let low := binary.hashSeries HashWithoutLabels HashForLabels onJob
               [downB; down1] false in
  is_Panic (binary.join scenario.rangeKeys high.1 high.2 low.1 low.2).
Proof.
  apply (join_is_Panic HashWithoutLabels HashForLabels scenario.rangeKeys
           rangeKeys_elements onJob [up1] [downB; down1] 0 up1).
  - reflexivity.
  - exists down1. split; [right; left|vm_compute; reflexivity].
  - intros [|[|j]] m' Hj Hk; simpl in *; [|lia..].
    injection Hj as <-. vm_compute in Hk. discriminate.
Qed.

(** ** The further properties at the scenarios *)

(** X16, at the range query [ranged]. *)
Lemma loaded_kept_witness :
  is_Ok (scan.Next ranged).1 ∧ (scan.Series ranged).1 = Ok [[]].
Proof.
  destruct (proj2 (@loaded_kept value) ranged) as (_ & _ & H1 & H2).
  - left. reflexivity.
  - split; [exact H1|exact H2].
Defined.


(** X18, at the first batch of [ranged]. *)
Lemma Next_within_maxt_witness :
  let batch := [stepVector 0 [0%N] [7]; stepVector 1000 [0%N] [7];
                stepVector 2000 [0%N] [7]; stepVector 3000 [0%N] [7]] in
  (∀ v, v ∈ batch → ∃ ts, ts ≤ 5000 ∧ v = stepVectorAt ranged ts)
  ∧ (∀ v, head batch = Some v → v = stepVectorAt ranged 0)
  ∧ Z.of_nat (length batch) ≤ Z.max 0 4.
Proof.
  apply (Next_within_maxt ranged).
  - left. reflexivity.
  - simpl. lia.
  - vm_compute. reflexivity.
Defined.

(** X19, at the range query with batches of no step. *)
Lemma Next_no_room_witness : (scan.Next noRoom).1 = Ok [].
Proof. apply Next_no_room. simpl. lia. Defined.

(** X20, at the range query [ranged]. *)
Lemma Series_then_Next_witness :
  (scan.Next (scan.Series ranged).2).1 = (scan.Next ranged).1
  ∧ scan.currentStep (scan.Next (scan.Series ranged).2).2
    = scan.currentStep (scan.Next ranged).2
  ∧ scan.Series (scan.Series ranged).2 = scan.Series ranged.
Proof. apply Series_then_Next. left. reflexivity. Defined.

(** X21, at the instant query [instant], after five calls. *)
Lemma Next_zero_step_witness :
  (scan.Next (after 5 instant)).1 = Ok [stepVectorAt instant 1000]
  ∧ scan.currentStep (after 5 instant) = 1000.
Proof.
  apply (Next_zero_step instant 5).
  - left. reflexivity.
  - reflexivity.
  - simpl. lia.
  - simpl. lia.
  - simpl. lia.
Defined.

(** X23, at the second batch of [ranged]: the steps 4 and 5. *)
Lemma range_query_batches_witness :
  (scan.Next (after 1 ranged)).1
  = Ok (stepVectorAt ranged <$> ((λ j, 0 + j * 1000) <$> seqZ 4 2)).
Proof.
  apply (range_query_batches 0 5000 1000 4 7 None);
    first [lia | vm_compute; reflexivity].
Defined.

(** X3, at the bucket of [up1] and [up2] under [on(job)]. *)
Lemma hashSeries_bucket_order_witness :
  (∀ s, s ∈ [{| ID := 0; Metric := [label "job" "a"] |};
             {| ID := 1; Metric := [label "job" "a"] |}] ↔
     ∃ i m, [up1; up2] !! i = Some m
            ∧ joinKey HashWithoutLabels HashForLabels onJob m
              = joinKey HashWithoutLabels HashForLabels onJob up1
            ∧ s = {| ID := N.of_nat i;
                     Metric := retained HashWithoutLabels HashForLabels
                                 onJob true m |})
  ∧ (∀ a b sa sb,
       [{| ID := 0; Metric := [label "job" "a"] |};
        {| ID := 1; Metric := [label "job" "a"] |}] !! a = Some sa →
       [{| ID := 0; Metric := [label "job" "a"] |};
        {| ID := 1; Metric := [label "job" "a"] |}] !! b = Some sb →
       (a < b)%nat → (ID sa < ID sb)%N).
Proof.
  apply (hashSeries_bucket_order HashWithoutLabels HashForLabels onJob
           [up1; up2] true).
  vm_compute. reflexivity.
Defined.

(** X4, at [up1] and [up2] under [on()]. *)
Lemma hashSeries_on_nothing_witness :
  (binary.hashSeries HashWithoutLabels HashForLabels onNothing [up1; up2]
     true).1
  = {[ 0%N := [{| ID := 0; Metric := [] |}; {| ID := 1; Metric := [] |}] ]}.
Proof.
  destruct (hashSeries_on_nothing HashWithoutLabels HashForLabels onNothing
              [up1; up2] true) as (H1 & _ & H3).
  - reflexivity.
  - reflexivity.
  - discriminate.
  - rewrite H1. simpl. by rewrite !H3.
Defined.

(** X5, at the join of [up1] with [downB] and [down1]: the partner of
    [up1] is at position 1. *)
Lemma join_panics_iff_witness :
  let high := binary.hashSeries HashWithoutLabels HashForLabels onJob
                [up1] true in
  let low := binary.hashSeries HashWithoutLabels HashForLabels onJob
               [downB; down1] false in
  is_Panic (binary.join scenario.rangeKeys high.1 high.2 low.1 low.2).
Proof.
  apply (join_panics_iff HashWithoutLabels HashForLabels scenario.rangeKeys
           rangeKeys_elements onJob [up1] [downB; down1]).
  exists 0%nat, up1, 1%nat. split; [reflexivity|]. split; [|simpl; lia].
  split.
  - exists down1. split; [reflexivity|vm_compute; reflexivity].
  - intros [|j'] m''; [|lia]. intros _ [= <-]. vm_compute. discriminate.
Defined.

(** X6, at the join of [up1] and [up2] with [down1]. *)
Lemma join_is_Ok_witness :
  let high := binary.hashSeries HashWithoutLabels HashForLabels onJob
                [up1; up2] true in
  let low := binary.hashSeries HashWithoutLabels HashForLabels onJob
               [down1] false in
  is_Ok (binary.join scenario.rangeKeys high.1 high.2 low.1 low.2).
Proof.
  apply (join_is_Ok HashWithoutLabels HashForLabels scenario.rangeKeys
           rangeKeys_elements onJob [up1; up2] [down1]).
  simpl. lia.
Defined.

(** X7, at the join of [up1] and [up2] with [down1]. *)
Lemma join_highCardOutputIndex_witness :
  length [Some 0%N; Some 1%N] = length [up1; up2]
  ∧ (∀ i1 i2 x, [Some 0%N; Some 1%N] !! i1 = Some (Some x) →
       [Some 0%N; Some 1%N] !! i2 = Some (Some x) → i1 = i2)
  ∧ (∀ x, (N.to_nat x
           < length [{| ID := 0; Metric := [label "job" "a"] |};
                     {| ID := 1; Metric := [label "job" "a"] |}])%nat →
       ∃ i, [Some 0%N; Some 1%N] !! i = Some (Some x)).
Proof.
  apply (join_highCardOutputIndex HashWithoutLabels HashForLabels
           scenario.rangeKeys rangeKeys_elements onJob [up1; up2] [down1]
           _ _ [[0%N; 1%N]; []]).
  vm_compute. reflexivity.
Defined.

(** X8, at the entry of [down1] in the join of [up1] and [up2] with
    [down1]. *)
Lemma join_lowCardOutputIndex_witness :
  NoDup [0%N; 1%N]
  ∧ ∀ x, x ∈ [0%N; 1%N] ↔
      ∃ i m, [up1; up2] !! i = Some m
             ∧ firstPartner HashWithoutLabels HashForLabels onJob [down1] m 0
             ∧ [Some 0%N; Some 1%N] !! i = Some (Some x).
Proof.
  apply (join_lowCardOutputIndex HashWithoutLabels HashForLabels
           scenario.rangeKeys rangeKeys_elements onJob [up1; up2] [down1]
           [{| ID := 0; Metric := [label "job" "a"] |};
            {| ID := 1; Metric := [label "job" "a"] |}]
           [Some 0%N; Some 1%N] [[0%N; 1%N]; []]).
  - vm_compute. reflexivity.
  - reflexivity.
Defined.

(** X9, at the join of [up1] and [up2] with [down1]. *)
Lemma join_output_series_witness :
  [[label "job" "a"]; [label "job" "a"]]
  ≡ₚ retained HashWithoutLabels HashForLabels onJob true
       <$> filter (λ m, Exists (λ m', joinKey HashWithoutLabels HashForLabels
                                        onJob m'
                                      = joinKey HashWithoutLabels
                                          HashForLabels onJob m) [down1])
             [up1; up2].
Proof.
  apply (join_output_series HashWithoutLabels HashForLabels
           scenario.rangeKeys rangeKeys_elements onJob [up1; up2] [down1]
           [{| ID := 0; Metric := [label "job" "a"] |};
            {| ID := 1; Metric := [label "job" "a"] |}]
           [Some 0%N; Some 1%N] [[0%N; 1%N]; []]).
  vm_compute. reflexivity.
Defined.

(** X10, at the join of [up1] with [downB]. *)
Lemma join_no_partner_witness :
  let high := binary.hashSeries HashWithoutLabels HashForLabels onJob
                [up1] true in
  let low := binary.hashSeries HashWithoutLabels HashForLabels onJob
               [downB] false in
  binary.join scenario.rangeKeys high.1 high.2 low.1 low.2
  = Ok ([], [None], [[]]).
Proof.
  apply (join_no_partner HashWithoutLabels HashForLabels scenario.rangeKeys
           rangeKeys_elements onJob [up1] [downB]).
  intros m m' ->%list_elem_of_singleton ->%list_elem_of_singleton.
  vm_compute. discriminate.
Defined.

(** X13, at the initialized plan after one call of [Next]. *)
Lemma Next_keeps_outputs_witness :
  binary.series (after 1 (initialized rhsBatch)) = [[label "job" "a"]]
  ∧ binary.highCardOutputIndex (after 1 (initialized rhsBatch)) = [Some 0%N]
  ∧ binary.lowCardOutputIndex (after 1 (initialized rhsBatch)) = [[0%N]]
  ∧ scenario.Series (after 1 (initialized rhsBatch))
    = (Ok [[label "job" "a"]], after 1 (initialized rhsBatch)).
Proof.
  apply (Next_keeps_outputs HashWithoutLabels HashForLabels
           scenario.rangeKeys tt newTable execBinaryOperation
           (initialized rhsBatch) 1).
  vm_compute. reflexivity.
Defined.

(** X14, at the initialized plan with two steps on each side. *)
Lemma Next_steps_witness :
  (scenario.Next (initialized rhsBatch)).1
  = Ok [stepVector 1000 [0%N] [15]; stepVector 2000 [0%N] [17]].
Proof.
  rewrite (Next_steps HashWithoutLabels HashForLabels
             scenario.rangeKeys tt newTable execBinaryOperation
             (initialized rhsBatch) lhsBatch rhsBatch
             {| labelsOf := Ok [up1]; batches := [] |}
             {| labelsOf := Ok [down1]; batches := [] |}
             {| card := CardOneToOne; operation := ADD;
                highCardinality := [Some 0%N];
                lowCardinality := [[0%N]] |}).
  - vm_compute. reflexivity.
  - vm_compute. reflexivity.
  - vm_compute. reflexivity.
  - discriminate.
  - simpl. lia.
  - vm_compute. reflexivity.
  - vm_compute. reflexivity.
Defined.

(** X15, at the initialized plan with two steps on the left and one on the
    right. *)
Lemma Next_rhs_out_of_range_witness :
  is_Panic (scenario.Next (initialized [stepVector 1000 [0%N] [5]])).1.
Proof.
  apply (Next_rhs_out_of_range HashWithoutLabels HashForLabels
           scenario.rangeKeys tt newTable execBinaryOperation
           (initialized [stepVector 1000 [0%N] [5]])
           lhsBatch [stepVector 1000 [0%N] [5]]
           {| labelsOf := Ok [up1]; batches := [] |}
           {| labelsOf := Ok [down1]; batches := [] |}).
  - vm_compute. reflexivity.
  - vm_compute. reflexivity.
  - discriminate.
  - simpl. lia.
  - vm_compute. reflexivity.
Defined.

Lemma rangeKeysBackwards_elements (s : gset N) :
  rangeKeysBackwards s ≡ₚ elements s.
Proof. apply reverse_Permutation. Qed.

(** X11, at two [info] series and three [up] series; the one operator goes
    through its maps in the order of the keys and the other one backwards,
    and the ids of the outputs differ. *)
Lemma initOutputs_group_right_witness :
  let o := plan [info; infoB] [up1; up2; upB] groupRight [] [] in
  let o' := plan [up1; up2; upB] [info; infoB] groupLeft [] [] in
  let o1 := (scenario.initOutputs o).2 in
  let o1' := (binary.initOutputs (float64:=value) HashWithoutLabels
                HashForLabels rangeKeysBackwards tt newTable o').2 in
  binary.highCardOutputIndex o1 = [Some 1%N; Some 2%N; Some 0%N]
  ∧ binary.highCardOutputIndex o1' = [Some 0%N; Some 1%N; Some 2%N]
  ∧ binary.series o1' ≡ₚ binary.series o1
  ∧ length (binary.highCardOutputIndex o1')
    = length (binary.highCardOutputIndex o1)
  ∧ length (binary.lowCardOutputIndex o1')
    = length (binary.lowCardOutputIndex o1)
  ∧ (∀ i, outputLabels o1' i = outputLabels o1 i)
  ∧ (∀ i j, listedUnder o1' i j ↔ listedUnder o1 i j).
Proof.
  intros o o' o1 o1'.
  split; [vm_compute; reflexivity|]. split; [vm_compute; reflexivity|].
  apply (initOutputs_group_right HashWithoutLabels HashForLabels
           scenario.rangeKeys rangeKeysBackwards rangeKeys_elements
           rangeKeysBackwards_elements tt newTable o o'
           [info; infoB] [up1; up2; upB] (binary.lhs o) (binary.rhs o)).
  - reflexivity.
  - reflexivity.
  - reflexivity.
  - reflexivity.
  - reflexivity.
  - reflexivity.
  - reflexivity.
  - reflexivity.
  - vm_compute. reflexivity.
  - vm_compute. reflexivity.
Defined.

(** X12, at a plan whose left child returns an error: the first call of
    [Series] returns an error, the second one an empty list and no error. *)
Lemma Series_once_witness :
  is_Err (scenario.Series failing).1
  ∧ (scenario.Series (scenario.Series failing).2).1 = Ok [].
Proof.
  pose proof (Series_once HashWithoutLabels HashForLabels scenario.rangeKeys
                tt newTable failing) as (H1 & _ & H3).
  specialize (H3 eq_refl (or_introl I)). destruct H3 as [H3 H4].
  split; [exact H3|].
  exact (eq_trans (f_equal fst H1) (f_equal Ok H4)).
Defined.

(** X24, at the join of [up1] with [down1]. *)
Lemma join_one_to_one_witness : (length [0%N] ≤ 1)%nat.
Proof.
  apply (join_one_to_one HashWithoutLabels HashForLabels scenario.rangeKeys
           rangeKeys_elements onJob [up1] [down1]
           [{| ID := 0; Metric := [label "job" "a"] |}]
           [Some 0%N] [[0%N]]) with (j := 0%nat).
  - intros [|i1] [|i2] m1 m2 H1 H2 _; [reflexivity|discriminate..].
  - vm_compute. reflexivity.
  - reflexivity.
Defined.
